(** * Dilithium arithmetic and canonical codecs: a shallow embedding

    The development follows the Go sources:
    - [sign/dilithium/internal/common/pack.go]  (T0, T1 and B60 codecs),
    - [sign/dilithium/mode3/internal/pack.go]   (Eta, Gamma1 and hint codecs),
    - the sampling file of package [common]     (DeriveNoise, DeriveUniform),
    and the test files [field_test.go] and [rounding_test.go], which fix the
    contracts of the field primitives.

    Machine integers are modelled as [Z] with the wrap-around written out,
    Go slices and arrays as lists accessed through bounds-checked [idx] and
    [upd], and a Go panic as the [Panic] result. *)

From Stdlib Require Import ZArith Lia List Bool String Btauto.
From stdpp Require Import base list.
From coqutil Require Import Z.bitblast.
Import ListNotations.

Local Open Scope Z_scope.


(** ** Machine integers *)

Definition u8 (x : Z) : Z := x mod 2 ^ 8.
Definition u16 (x : Z) : Z := x mod 2 ^ 16.
Definition u32 (x : Z) : Z := x mod 2 ^ 32.
Definition u64 (x : Z) : Z := x mod 2 ^ 64.

(** [int32(x)] for a [uint32] x: the two's-complement reading. *)
Definition int32 (x : Z) : Z := if x <? 2 ^ 31 then x else x - 2 ^ 32.

(** [uint32(int32(x) >> 31)]: all ones when the sign bit of x is set. *)
Definition sign_mask (x : Z) : Z := u32 (Z.shiftr (int32 x) 31).

(** ** Field primitives *)

Module Field.

(** Modelled from the spec: the parameter file of the scheme is not among the
    sources.  Q is the fixed prime below 2^24 of the Dilithium family
    (2^23 - 2^13 + 1), D the number of dropped bits (the T0 codec is 14 bits
    wide), Alpha = 2 * Gamma2 with (Q - 1) / Alpha = 16. *)
Definition Q : Z := 8380417.
Definition D : Z := 14.
Definition Gamma2 : Z := 261888.
Definition Alpha : Z := 2 * Gamma2.

(** Modelled from the spec: field.go is not among the sources.
    [reducePartial] (reduceLe2Q in the tests): a value below 2Q congruent to
    x, by an approximate-quotient step: x1 = x >> 23 estimates x / Q, and
    x - x1 * Q = x2 + (x1 << 13) - x1 as 2^23 = 2^13 - 1 (mod Q). *)
Definition reduceLe2Q (x : Z) : Z :=
  let x1 := Z.shiftr x 23 in
  let x2 := Z.land x 8388607 in
  u32 (u32 (x2 + u32 (Z.shiftl x1 13)) - x1).

(** Modelled from the spec: the last, branch-free step of the full reduction.
    For x below 2Q subtract Q and add it back under the sign mask
    [(int32(x) >> 31) & Q]. *)
Definition le2qModQ (x : Z) : Z :=
  let x := u32 (x - Q) in
  let mask := sign_mask x in
  u32 (x + Z.land mask Q).

(** Modelled from the spec: [reduceFull] (modQ in the tests), the partial
    reduction followed by the branch-free correction. *)
Definition modQ (x : Z) : Z := le2qModQ (reduceLe2Q x).

(** The centred remainder of a modulo m, in (-m/2, m/2]. *)
Definition cmod (a m : Z) : Z :=
  let r := a mod m in
  if r <=? m / 2 then r else r - m.

(** Modelled from the spec: field.go is not among the sources.
    [power2round a] splits a as a0 + 2^D * a1 with a0 in (-2^(D-1), 2^(D-1)]
    and returns a0 + Q and a1. *)
Definition power2round (a : Z) : Z * Z :=
  let a0 := cmod a (2 ^ D) in
  let a1 := Z.shiftr (a - a0) D in
  (u32 (Q + a0), a1).

(** Modelled from the spec: rounding.go is not among the sources.
    [decompose a] has the shape of [power2round] with Alpha in place of 2^D;
    when the naive high part equals (Q - 1) / Alpha it is forced to 0 and
    the low part is decremented by 1. *)
Definition decompose_naive (a : Z) : Z * Z :=
  let a0 := cmod a Alpha in
  (a0, (a - a0) / Alpha).

Definition decompose (a : Z) : Z * Z :=
  let '(a0, a1) := decompose_naive a in
  if a1 =? (Q - 1) / Alpha then (u32 (Q + a0 - 1), 0) else (u32 (Q + a0), a1).

(** The pairs a decomposition ranges over: a high part below (Q - 1) / Alpha
    and a centred low part in (-Alpha/2, Alpha/2], or -Alpha/2 itself beside
    the high part 0 (the wrap point). *)
Definition decomposed (a0 a1 : Z) : bool :=
  (0 <=? a1) && (a1 <? (Q - 1) / Alpha) &&
  (((- (Alpha / 2) <? a0) && (a0 <=? Alpha / 2)) ||
   ((a1 =? 0) && (a0 =? - (Alpha / 2)))).

(** Modelled from the spec: rounding.go is not among the sources.
    [makeHint z0 r1] takes the perturbed low part z0 (any representative
    below 2^32) and the unperturbed high part r1; the perturbed value is
    Alpha * r1 + z0, and the hint is 1 iff its high part differs from r1. *)
Definition makeHint (z0 r1 : Z) : Z :=
  let '(_, r1') := decompose (modQ (u32 (Alpha * r1 + z0))) in
  if r1' =? r1 then 0 else 1.

(** Modelled from the spec: rounding.go is not among the sources.  The spec
    fixes [useHint] only through the round trip with [makeHint]; the rule
    taken here is the one of the scheme: without a hint the high part of rp,
    with a hint the neighbouring high part on the side of the sign of the
    low part, modulo (Q - 1) / Alpha. *)
Definition useHint (rp hint : Z) : Z :=
  let '(rp0plusQ, rp1) := decompose rp in
  if hint =? 0 then rp1
  else if Q <? rp0plusQ then (rp1 + 1) mod ((Q - 1) / Alpha)
  else (rp1 - 1) mod ((Q - 1) / Alpha).

End Field.

(** ** Go results, slices and loops *)

(** A Go call either returns or panics. *)
Inductive result (A : Type) : Type :=
  | Ok (a : A)
  | Panic (msg : string).
Arguments Ok {A} a.
Arguments Panic {A} msg.

Definition bind {A B : Type} (r : result A) (k : A -> result B) : result B :=
  match r with
  | Ok a => k a
  | Panic m => Panic m
  end.

Notation "x <- c1 ;; c2" := (bind c1 (fun x => c2))
  (at level 60, c1 at next level, right associativity).

(** [l[i]] and [l[i] = v] on a slice or an array: out of range they panic. *)
Fixpoint idx {A : Type} (l : list A) (i : nat) : result A :=
  match l, i with
  | [], _ => Panic "index out of range"
  | x :: _, O => Ok x
  | _ :: l', S i' => idx l' i'
  end.

Fixpoint upd {A : Type} (l : list A) (i : nat) (v : A) : result (list A) :=
  match l, i with
  | [], _ => Panic "index out of range"
  | _ :: l', O => Ok (v :: l')
  | x :: l', S i' => l'' <- upd l' i' v ;; Ok (x :: l'')
  end.

(** [for i := i0; ...; i += step { body }] run for n iterations. *)
Fixpoint for_range {S : Type} (n : nat) (i step : nat)
    (body : nat -> S -> result S) (s : S) : result S :=
  match n with
  | O => Ok s
  | S n' => s' <- body i s ;; for_range n' (i + step) step body s'
  end.

(** The number of iterations of [for i := 0; i < bound; i += step]. *)
Definition iterations (bound step : nat) : nat := (bound + step - 1) / step.

(** A loop body that may leave the enclosing function with [return r]. *)
Inductive flow (S R : Type) : Type :=
  | Next (s : S)
  | Return (r : R).
Arguments Next {S R} s.
Arguments Return {S R} r.

Fixpoint for_range_ret {S R : Type} (n : nat) (i step : nat)
    (body : nat -> S -> result (flow S R)) (s : S) : result (flow S R) :=
  match n with
  | O => Ok (Next s)
  | S n' =>
      f <- body i s ;;
      match f with
      | Next s' => for_range_ret n' (i + step) step body s'
      | Return r => Ok (Return r)
      end
  end.

(** Byte and word operations as Go evaluates them. *)
Definition byte (x : Z) : Z := u8 x.
Definition shl8 (x k : Z) : Z := u8 (Z.shiftl x k).
Definition shl32 (x k : Z) : Z := u32 (Z.shiftl x k).
Definition shl64 (x k : Z) : Z := u64 (Z.shiftl x k).
Definition shr (x k : Z) : Z := Z.shiftr x k.

(** The coefficients of p all lie in [lo, hi). *)
Definition coeffs_in (lo hi : Z) (p : list Z) : bool :=
  forallb (fun x => (lo <=? x) && (x <? hi)) p.

(** The slices of width b of a list, and the list as their concatenation. *)
Definition slice (b : nat) (p : list Z) (k : nat) : list Z :=
  map (fun c => nth (b * k + c) p 0) (seq 0 b).

(** ** Package common: pack.go *)

Module Common.

Definition Q : Z := Field.Q.
Definition D : Z := Field.D.

(** Modelled from the spec: the parameter file is not among the sources.
    N is the ring degree 256; a packed polynomial takes N * width / 8 bytes:
    288 for T1 (9 bits) and 448 for T0 (14 bits). *)
Definition N : nat := 256.
Definition PolyT1Size : nat := 288.
Definition PolyT0Size : nat := 448.

(** [type Poly [N]uint32]: a list of N coefficients. *)
Notation Poly := (list Z) (only parsing).
Definition zeroPoly : Poly := repeat 0 N.

Definition UnpackT1 (p : Poly) (buf : list Z) : result Poly :=
  s <- for_range (iterations PolyT1Size 9) 0 9 (fun i '(p, j) =>
    b0 <- idx buf i ;; b1 <- idx buf (i + 1) ;;
    p <- upd p j (Z.land (Z.lor b0 (shl32 b1 8)) 511) ;;
    b1 <- idx buf (i + 1) ;; b2 <- idx buf (i + 2) ;;
    p <- upd p (j + 1) (Z.land (Z.lor (shr b1 1) (shl32 b2 7)) 511) ;;
    b2 <- idx buf (i + 2) ;; b3 <- idx buf (i + 3) ;;
    p <- upd p (j + 2) (Z.land (Z.lor (shr b2 2) (shl32 b3 6)) 511) ;;
    b3 <- idx buf (i + 3) ;; b4 <- idx buf (i + 4) ;;
    p <- upd p (j + 3) (Z.land (Z.lor (shr b3 3) (shl32 b4 5)) 511) ;;
    b4 <- idx buf (i + 4) ;; b5 <- idx buf (i + 5) ;;
    p <- upd p (j + 4) (Z.land (Z.lor (shr b4 4) (shl32 b5 4)) 511) ;;
    b5 <- idx buf (i + 5) ;; b6 <- idx buf (i + 6) ;;
    p <- upd p (j + 5) (Z.land (Z.lor (shr b5 5) (shl32 b6 3)) 511) ;;
    b6 <- idx buf (i + 6) ;; b7 <- idx buf (i + 7) ;;
    p <- upd p (j + 6) (Z.land (Z.lor (shr b6 6) (shl32 b7 2)) 511) ;;
    b7 <- idx buf (i + 7) ;; b8 <- idx buf (i + 8) ;;
    p <- upd p (j + 7) (Z.land (Z.lor (shr b7 7) (shl32 b8 1)) 511) ;;
    Ok (p, j + 8)%nat) (p, O) ;;
  Ok (fst s).

Definition PackT0 (p : Poly) (buf : list Z) : result (list Z) :=
  s <- for_range (iterations PolyT0Size 7) 0 7 (fun i '(buf, j) =>
    pj <- idx p j ;;
    let p0 := u32 (Q + Z.shiftl 1 (D - 1) - pj) in
    pj1 <- idx p (j + 1) ;;
    let p1 := u32 (Q + Z.shiftl 1 (D - 1) - pj1) in
    pj2 <- idx p (j + 2) ;;
    let p2 := u32 (Q + Z.shiftl 1 (D - 1) - pj2) in
    pj3 <- idx p (j + 3) ;;
    let p3 := u32 (Q + Z.shiftl 1 (D - 1) - pj3) in
    buf <- upd buf i (byte p0) ;;
    buf <- upd buf (i + 1) (Z.lor (byte (shr p0 8)) (byte (shl32 p1 6))) ;;
    buf <- upd buf (i + 2) (byte (shr p1 2)) ;;
    buf <- upd buf (i + 3) (Z.lor (byte (shr p1 10)) (byte (shl32 p2 4))) ;;
    buf <- upd buf (i + 4) (byte (shr p2 4)) ;;
    buf <- upd buf (i + 5) (Z.lor (byte (shr p2 12)) (byte (shl32 p3 2))) ;;
    buf <- upd buf (i + 6) (byte (shr p3 6)) ;;
    Ok (buf, j + 4)%nat) (buf, O) ;;
  Ok (fst s).

Definition UnpackT0 (p : Poly) (buf : list Z) : result Poly :=
  s <- for_range (iterations PolyT0Size 7) 0 7 (fun i '(p, j) =>
    b0 <- idx buf i ;; b1 <- idx buf (i + 1) ;;
    p <- upd p j
      (u32 (Q + Z.shiftl 1 (D - 1) - Z.land (Z.lor b0 (shl32 b1 8)) 16383)) ;;
    b1 <- idx buf (i + 1) ;; b2 <- idx buf (i + 2) ;; b3 <- idx buf (i + 3) ;;
    p <- upd p (j + 1)
      (u32 (Q + Z.shiftl 1 (D - 1) -
            Z.land (Z.lor (Z.lor (shr b1 6) (shl32 b2 2)) (shl32 b3 10)) 16383)) ;;
    b3 <- idx buf (i + 3) ;; b4 <- idx buf (i + 4) ;; b5 <- idx buf (i + 5) ;;
    p <- upd p (j + 2)
      (u32 (Q + Z.shiftl 1 (D - 1) -
            Z.land (Z.lor (Z.lor (shr b3 4) (shl32 b4 4)) (shl32 b5 12)) 16383)) ;;
    b5 <- idx buf (i + 5) ;; b6 <- idx buf (i + 6) ;;
    p <- upd p (j + 3)
      (u32 (Q + Z.shiftl 1 (D - 1) - Z.lor (shr b5 2) (shl32 b6 6))) ;;
    Ok (p, j + 4)%nat) (p, O) ;;
  Ok (fst s).

Definition PackT1 (p : Poly) (buf : list Z) : result (list Z) :=
  s <- for_range (iterations PolyT1Size 9) 0 9 (fun i '(buf, j) =>
    pj <- idx p j ;;
    buf <- upd buf i (byte pj) ;;
    pj <- idx p j ;; pj1 <- idx p (j + 1) ;;
    buf <- upd buf (i + 1) (Z.lor (byte (shr pj 8)) (byte (shl32 pj1 1))) ;;
    pj1 <- idx p (j + 1) ;; pj2 <- idx p (j + 2) ;;
    buf <- upd buf (i + 2) (Z.lor (byte (shr pj1 7)) (byte (shl32 pj2 2))) ;;
    pj2 <- idx p (j + 2) ;; pj3 <- idx p (j + 3) ;;
    buf <- upd buf (i + 3) (Z.lor (byte (shr pj2 6)) (byte (shl32 pj3 3))) ;;
    pj3 <- idx p (j + 3) ;; pj4 <- idx p (j + 4) ;;
    buf <- upd buf (i + 4) (Z.lor (byte (shr pj3 5)) (byte (shl32 pj4 4))) ;;
    pj4 <- idx p (j + 4) ;; pj5 <- idx p (j + 5) ;;
    buf <- upd buf (i + 5) (Z.lor (byte (shr pj4 4)) (byte (shl32 pj5 5))) ;;
    pj5 <- idx p (j + 5) ;; pj6 <- idx p (j + 6) ;;
    buf <- upd buf (i + 6) (Z.lor (byte (shr pj5 3)) (byte (shl32 pj6 6))) ;;
    pj6 <- idx p (j + 6) ;; pj7 <- idx p (j + 7) ;;
    buf <- upd buf (i + 7) (Z.lor (byte (shr pj6 2)) (byte (shl32 pj7 7))) ;;
    pj7 <- idx p (j + 7) ;;
    buf <- upd buf (i + 8) (byte (shr pj7 1)) ;;
    Ok (buf, j + 8)%nat) (buf, O) ;;
  Ok (fst s).

(** [binary.LittleEndian.Uint64(buf[i:])]: the eight bytes from i on. *)
Definition le_uint64 (buf : list Z) (i : nat) : result Z :=
  b0 <- idx buf i ;; b1 <- idx buf (i + 1) ;; b2 <- idx buf (i + 2) ;;
  b3 <- idx buf (i + 3) ;; b4 <- idx buf (i + 4) ;; b5 <- idx buf (i + 5) ;;
  b6 <- idx buf (i + 6) ;; b7 <- idx buf (i + 7) ;;
  Ok (Z.lor (Z.lor (Z.lor (Z.lor (Z.lor (Z.lor (Z.lor
        b0 (shl64 b1 8)) (shl64 b2 16)) (shl64 b3 24)) (shl64 b4 32))
        (shl64 b5 40)) (shl64 b6 48)) (shl64 b7 56)).

Definition PackB60 (p : Poly) (buf : list Z) : result (list Z) :=
  s <- for_range 32 0 1 (fun i '(buf, signs, mask) =>
    buf <- upd buf i 0 ;;
    for_range 8 0 1 (fun j '(buf, signs, mask) =>
      c <- idx p (8 * i + j) ;;
      if negb (c =? 0) then
        bi <- idx buf i ;;
        buf <- upd buf i (Z.lor bi (shl8 1 (Z.of_nat j))) ;;
        c <- idx p (8 * i + j) ;;
        let signs := if c =? Q - 1 then Z.lor signs mask else signs in
        Ok (buf, signs, shl64 mask 1)
      else Ok (buf, signs, mask)) (buf, signs, mask)) (buf, 0, 1) ;;
  let '(buf, signs, _) := s in
  for_range 8 0 1 (fun i buf =>
    upd buf (i + 32) (u8 (shr signs (8 * Z.of_nat i)))) buf.

(** The result is the new value of p and the returned flag. *)
Definition UnpackB60 (p : Poly) (buf : list Z) : result (Poly * bool) :=
  let p := zeroPoly in
  signs <- le_uint64 buf 32 ;;
  if negb (shr signs 60 =? 0) then Ok (p, false)
  else
    s <- for_range 32 0 1 (fun i '(p, signs) =>
      for_range 8 0 1 (fun j '(p, signs) =>
        bi <- idx buf i ;;
        if Z.land (shr bi (Z.of_nat j)) 1 =? 1 then
          p <- upd p (8 * i + j) 1 ;;
          c <- idx p (8 * i + j) ;;
          p <- upd p (8 * i + j)
                 (Z.lxor c (Z.land (u32 (u64 (- Z.land signs 1))) (Z.lor 1 (Q - 1)))) ;;
          Ok (p, shr signs 1)
        else Ok (p, signs)) (p, signs)) (p, signs) ;;
    Ok (fst s, true).

(** *** The blocks the fixed-width loops write, iteration k *)

Definition bytesT1 (p : Poly) (k : nat) : list Z :=
  let c i := nth (8 * k + i) p 0 in
  [ byte (c 0%nat);
    Z.lor (byte (shr (c 0%nat) 8)) (byte (shl32 (c 1%nat) 1));
    Z.lor (byte (shr (c 1%nat) 7)) (byte (shl32 (c 2%nat) 2));
    Z.lor (byte (shr (c 2%nat) 6)) (byte (shl32 (c 3%nat) 3));
    Z.lor (byte (shr (c 3%nat) 5)) (byte (shl32 (c 4%nat) 4));
    Z.lor (byte (shr (c 4%nat) 4)) (byte (shl32 (c 5%nat) 5));
    Z.lor (byte (shr (c 5%nat) 3)) (byte (shl32 (c 6%nat) 6));
    Z.lor (byte (shr (c 6%nat) 2)) (byte (shl32 (c 7%nat) 7));
    byte (shr (c 7%nat) 1) ].

Definition coeffsT1 (buf : list Z) (k : nat) : list Z :=
  let b i := nth (9 * k + i) buf 0 in
  [ Z.land (Z.lor (b 0%nat) (shl32 (b 1%nat) 8)) 511;
    Z.land (Z.lor (shr (b 1%nat) 1) (shl32 (b 2%nat) 7)) 511;
    Z.land (Z.lor (shr (b 2%nat) 2) (shl32 (b 3%nat) 6)) 511;
    Z.land (Z.lor (shr (b 3%nat) 3) (shl32 (b 4%nat) 5)) 511;
    Z.land (Z.lor (shr (b 4%nat) 4) (shl32 (b 5%nat) 4)) 511;
    Z.land (Z.lor (shr (b 5%nat) 5) (shl32 (b 6%nat) 3)) 511;
    Z.land (Z.lor (shr (b 6%nat) 6) (shl32 (b 7%nat) 2)) 511;
    Z.land (Z.lor (shr (b 7%nat) 7) (shl32 (b 8%nat) 1)) 511 ].

Definition bytesT0 (p : Poly) (k : nat) : list Z :=
  let t i := u32 (Q + Z.shiftl 1 (D - 1) - nth (4 * k + i) p 0) in
  [ byte (t 0%nat);
    Z.lor (byte (shr (t 0%nat) 8)) (byte (shl32 (t 1%nat) 6));
    byte (shr (t 1%nat) 2);
    Z.lor (byte (shr (t 1%nat) 10)) (byte (shl32 (t 2%nat) 4));
    byte (shr (t 2%nat) 4);
    Z.lor (byte (shr (t 2%nat) 12)) (byte (shl32 (t 3%nat) 2));
    byte (shr (t 3%nat) 6) ].

Definition coeffsT0 (buf : list Z) (k : nat) : list Z :=
  let b i := nth (7 * k + i) buf 0 in
  [ u32 (Q + Z.shiftl 1 (D - 1) - Z.land (Z.lor (b 0%nat) (shl32 (b 1%nat) 8)) 16383);
    u32 (Q + Z.shiftl 1 (D - 1) -
         Z.land (Z.lor (Z.lor (shr (b 1%nat) 6) (shl32 (b 2%nat) 2))
                       (shl32 (b 3%nat) 10)) 16383);
    u32 (Q + Z.shiftl 1 (D - 1) -
         Z.land (Z.lor (Z.lor (shr (b 3%nat) 4) (shl32 (b 4%nat) 4))
                       (shl32 (b 5%nat) 12)) 16383);
    u32 (Q + Z.shiftl 1 (D - 1) - Z.lor (shr (b 5%nat) 2) (shl32 (b 6%nat) 6)) ].

(** The T0 window (Q - 2^(D-1), Q + 2^(D-1)]. *)
Definition in_T0_window (p : Poly) : bool :=
  coeffs_in (Q - 2 ^ (D - 1) + 1) (Q + 2 ^ (D - 1) + 1) p.

End Common.

(** ** Package mode3/internal: pack.go *)

Module Mode3.
Import Common.

(** [type VecK [K]Poly]: a list of K polynomials. *)
Notation VecK := (list Poly) (only parsing).

Section Params.

(** The constants of the mode are not among the sources and are taken as
    parameters: the noise bound Eta with its packed width DoubleEtaBits, the
    masking bound Gamma1, the hint budget Omega (compared with a uint8, so at
    most 255) and the vector dimension K. *)
Variables (Eta DoubleEtaBits Gamma1 : Z) (Omega K : nat).

(** Modelled from the spec: a packed polynomial takes N * width / 8 bytes;
    the Gamma1 codec is 20 bits wide. *)
Definition PolyLeqEtaSize : nat := (N * Z.to_nat DoubleEtaBits / 8)%nat.
Definition PolyLeGamma1Size : nat := 640.

Definition zeroVecK : VecK := repeat zeroPoly K.

Definition PolyPackLeqEta (p : Poly) (buf : list Z) : result (list Z) :=
  if DoubleEtaBits =? 4 then
    s <- for_range (iterations PolyLeqEtaSize 1) 0 1 (fun i '(buf, j) =>
      pj <- idx p j ;; pj1 <- idx p (j + 1) ;;
      buf <- upd buf i (Z.lor (byte (u32 (Q + Eta - pj)))
                              (shl8 (byte (u32 (Q + Eta - pj1))) 4)) ;;
      Ok (buf, j + 2)%nat) (buf, O) ;;
    Ok (fst s)
  else if DoubleEtaBits =? 3 then
    s <- for_range (iterations PolyLeqEtaSize 3) 0 3 (fun i '(buf, j) =>
      pj <- idx p j ;; pj1 <- idx p (j + 1) ;; pj2 <- idx p (j + 2) ;;
      buf <- upd buf i
        (Z.lor (Z.lor (byte (u32 (Q + Eta - pj)))
                      (shl8 (byte (u32 (Q + Eta - pj1))) 3))
               (shl8 (byte (u32 (Q + Eta - pj2))) 6)) ;;
      pj2 <- idx p (j + 2) ;; pj3 <- idx p (j + 3) ;;
      pj4 <- idx p (j + 4) ;; pj5 <- idx p (j + 5) ;;
      buf <- upd buf (i + 1)
        (Z.lor (Z.lor (Z.lor (shr (byte (u32 (Q + Eta - pj2))) 2)
                             (shl8 (byte (u32 (Q + Eta - pj3))) 1))
                      (shl8 (byte (u32 (Q + Eta - pj4))) 4))
               (shl8 (byte (u32 (Q + Eta - pj5))) 7)) ;;
      pj5 <- idx p (j + 5) ;; pj6 <- idx p (j + 6) ;; pj7 <- idx p (j + 7) ;;
      buf <- upd buf (i + 2)
        (Z.lor (Z.lor (shr (byte (u32 (Q + Eta - pj5))) 1)
                      (shl8 (byte (u32 (Q + Eta - pj6))) 2))
               (shl8 (byte (u32 (Q + Eta - pj7))) 5)) ;;
      Ok (buf, j + 8)%nat) (buf, O) ;;
    Ok (fst s)
  else Panic "eta not supported".

Definition PolyUnpackLeqEta (p : Poly) (buf : list Z) : result Poly :=
  if DoubleEtaBits =? 4 then
    s <- for_range (iterations PolyLeqEtaSize 1) 0 1 (fun i '(p, j) =>
      b <- idx buf i ;;
      p <- upd p j (u32 (Q + Eta - Z.land b 15)) ;;
      b <- idx buf i ;;
      p <- upd p (j + 1) (u32 (Q + Eta - shr b 4)) ;;
      Ok (p, j + 2)%nat) (p, O) ;;
    Ok (fst s)
  else if DoubleEtaBits =? 3 then
    s <- for_range (iterations PolyLeqEtaSize 3) 0 3 (fun i '(p, j) =>
      b0 <- idx buf i ;;
      p <- upd p j (u32 (Q + Eta - Z.land b0 7)) ;;
      b0 <- idx buf i ;;
      p <- upd p (j + 1) (u32 (Q + Eta - Z.land (shr b0 3) 7)) ;;
      b0 <- idx buf i ;; b1 <- idx buf (i + 1) ;;
      p <- upd p (j + 2)
             (u32 (Q + Eta - Z.lor (shr b0 6) (Z.land (shl8 b1 2) 7))) ;;
      b1 <- idx buf (i + 1) ;;
      p <- upd p (j + 3) (u32 (Q + Eta - Z.land (shr b1 1) 7)) ;;
      b1 <- idx buf (i + 1) ;;
      p <- upd p (j + 4) (u32 (Q + Eta - Z.land (shr b1 4) 7)) ;;
      b1 <- idx buf (i + 1) ;; b2 <- idx buf (i + 2) ;;
      p <- upd p (j + 5)
             (u32 (Q + Eta - Z.lor (shr b1 7) (Z.land (shl8 b2 1) 7))) ;;
      b2 <- idx buf (i + 2) ;;
      p <- upd p (j + 6) (u32 (Q + Eta - Z.land (shr b2 2) 7)) ;;
      b2 <- idx buf (i + 2) ;;
      p <- upd p (j + 7) (u32 (Q + Eta - Z.land (shr b2 5) 7)) ;;
      Ok (p, j + 8)%nat) (p, O) ;;
    Ok (fst s)
  else Panic "eta not supported".

(** [off] is a uint8; the last loop runs while [off < Omega]. *)
Definition PackHint (v : VecK) (buf : list Z) : result (list Z) :=
  s <- for_range K 0 1 (fun i '(buf, off) =>
    s <- for_range N 0 1 (fun j '(buf, off) =>
      vi <- idx v i ;; vij <- idx vi j ;;
      if negb (vij =? 0) then
        buf <- upd buf (Z.to_nat off) (u8 (Z.of_nat j)) ;;
        Ok (buf, u8 (off + 1))
      else Ok (buf, off)) (buf, off) ;;
    let '(buf, off) := s in
    buf <- upd buf (Omega + i) off ;;
    Ok (buf, off)) (buf, 0) ;;
  let '(buf, off) := s in
  for_range (Omega - Z.to_nat off) (Z.to_nat off) 1 (fun off buf =>
    upd buf off 0) buf.

(** The result is the new value of v and the returned flag. *)
Definition UnpackHint (v : VecK) (buf : list Z) : result (VecK * bool) :=
  let v := zeroVecK in
  r <- for_range_ret K 0 1 (fun i '(v, prevSOP) =>
    SOP <- idx buf (Omega + i) ;;
    if (SOP <? prevSOP) || (Z.of_nat Omega <? SOP) then Ok (Return (v, false))
    else
      r <- for_range_ret (Z.to_nat SOP - Z.to_nat prevSOP) (Z.to_nat prevSOP) 1
        (fun j v =>
          bad <- (if (Z.to_nat prevSOP <? j)%nat
                  then bj <- idx buf j ;; bj1 <- idx buf (j - 1) ;; Ok (bj <=? bj1)
                  else Ok false) ;;
          if bad then Ok (Return (v, false))
          else
            bj <- idx buf j ;;
            vi <- idx v i ;;
            vi <- upd vi (Z.to_nat bj) 1 ;;
            v <- upd v i vi ;;
            Ok (Next v)) v ;;
      match r with
      | Return r => Ok (Return r)
      | Next v => Ok (Next (v, SOP))
      end) (v, 0) ;;
  match r with
  | Return r => Ok r
  | Next (v, prevSOP) =>
      r <- for_range_ret (Omega - Z.to_nat prevSOP) (Z.to_nat prevSOP) 1
        (fun j (_ : unit) =>
          bj <- idx buf j ;;
          if negb (bj =? 0) then Ok (Return false) else Ok (Next tt)) tt ;;
      match r with
      | Return b => Ok (v, b)
      | Next _ => Ok (v, true)
      end
  end.

Definition PolyPackLeGamma1 (p : Poly) (buf : list Z) : result (list Z) :=
  s <- for_range (iterations PolyLeGamma1Size 5) 0 5 (fun i '(buf, j) =>
    pj <- idx p j ;;
    let p0 := u32 (Gamma1 - 1 - pj) in
    let p0 := u32 (p0 + Z.land (sign_mask p0) Q) in
    pj1 <- idx p (j + 1) ;;
    let p1 := u32 (Gamma1 - 1 - pj1) in
    let p1 := u32 (p1 + Z.land (sign_mask p1) Q) in
    buf <- upd buf i (byte p0) ;;
    buf <- upd buf (i + 1) (byte (shr p0 8)) ;;
    buf <- upd buf (i + 2) (Z.lor (byte (shr p0 16)) (byte (shl32 p1 4))) ;;
    buf <- upd buf (i + 3) (byte (shr p1 4)) ;;
    buf <- upd buf (i + 4) (byte (shr p1 12)) ;;
    Ok (buf, j + 2)%nat) (buf, O) ;;
  Ok (fst s).

(** One unpacked coefficient: [Gamma1 - 1 - uint32(x & 0xfffff)], then Q is
    added back under the sign mask. *)
Definition gamma1_coeff (x : Z) : Z :=
  let c := u32 (Gamma1 - 1 - u32 (Z.land x 1048575)) in
  u32 (c + Z.land (sign_mask c) Q).

Definition PolyUnpackLeGamma1 (p : Poly) (buf : list Z) : result Poly :=
  s <- for_range (iterations PolyLeGamma1Size 40) 0 40 (fun i '(p, j) =>
    a0 <- le_uint64 buf i ;;
    a1 <- le_uint64 buf (i + 8) ;;
    a2 <- le_uint64 buf (i + 16) ;;
    a3 <- le_uint64 buf (i + 24) ;;
    a4 <- le_uint64 buf (i + 32) ;;
    let p0 := gamma1_coeff a0 in
    let p1 := gamma1_coeff (shr a0 20) in
    let p2 := gamma1_coeff (shr a0 40) in
    let p3 := gamma1_coeff (Z.lor (shr a0 60) (shl64 a1 4)) in
    let p4 := gamma1_coeff (shr a1 16) in
    let p5 := gamma1_coeff (shr a1 36) in
    let p6 := gamma1_coeff (Z.lor (shr a1 56) (shl64 a2 8)) in
    let p7 := gamma1_coeff (shr a2 12) in
    let p8 := gamma1_coeff (shr a2 32) in
    let p9 := gamma1_coeff (Z.lor (shr a2 52) (shl64 a3 12)) in
    let p10 := gamma1_coeff (shr a3 8) in
    let p11 := gamma1_coeff (shr a3 28) in
    let p12 := gamma1_coeff (Z.lor (shr a3 48) (shl64 a4 16)) in
    let p13 := gamma1_coeff (shr a4 4) in
    let p14 := gamma1_coeff (shr a4 24) in
    let p15 := gamma1_coeff (shr a4 44) in
    p <- upd p j p0 ;;
    p <- upd p (j + 1) p1 ;;
    p <- upd p (j + 2) p2 ;;
    p <- upd p (j + 3) p3 ;;
    p <- upd p (j + 4) p4 ;;
    p <- upd p (j + 5) p5 ;;
    p <- upd p (j + 6) p6 ;;
    p <- upd p (j + 7) p7 ;;
    p <- upd p (j + 8) p8 ;;
    p <- upd p (j + 9) p9 ;;
    p <- upd p (j + 10) p10 ;;
    p <- upd p (j + 11) p11 ;;
    p <- upd p (j + 12) p12 ;;
    p <- upd p (j + 13) p13 ;;
    p <- upd p (j + 14) p14 ;;
    p <- upd p (j + 15) p15 ;;
    Ok (p, j + 16)%nat) (p, O) ;;
  Ok (fst s).

(** *** The blocks the fixed-width loops write, iteration k *)

Definition bytesEta4 (p : Poly) (k : nat) : list Z :=
  let t i := u32 (Q + Eta - nth (2 * k + i) p 0) in
  [ Z.lor (byte (t 0%nat)) (shl8 (byte (t 1%nat)) 4) ].

Definition coeffsEta4 (buf : list Z) (k : nat) : list Z :=
  let b i := nth (1 * k + i) buf 0 in
  [ u32 (Q + Eta - Z.land (b 0%nat) 15); u32 (Q + Eta - shr (b 0%nat) 4) ].

Definition bytesEta3 (p : Poly) (k : nat) : list Z :=
  let t i := byte (u32 (Q + Eta - nth (8 * k + i) p 0)) in
  [ Z.lor (Z.lor (t 0%nat) (shl8 (t 1%nat) 3)) (shl8 (t 2%nat) 6);
    Z.lor (Z.lor (Z.lor (shr (t 2%nat) 2) (shl8 (t 3%nat) 1)) (shl8 (t 4%nat) 4))
          (shl8 (t 5%nat) 7);
    Z.lor (Z.lor (shr (t 5%nat) 1) (shl8 (t 6%nat) 2)) (shl8 (t 7%nat) 5) ].

Definition coeffsEta3 (buf : list Z) (k : nat) : list Z :=
  let b i := nth (3 * k + i) buf 0 in
  [ u32 (Q + Eta - Z.land (b 0%nat) 7);
    u32 (Q + Eta - Z.land (shr (b 0%nat) 3) 7);
    u32 (Q + Eta - Z.lor (shr (b 0%nat) 6) (Z.land (shl8 (b 1%nat) 2) 7));
    u32 (Q + Eta - Z.land (shr (b 1%nat) 1) 7);
    u32 (Q + Eta - Z.land (shr (b 1%nat) 4) 7);
    u32 (Q + Eta - Z.lor (shr (b 1%nat) 7) (Z.land (shl8 (b 2%nat) 1) 7));
    u32 (Q + Eta - Z.land (shr (b 2%nat) 2) 7);
    u32 (Q + Eta - Z.land (shr (b 2%nat) 5) 7) ].

(** The 20-bit value packed for a coefficient x. *)
Definition packedG (x : Z) : Z :=
  let p0 := u32 (Gamma1 - 1 - x) in
  u32 (p0 + Z.land (sign_mask p0) Q).

Definition bytesG (p : Poly) (k : nat) : list Z :=
  let t i := packedG (nth (2 * k + i) p 0) in
  [ byte (t 0%nat);
    byte (shr (t 0%nat) 8);
    Z.lor (byte (shr (t 0%nat) 16)) (byte (shl32 (t 1%nat) 4));
    byte (shr (t 1%nat) 4);
    byte (shr (t 1%nat) 12) ].

Definition word (buf : list Z) (i : nat) : Z :=
  Z.lor (Z.lor (Z.lor (Z.lor (Z.lor (Z.lor (Z.lor
    (nth i buf 0) (shl64 (nth (i + 1) buf 0) 8)) (shl64 (nth (i + 2) buf 0) 16))
    (shl64 (nth (i + 3) buf 0) 24)) (shl64 (nth (i + 4) buf 0) 32))
    (shl64 (nth (i + 5) buf 0) 40)) (shl64 (nth (i + 6) buf 0) 48))
    (shl64 (nth (i + 7) buf 0) 56).

Definition coeffsG (buf : list Z) (k : nat) : list Z :=
  let a0 := word buf (40 * k) in
  let a1 := word buf (40 * k + 8) in
  let a2 := word buf (40 * k + 16) in
  let a3 := word buf (40 * k + 24) in
  let a4 := word buf (40 * k + 32) in
  [ gamma1_coeff a0;
    gamma1_coeff (shr a0 20);
    gamma1_coeff (shr a0 40);
    gamma1_coeff (Z.lor (shr a0 60) (shl64 a1 4));
    gamma1_coeff (shr a1 16);
    gamma1_coeff (shr a1 36);
    gamma1_coeff (Z.lor (shr a1 56) (shl64 a2 8));
    gamma1_coeff (shr a2 12);
    gamma1_coeff (shr a2 32);
    gamma1_coeff (Z.lor (shr a2 52) (shl64 a3 12));
    gamma1_coeff (shr a3 8);
    gamma1_coeff (shr a3 28);
    gamma1_coeff (Z.lor (shr a3 48) (shl64 a4 16));
    gamma1_coeff (shr a4 4);
    gamma1_coeff (shr a4 24);
    gamma1_coeff (shr a4 44) ].

(** The coefficients of norm below Gamma1: [0, Gamma1) and (Q - Gamma1, Q). *)
Definition normG (x : Z) : bool :=
  (0 <=? x) && (x <? Q) && ((x <? Gamma1) || (Q - Gamma1 <? x)).

End Params.

End Mode3.


(** ** The hint encoding, read declaratively *)

(** The entries of buf are bytes. *)
Definition is_bytes (buf : list Z) : bool := coeffs_in 0 256 buf.

Module HintSpec.
Import Common Mode3.

Section Params.

Variables (Omega K : nat).

(** Switch-over point k, and the one before it (0 before the first). *)
Definition sop (buf : list Z) (k : nat) : Z := nth (Omega + k) buf 0.
Definition prev_sop (buf : list Z) (k : nat) : Z :=
  match k with
  | O => 0
  | S m => sop buf m
  end.

(** The coefficients at the positions l set to 1. *)
Definition ones_at (l : list nat) (p : Poly) : Poly :=
  fold_left (fun p c => <[c := 1]> p) l p.

(** The element decoded from the index bytes a, ..., b - 1. *)
Definition elem_upto (buf : list Z) (a b : nat) : Poly :=
  ones_at (map (fun j => Z.to_nat (nth j buf 0)) (seq a (b - a))) zeroPoly.

(** Switch-over point k is not below its predecessor and not above Omega. *)
Definition sop_ok (buf : list Z) (k : nat) : bool :=
  (prev_sop buf k <=? sop buf k) && (sop buf k <=? Z.of_nat Omega).

(** The index bytes a, ..., b - 1 are strictly increasing. *)
Definition incr_ok (buf : list Z) (a b : nat) : bool :=
  forallb (fun j => nth (j - 1) buf 0 <? nth j buf 0) (seq (a + 1) (b - a - 1)).

Definition elem_ok (buf : list Z) (k : nat) : bool :=
  sop_ok buf k &&
  incr_ok buf (Z.to_nat (prev_sop buf k)) (Z.to_nat (sop buf k)).

(** The index bytes from the last switch-over point on are zero. *)
Definition pad_ok (buf : list Z) : bool :=
  forallb (fun j => nth j buf 0 =? 0)
          (seq (Z.to_nat (prev_sop buf K)) (Omega - Z.to_nat (prev_sop buf K))).

Definition hint_valid (buf : list Z) : bool :=
  forallb (elem_ok buf) (seq 0 K) && pad_ok buf.

Definition decode_hint (buf : list Z) : VecK :=
  map (fun k => elem_upto buf (Z.to_nat (prev_sop buf k)) (Z.to_nat (sop buf k)))
      (seq 0 K).

(** What a call may leave in v: K elements, each decoded from a run of
    index bytes of the buffer. *)
Definition decoded_prefix (buf : list Z) (v : VecK) : Prop :=
  length v = K /\
  Forall (fun vi => exists a b, (b <= Omega)%nat /\ vi = elem_upto buf a b) v.

(** The vector after k elements have been decoded in full. *)
Definition vstate (buf : list Z) (k : nat) : VecK :=
  map (fun m => if (m <? k)%nat
                then elem_upto buf (Z.to_nat (prev_sop buf m)) (Z.to_nat (sop buf m))
                else zeroPoly) (seq 0 K).

(** The first index byte of the run a + 1, ..., b - 1 that is not above its
    predecessor, b when the run is strictly increasing. *)
Definition first_unordered (buf : list Z) (a b : nat) : nat :=
  match find (fun j => nth j buf 0 <=? nth (j - 1) buf 0)
             (seq (a + 1) (b - a - 1)) with
  | Some j => j
  | None => b
  end.

(** The first element whose switch-over point or index bytes break the
    rules of the encoding. *)
Definition first_bad (buf : list Z) : option nat :=
  find (fun k => negb (elem_ok buf k)) (seq 0 K).

(** The vector after the elements before k have been decoded in full and
    element k up to its first violation: nothing of it when its switch-over
    point is out of order or above Omega, else its index bytes up to the
    first one that is not above its predecessor. *)
Definition stopped_at (buf : list Z) (k : nat) : VecK :=
  if sop_ok buf k
  then <[k := elem_upto buf (Z.to_nat (prev_sop buf k))
              (first_unordered buf (Z.to_nat (prev_sop buf k))
                                   (Z.to_nat (sop buf k)))]> (vstate buf k)
  else vstate buf k.

(** The vector a call leaves in v: the full decoding when every element is
    well formed, else the decoding up to the first violation. *)
Definition unpacked (buf : list Z) : VecK :=
  match first_bad buf with
  | None => decode_hint buf
  | Some k => stopped_at buf k
  end.

(** The positions below n of the nonzero coefficients of an element. *)
Definition positions (vi : Poly) (n : nat) : list nat :=
  List.filter (fun j => negb (nth j vi 0 =? 0)) (seq 0 n).

(** The number of index bytes the first i elements take. *)
Definition offs (v : VecK) (i : nat) : nat :=
  length (flat_map (fun vi => positions vi N) (take i v)).

(** A hint vector: K elements of N coefficients in {0, 1}. *)
Definition is_hint (v : VecK) : bool :=
  (length v =? K)%nat &&
  forallb (fun vi => (length vi =? N)%nat && coeffs_in 0 2 vi) v.

(** The number of hint bits set. *)
Definition weight (v : VecK) : nat :=
  length (flat_map (fun vi => positions vi N) v).

End Params.

End HintSpec.

(** ** The challenge encoding, read declaratively *)

Module B60Spec.
Import Common.

(** The sign stream of a coefficient list: one bit per nonzero coefficient,
    least significant first, set when the coefficient is Q - 1. *)
Fixpoint sign_bits (l : list Z) : Z :=
  match l with
  | [] => 0
  | c :: l' =>
      if c =? 0 then sign_bits l'
      else (if c =? Q - 1 then 1 else 0) + 2 * sign_bits l'
  end.

Definition nonzeros (l : list Z) : nat :=
  length (List.filter (fun c => negb (c =? 0)) l).

(** A challenge polynomial: N coefficients in {0, 1, Q - 1}, 60 of them
    nonzero. *)
Definition is_challenge (p : list Z) : bool :=
  (length p =? N)%nat &&
  forallb (fun c => (c =? 0) || (c =? 1) || (c =? Q - 1)) p &&
  (nonzeros p =? 60)%nat.

(** The first n coefficients of p followed by zeroes. *)
Definition pref (p : list Z) (n : nat) : list Z :=
  take n p ++ repeat 0 (N - n).

(** The number of bits set in the 32-byte mask. *)
Definition mask_bits (buf : list Z) : nat :=
  length (List.filter (fun n => Z.testbit (nth (n / 8) buf 0) (Z.of_nat (n mod 8)))
                      (seq 0 256)).

(** The 64-bit sign field, bytes 32 to 39. *)
Definition sign_field (buf : list Z) : Z := Mode3.word buf 32.

End B60Spec.

(** ** The sampling file of package common (src/unnamed/part_000) *)

Module Sample.
Import Common.

(** [int16(x)]: the two's-complement reading of the low 16 bits. *)
Definition int16 (x : Z) : Z :=
  let r := x mod 2 ^ 16 in
  if r <? 2 ^ 15 then r else r - 2 ^ 16.

Section Params.

(** The constants and collaborators of this file that are not among the
    sources are taken as parameters: the modulus Q of its package (the code
    converts it with [uint16(Q)], which Go accepts only for a constant below
    2^16), the two SHAKE streams ([shake128 input k] is byte k squeezed after
    absorbing [input]) and the coefficient reordering Tangle. *)
Variable Q : Z.
Variables shake128 shake256 : list Z -> nat -> Z.
Variable Tangle : list Z -> list Z.

(** Modelled from the spec: the ring degree N is 256. *)
Definition N : nat := 256.

(** [h.Read] of n bytes when pos bytes have been read before. *)
Definition squeeze (h : nat -> Z) (pos n : nat) : list Z :=
  map (fun k => u8 (h (pos + k)%nat)) (seq 0 n).

Definition DeriveNoise3 (p : list Z) (seed : list Z) (nonce : Z) : result (list Z) :=
  let keySuffix := [nonce] in
  let h := shake256 (seed ++ keySuffix) in
  let buf := squeeze h 0 192 ++ [0; 0] in
  for_range 32 0 1 (fun i p =>
    t <- le_uint64 buf (6 * i) ;;
    let d := Z.land t 40210710958665 in
    let d := u64 (d + Z.land (shr t 1) 40210710958665) in
    let d := u64 (d + Z.land (shr t 2) 40210710958665) in
    s <- for_range 8 0 1 (fun j '(p, d) =>
      let a := Z.land (int16 d) 7 in
      let d := shr d 3 in
      let b := Z.land (int16 d) 7 in
      let d := shr d 3 in
      p <- upd p (8 * i + j) (int16 (a - b)) ;;
      Ok (p, d)) (p, d) ;;
    Ok (fst s)) p.

Definition DeriveNoise2 (p : list Z) (seed : list Z) (nonce : Z) : result (list Z) :=
  let keySuffix := [nonce] in
  let h := shake256 (seed ++ keySuffix) in
  let buf := squeeze h 0 128 in
  for_range 16 0 1 (fun i p =>
    t <- le_uint64 buf (8 * i) ;;
    let d := Z.land t 6148914691236517205 in
    let d := u64 (d + Z.land (shr t 1) 6148914691236517205) in
    s <- for_range 16 0 1 (fun j '(p, d) =>
      let a := Z.land (int16 d) 3 in
      let d := shr d 2 in
      let b := Z.land (int16 d) 3 in
      let d := shr d 2 in
      p <- upd p (16 * i + j) (int16 (a - b)) ;;
      Ok (p, d)) (p, d) ;;
    Ok (fst s)) p.

Definition DeriveNoise (p : list Z) (seed : list Z) (nonce : Z) (eta : Z)
    : result (list Z) :=
  if eta =? 2 then DeriveNoise2 p seed nonce
  else if eta =? 3 then DeriveNoise3 p seed nonce
  else Panic "unsupported eta".

(** The two 12-bit candidates read at offset j of a block. *)
Definition cand1 (buf : list Z) (j : nat) : Z :=
  Z.land (Z.lor (u16 (nth j buf 0)) (u16 (Z.shiftl (u16 (nth (j + 1) buf 0)) 8))) 4095.
Definition cand2 (buf : list Z) (j : nat) : Z :=
  Z.land (Z.lor (u16 (shr (nth (j + 1) buf 0) 4))
                (u16 (Z.shiftl (u16 (nth (j + 2) buf 0)) 4))) 4095.

(** The loop over one 168-byte block; [Return] is the [break] taken when
    the N-th coefficient has been set. *)
Definition uniform_block (buf : list Z) (p : list Z) (i : nat)
    : result (flow (list Z * nat) (list Z * nat)) :=
  for_range_ret (iterations 168 3) 0 3 (fun j '(p, i) =>
    b0 <- idx buf j ;; b1 <- idx buf (j + 1) ;;
    let t1 := Z.land (Z.lor (u16 b0) (u16 (Z.shiftl (u16 b1) 8))) 4095 in
    b1 <- idx buf (j + 1) ;; b2 <- idx buf (j + 2) ;;
    let t2 := Z.land (Z.lor (u16 (shr b1 4)) (u16 (Z.shiftl (u16 b2) 4))) 4095 in
    let second := fun (p : list Z) (i : nat) =>
      if t2 <? Q then
        p <- upd p i (int16 t2) ;;
        let i := S i in
        if (i =? N)%nat then Ok (Return (p, i)) else Ok (Next (p, i))
      else Ok (Next (p, i)) in
    if t1 <? Q then
      p <- upd p i (int16 t1) ;;
      let i := S i in
      if (i =? N)%nat then Ok (Return (p, i)) else second p i
    else second p i) (p, i).

(** The outer [for] loop: it has no bound in the source, so the model takes
    the number of blocks it may squeeze; [None] means that number was used
    up before N coefficients were accepted. *)
Fixpoint uniform_loop (fuel : nat) (h : nat -> Z) (blk : nat)
    (p : list Z) (i : nat) : option (result (list Z)) :=
  match fuel with
  | O => None
  | S fuel' =>
      let buf := squeeze h (168 * blk) 168 in
      match uniform_block buf p i with
      | Panic m => Some (Panic m)
      | Ok f =>
          let '(p, i) := match f with Next s => s | Return s => s end in
          if (i =? N)%nat then Some (Ok p)
          else uniform_loop fuel' h (S blk) p i
      end
  end.

Definition DeriveUniform (fuel : nat) (p : list Z) (seed : list Z) (x y : Z)
    : option (result (list Z)) :=
  let seedSuffix := [x; y] in
  let h := shake128 (seed ++ seedSuffix) in
  match uniform_loop fuel h 0 p 0 with
  | Some (Ok p) => Some (Ok (Tangle p))
  | r => r
  end.

(** *** The candidates of the stream, read declaratively *)

(** The candidates of the first k triples of a block, in order. *)
Definition block_cands (buf : list Z) (k : nat) : list Z :=
  flat_map (fun m => [cand1 buf (3 * m); cand2 buf (3 * m)]) (seq 0 k).

(** The candidates of n blocks of the stream from block blk on. *)
Definition stream_cands (h : nat -> Z) (blk n : nat) : list Z :=
  flat_map (fun b => block_cands (squeeze h (168 * b) 168) 56) (seq blk n).

(** The candidates the sampler accepts. *)
Definition accepted (cs : list Z) : list Z :=
  List.filter (fun t => t <? Q) cs.

End Params.

End Sample.

(** ** Concrete inputs *)

Module Examples.
Import Common.

Definition pT1 : list Z :=
  map (fun i => (Z.of_nat i * 37 + 5) mod 512) (seq 0 256).

Definition pT0 : list Z :=
  map (fun i => Q - 8191 + (Z.of_nat i * 3737 + 5) mod 16384) (seq 0 256).

Definition pEta : list Z :=
  map (fun i => Q - 5 + (Z.of_nat i * 7 + 5) mod 11) (seq 0 256).

Definition pGamma1 : list Z :=
  map (fun i => ((Z.of_nat i * 373737 + 5) mod 1047551 - 523775) mod Q) (seq 0 256).

(** A hint vector of five elements with 76 bits set. *)
Definition hints : list (list Z) :=
  map (fun i => map (fun j => if (j mod 17 =? Z.of_nat i) then 1 else 0)
                    (map Z.of_nat (seq 0 256))) (seq 0 5).

(** A challenge: 60 coefficients 1 or Q - 1. *)
Definition challenge : list Z :=
  map (fun i => if 60 <=? i then 0 else if i mod 3 =? 0 then Q - 1 else 1)
      (map (fun i => (Z.of_nat i * 77) mod 256) (seq 0 256)).

(** A hint encoding for Omega = 96 and K = 5 that names position 5 for the
    first element and then has a decreasing switch-over point. *)
Definition bad_hint_buf : list Z := [5] ++ repeat 0 95 ++ [1; 0; 0; 0; 0].

(** A challenge encoding whose highest sign bit is set. *)
Definition bad_challenge_buf : list Z := repeat 0 39 ++ [128].

(** A stream whose 12-bit candidates are all 0, and one whose candidates
    are all 4095. *)
Definition zero_stream (input : list Z) (k : nat) : Z := 0.
Definition ones_stream (input : list Z) (k : nat) : Z := 255.

End Examples.

(** ** The noise samplers, read declaratively *)

Module NoiseSpec.

(** Bit n of a word, as 0 or 1. *)
Definition bit (t : Z) (n : nat) : Z := Z.b2z (Z.testbit t (Z.of_nat n)).

(** Coefficient j of the centered binomial sample with eta = 2 taken from
    the word t: the sum of two bits minus the sum of the next two. *)
Definition cbd2 (t : Z) (j : nat) : Z :=
  bit t (4 * j) + bit t (4 * j + 1) - (bit t (4 * j + 2) + bit t (4 * j + 3)).

(** The same with eta = 3: three bits minus the next three. *)
Definition cbd3 (t : Z) (j : nat) : Z :=
  bit t (6 * j) + bit t (6 * j + 1) + bit t (6 * j + 2) -
  (bit t (6 * j + 3) + bit t (6 * j + 4) + bit t (6 * j + 5)).

(** The masks of the two samplers, [0x5555555555555555] with one bit per
    field of two bits and [0x249249249249] with one bit per field of three. *)
Definition M2 : Z := 6148914691236517205.
Definition M3 : Z := 40210710958665.

(** The words that have bits only where the mask M has. *)
Definition sparse (M x : Z) : Prop := Z.land x M = x.

End NoiseSpec.

(** ** Increasing index lists *)

Module HintOrder.

(** The list l is strictly increasing and starts at n or above. *)
Fixpoint increasing_from (n : nat) (l : list nat) : Prop :=
  match l with
  | [] => True
  | x :: l' => (n <= x)%nat /\ increasing_from (S x) l'
  end.

End HintOrder.

(** ** Package common: pack.go, the 4-bit packer *)

Module Le16.
Import Common.

(** Modelled from the spec: the parameter file is not among the sources; a
    packed polynomial takes N * width / 8 bytes, 128 for the width 4 of
    [packLe16Generic] (N / 2 in the words of its comment). *)
Definition PolyLe16Size : nat := 128.

Definition packLe16Generic (p : list Z) (buf : list Z) : result (list Z) :=
  s <- for_range (iterations PolyLe16Size 1) 0 1 (fun i '(buf, j) =>
    pj <- idx p j ;; pj1 <- idx p (j + 1) ;;
    buf <- upd buf i (Z.lor (byte pj) (byte (shl32 pj1 4))) ;;
    Ok (buf, j + 2)%nat) (buf, O) ;;
  Ok (fst s).

(** The byte the loop writes at iteration k. *)
Definition bytesLe16 (p : list Z) (k : nat) : list Z :=
  [ Z.lor (byte (nth (2 * k + 0) p 0)) (byte (shl32 (nth (2 * k + 1) p 0) 4)) ].

End Le16.

(** * Properties *)

Module FieldFacts.
Import Field.

Ltac zeq := Z.div_mod_to_equations; lia.

Lemma reduceLe2Q_value (x : Z) :
  0 <= x < 2 ^ 32 -> reduceLe2Q x = x - (x / 2 ^ 23) * Q.
Proof.
  intros Hx. unfold reduceLe2Q, u32, Q.
  rewrite Z.shiftr_div_pow2, Z.shiftl_mul_pow2 by lia.
  change 8388607 with (Z.ones 23). rewrite Z.land_ones by lia.
  change (2 ^ 23) with 8388608. change (2 ^ 13) with 8192.
  change (2 ^ 32) with 4294967296 in *.
  zeq.
Qed.

Lemma reduceLe2Q_bound (x : Z) :
  0 <= x < 2 ^ 32 -> 0 <= reduceLe2Q x < 2 * Q.
Proof.
  intros Hx. rewrite reduceLe2Q_value by assumption. unfold Q.
  change (2 ^ 23) with 8388608. change (2 ^ 32) with 4294967296 in *. zeq.
Qed.

Lemma reduceLe2Q_cong (x : Z) :
  0 <= x < 2 ^ 32 -> reduceLe2Q x mod Q = x mod Q.
Proof.
  intros Hx. rewrite reduceLe2Q_value by assumption.
  unfold Z.sub. rewrite <- Z.mul_opp_l. apply Z_mod_plus_full.
Qed.

Lemma sign_mask_value (x : Z) :
  0 <= x < 2 ^ 32 -> sign_mask x = if x <? 2 ^ 31 then 0 else 2 ^ 32 - 1.
Proof.
  intros Hx. unfold sign_mask, int32, u32. rewrite Z.shiftr_div_pow2 by lia.
  change (2 ^ 31) with 2147483648. change (2 ^ 32) with 4294967296 in *.
  destruct (Z.ltb_spec x 2147483648); zeq.
Qed.

Lemma le2qModQ_value (x : Z) :
  0 <= x < 2 * Q -> le2qModQ x = if x <? Q then x else x - Q.
Proof.
  intros Hx. unfold le2qModQ.
  assert (Hu : 0 <= u32 (x - Q) < 2 ^ 32) by (apply Z.mod_pos_bound; lia).
  rewrite sign_mask_value by assumption.
  unfold u32, Q in *. change (2 ^ 31) with 2147483648.
  change (2 ^ 32) with 4294967296 in *.
  destruct (Z.ltb_spec x 8380417).
  - assert (E : (x - 8380417) mod 4294967296 = x - 8380417 + 4294967296) by zeq.
    rewrite E.
    destruct (Z.ltb_spec (x - 8380417 + 4294967296) 2147483648); [lia|].
    change (4294967296 - 1) with (Z.ones 32). rewrite Z.land_comm, Z.land_ones by lia.
    zeq.
  - assert (E : (x - 8380417) mod 4294967296 = x - 8380417) by zeq.
    rewrite E.
    destruct (Z.ltb_spec (x - 8380417) 2147483648); [|lia].
    rewrite Z.land_0_l. zeq.
Qed.

Lemma modQ_value (x : Z) : 0 <= x < 2 ^ 32 -> modQ x = x mod Q.
Proof.
  intros Hx. unfold modQ.
  pose proof (reduceLe2Q_bound x Hx) as Hb.
  pose proof (reduceLe2Q_cong x Hx) as Hc.
  rewrite le2qModQ_value by assumption.
  rewrite <- Hc. unfold Q in *.
  destruct (Z.ltb_spec (reduceLe2Q x) 8380417).
  - symmetry. apply Z.mod_small. lia.
  - apply Z.mod_unique with (q := 1); lia.
Qed.

(** C6. For every 32-bit x, [modQ x] is below Q and congruent to x modulo Q,
    and [reduceLe2Q x] is below 2Q and congruent to x modulo Q. *)
Theorem reduction_correct (x : Z) :
  0 <= x < 2 ^ 32 ->
  (modQ x < Q /\ modQ x mod Q = x mod Q) /\
  (reduceLe2Q x < 2 * Q /\ reduceLe2Q x mod Q = x mod Q).
Proof.
  intros Hx. split; split.
  - rewrite modQ_value by assumption. apply Z.mod_pos_bound. reflexivity.
  - rewrite modQ_value by assumption. apply Z.mod_mod. discriminate.
  - apply reduceLe2Q_bound; assumption.
  - apply reduceLe2Q_cong; assumption.
Qed.

Lemma reduction_correct_witness :
  0 <= 4294967295 < 2 ^ 32 /\
  (modQ 4294967295 < Q /\ modQ 4294967295 mod Q = 4294967295 mod Q) /\
  (reduceLe2Q 4294967295 < 2 * Q /\
   reduceLe2Q 4294967295 mod Q = 4294967295 mod Q).
Proof.
  assert (H : 0 <= 4294967295 < 2 ^ 32) by (vm_compute; split; [discriminate | reflexivity]).
  split; [exact H | apply (reduction_correct 4294967295 H)].
Defined.

(** *** power2round *)

Lemma cmod_range (a m : Z) : 0 < m -> - m < 2 * cmod a m <= m.
Proof.
  intros Hm. unfold cmod. pose proof (Z.mod_pos_bound a m Hm) as Hr.
  generalize dependent (a mod m). intros r Hr.
  destruct (Z.leb_spec r (m / 2)); zeq.
Qed.

Lemma cmod_cong (a m : Z) : 0 < m -> (a - cmod a m) mod m = 0.
Proof.
  intros Hm. unfold cmod. destruct (Z.leb_spec (a mod m) (m / 2)).
  - rewrite Zminus_mod_idemp_r, Z.sub_diag. apply Z.mod_0_l. lia.
  - replace (a - (a mod m - m)) with (a - a mod m + 1 * m) by lia.
    rewrite Z_mod_plus_full, Zminus_mod_idemp_r, Z.sub_diag. apply Z.mod_0_l. lia.
Qed.

(** C7. For every a in [0,Q), [power2round a] is (a0 + Q, a1) with the
    centred a0 in (-2^(D-1), 2^(D-1)], a1 at most (Q-1)/2^D, and
    a0 + 2^D * a1 congruent to a modulo Q (indeed equal to a). *)
Theorem power2round_correct (a : Z) :
  0 <= a < Q ->
  let '(a0plusQ, a1) := power2round a in
  let a0 := a0plusQ - Q in
  - 2 ^ (D - 1) < a0 <= 2 ^ (D - 1) /\
  0 <= a1 <= (Q - 1) / 2 ^ D /\
  (a0 + 2 ^ D * a1) mod Q = a mod Q /\
  a0 + 2 ^ D * a1 = a.
Proof.
  intros Ha. unfold power2round. cbv zeta.
  pose proof (cmod_range a (2 ^ D) eq_refl) as Hr.
  pose proof (cmod_cong a (2 ^ D) eq_refl) as Hc.
  rewrite Z.shiftr_div_pow2 by discriminate.
  set (a0 := cmod a (2 ^ D)) in *.
  unfold u32, Q, D in *.
  change (2 ^ 14) with 16384 in *. change (2 ^ (14 - 1)) with 8192.
  change (2 ^ 32) with 4294967296.
  change ((8380417 - 1) / 16384) with 511.
  assert (E : (8380417 + a0) mod 4294967296 = 8380417 + a0) by zeq.
  rewrite E.
  assert (Hd : a0 + 16384 * ((a - a0) / 16384) = a) by zeq.
  replace (8380417 + a0 - 8380417) with a0 by lia.
  rewrite Hd. repeat split; try lia; zeq.
Qed.

Lemma power2round_correct_witness :
  0 <= 8380416 < Q /\
  let '(a0plusQ, a1) := power2round 8380416 in
  let a0 := a0plusQ - Q in
  - 2 ^ (D - 1) < a0 <= 2 ^ (D - 1) /\
  0 <= a1 <= (Q - 1) / 2 ^ D /\
  (a0 + 2 ^ D * a1) mod Q = 8380416 mod Q /\
  a0 + 2 ^ D * a1 = 8380416.
Proof.
  assert (H : 0 <= 8380416 < Q) by (vm_compute; split; [discriminate | reflexivity]).
  split; [exact H | apply (power2round_correct 8380416 H)].
Defined.

(** *** decompose *)

Lemma decomposed_spec (c h : Z) :
  decomposed c h = true <->
  0 <= h < 16 /\ (- 261888 < c <= 261888 \/ (h = 0 /\ c = - 261888)).
Proof.
  unfold decomposed. change ((Q - 1) / Alpha) with 16.
  change (Alpha / 2) with 261888.
  rewrite !andb_true_iff, orb_true_iff, !andb_true_iff.
  rewrite Z.leb_le, !Z.ltb_lt, Z.leb_le, !Z.eqb_eq. tauto.
Qed.

Lemma decompose_spec (a : Z) :
  0 <= a < 2 ^ 23 ->
  exists c h, decompose a = (Q + c, h) /\ decomposed c h = true /\
              (c + Alpha * h = a \/ c + Alpha * h = a - Q).
Proof.
  intros Ha. unfold decompose, decompose_naive.
  pose proof (cmod_range a Alpha eq_refl) as Hr.
  pose proof (cmod_cong a Alpha eq_refl) as Hc.
  set (c0 := cmod a Alpha) in *.
  change ((Q - 1) / Alpha) with 16.
  unfold Alpha, Gamma2, Q, u32 in *. change (2 * 261888) with 523776 in *.
  change (2 ^ 23) with 8388608 in *. change (2 ^ 32) with 4294967296.
  assert (Hd : 523776 * ((a - c0) / 523776) = a - c0) by zeq.
  assert (Hn : 0 <= (a - c0) / 523776 <= 16) by zeq.
  destruct (Z.eqb_spec ((a - c0) / 523776) 16) as [E|E].
  - exists (c0 - 1), 0. split; [|split].
    + f_equal. zeq.
    + apply decomposed_spec. lia.
    + right. lia.
  - exists c0, ((a - c0) / 523776). split; [|split].
    + f_equal. zeq.
    + apply decomposed_spec. lia.
    + left. lia.
Qed.

Lemma decomposed_unique (c h c' h' : Z) :
  decomposed c h = true -> decomposed c' h' = true ->
  (c + Alpha * h - (c' + Alpha * h')) mod Q = 0 ->
  c = c' /\ h = h'.
Proof.
  rewrite !decomposed_spec. unfold Alpha, Gamma2, Q.
  intros H1 H2 H3.
  assert (E : c + 2 * 261888 * h - (c' + 2 * 261888 * h') = 0) by zeq.
  lia.
Qed.

(** C8. For every a in [0,Q), [decompose a] is (a0 + Q, a1) with
    a0 + Alpha * a1 congruent to a modulo Q; in the generic case the pair is
    the naive one and a0 lies in (-Alpha/2, Alpha/2]; exactly when the naive
    high part is (Q-1)/Alpha the high part is 0 and the low part is the naive
    one minus 1; a1 is below (Q-1)/Alpha, and the decomposition is the only
    pair of that range congruent to a, so distinct residues decompose
    differently. *)
Theorem decompose_correct (a : Z) :
  0 <= a < Q ->
  let '(n0, n1) := decompose_naive a in
  let '(a0plusQ, a1) := decompose a in
  let a0 := a0plusQ - Q in
  (a0 + Alpha * a1) mod Q = a mod Q /\
  0 <= a1 < (Q - 1) / Alpha /\
  (n1 <> (Q - 1) / Alpha -> a1 = n1 /\ a0 = n0 /\ - (Alpha / 2) < a0 <= Alpha / 2) /\
  (n1 = (Q - 1) / Alpha -> a1 = 0 /\ a0 = n0 - 1 /\ - (Alpha / 2) <= a0 < 0) /\
  (forall c h, decomposed c h = true -> (c + Alpha * h) mod Q = a mod Q ->
               c = a0 /\ h = a1) /\
  (forall b, 0 <= b < Q -> decompose b = decompose a -> b = a).
Proof.
  intros Ha.
  assert (Ha' : 0 <= a < 2 ^ 23) by (unfold Q in Ha; change (2 ^ 23) with 8388608; lia).
  destruct (decompose_spec a Ha') as (c & h & Hdec & Hv & Hsum).
  assert (Hcong : forall x y, (x - y) mod Q = 0 <-> x mod Q = y mod Q).
  { intros x y. unfold Q. split; intros; zeq. }
  assert (Hsum' : (c + Alpha * h - a) mod Q = 0).
  { destruct Hsum as [-> | ->].
    - rewrite Z.sub_diag. reflexivity.
    - replace (a - Q - a) with (- 1 * Q) by lia. apply Z_mod_mult. }
  assert (Huniq : forall c' h', decomposed c' h' = true ->
            (c' + Alpha * h') mod Q = a mod Q -> c' = c /\ h' = h).
  { intros c' h' Hv' Hc'. apply decomposed_unique; try assumption.
    apply Hcong. rewrite Hc'. symmetry. apply Hcong. assumption. }
  pose proof Hdec as Hdec'. unfold decompose in Hdec'.
  destruct (decompose_naive a) as [n0 n1] eqn:En. rewrite Hdec.
  replace (Q + c - Q) with c by lia. cbv zeta.
  assert (Hn0 : - Alpha < 2 * n0 <= Alpha).
  { unfold decompose_naive in En. inversion En. apply cmod_range. reflexivity. }
  assert (Hn1 : 523776 * n1 = a - n0).
  { unfold decompose_naive in En. inversion En.
    pose proof (cmod_cong a Alpha eq_refl) as Hc. unfold Alpha, Gamma2 in *.
    change (2 * 261888) with 523776 in *. zeq. }
  apply decomposed_spec in Hv.
  change ((Q - 1) / Alpha) with 16 in *. change (Alpha / 2) with 261888.
  unfold Alpha, Gamma2 in Hn0.
  split; [apply Hcong; assumption|].
  split; [lia|].
  assert (Hu : forall x, - 2 ^ 23 < x < 2 ^ 23 -> u32 (Q + x) = Q + c -> x = c).
  { intros x Hx. unfold u32, Q. change (2 ^ 23) with 8388608 in Hx.
    change (2 ^ 32) with 4294967296. intros. zeq. }
  split; [|split; [|split]].
  - intros Hne. destruct (Z.eqb_spec n1 16); [contradiction|].
    inversion Hdec' as [[H0 H1]]. apply Hu in H0; [|change (2 ^ 23) with 8388608; lia].
    subst. lia.
  - intros He. destruct (Z.eqb_spec n1 16); [|contradiction].
    inversion Hdec' as [[H0 H1]].
    replace (Q + n0 - 1) with (Q + (n0 - 1)) in H0 by lia.
    apply Hu in H0; [|change (2 ^ 23) with 8388608; lia].
    unfold Alpha, Gamma2, Q in *. lia.
  - exact Huniq.
  - intros b Hb Hbe.
    assert (Hb' : 0 <= b < 2 ^ 23) by (unfold Q in Hb; change (2 ^ 23) with 8388608; lia).
    destruct (decompose_spec b Hb') as (cb & hb & Hdecb & _ & Hsumb).
    rewrite Hdecb in Hbe. inversion Hbe.
    assert (cb = c) by lia. subst. lia.
Qed.

Lemma decompose_correct_witness :
  0 <= 8380416 < Q /\
  let '(n0, n1) := decompose_naive 8380416 in
  let '(a0plusQ, a1) := decompose 8380416 in
  let a0 := a0plusQ - Q in
  (a0 + Alpha * a1) mod Q = 8380416 mod Q /\
  0 <= a1 < (Q - 1) / Alpha /\
  (n1 <> (Q - 1) / Alpha -> a1 = n1 /\ a0 = n0 /\ - (Alpha / 2) < a0 <= Alpha / 2) /\
  (n1 = (Q - 1) / Alpha -> a1 = 0 /\ a0 = n0 - 1 /\ - (Alpha / 2) <= a0 < 0) /\
  (forall c h, decomposed c h = true -> (c + Alpha * h) mod Q = 8380416 mod Q ->
               c = a0 /\ h = a1) /\
  (forall b, 0 <= b < Q -> decompose b = decompose 8380416 -> b = 8380416).
Proof.
  assert (H : 0 <= 8380416 < Q) by (vm_compute; split; [discriminate | reflexivity]).
  split; [exact H | apply (decompose_correct 8380416 H)].
Defined.

(** *** makeHint and useHint *)

Lemma reduceLe2Q_small (x : Z) :
  0 <= x < 2 * Q ->
  0 <= reduceLe2Q x < 2 ^ 23 /\ (reduceLe2Q x = x \/ reduceLe2Q x = x - Q).
Proof.
  intros Hx. unfold Q in Hx.
  rewrite reduceLe2Q_value by (change (2 ^ 32) with 4294967296; lia).
  unfold Q. change (2 ^ 23) with 8388608. zeq.
Qed.

Lemma makeHint_value (z0 r1 c' h' : Z) :
  0 <= z0 < 2 ^ 24 -> 0 <= r1 < 16 ->
  decomposed c' h' = true ->
  (c' + Alpha * h' - (Alpha * r1 + z0)) mod Q = 0 ->
  makeHint z0 r1 = if h' =? r1 then 0 else 1.
Proof.
  intros Hz Hr Hv Hc. unfold makeHint.
  change (2 ^ 24) with 16777216 in Hz.
  assert (Hu : u32 (Alpha * r1 + z0) = Alpha * r1 + z0).
  { unfold u32, Alpha, Gamma2. change (2 ^ 32) with 4294967296. zeq. }
  rewrite Hu, modQ_value
    by (unfold Alpha, Gamma2; change (2 ^ 32) with 4294967296; lia).
  destruct (decompose_spec ((Alpha * r1 + z0) mod Q)) as (c & h & Hd & Hvd & Hs).
  { unfold Q. change (2 ^ 23) with 8388608. zeq. }
  rewrite Hd.
  destruct (decomposed_unique c h c' h' Hvd Hv) as [_ ->]; [|reflexivity].
  unfold Q, Alpha, Gamma2 in *. zeq.
Qed.

(** C1. For every w in [0,Q) and every f with |f| <= Gamma2 as a residue,
    the hint made from the perturbed low part of w and the high part of w
    lets [useHint] recover the high part of w from w - f; the subtractions
    are the ones of the test, [w + Q - f] and [w0 + Q - f] in uint32. *)
Theorem hint_roundtrip (w f : Z) :
  0 <= w < Q ->
  (0 <= f <= Gamma2 \/ Q - Gamma2 <= f < Q) ->
  let '(w0, w1) := decompose w in
  useHint (reduceLe2Q (u32 (u32 (w + Q) - f)))
          (makeHint (reduceLe2Q (u32 (u32 (w0 + Q) - f))) w1) = w1.
Proof.
  intros Hw Hf.
  destruct (decompose_spec w) as (c & h & Hd & Hv & Hs).
  { unfold Q in Hw. change (2 ^ 23) with 8388608. lia. }
  rewrite Hd.
  pose proof Hv as Hv'. apply decomposed_spec in Hv'.
  assert (E1 : u32 (u32 (w + Q) - f) = w + Q - f).
  { unfold u32, Q, Gamma2 in *. change (2 ^ 32) with 4294967296. zeq. }
  assert (E2 : u32 (u32 (Q + c + Q) - f) = Q + c + Q - f).
  { unfold u32, Q, Gamma2 in *. change (2 ^ 32) with 4294967296. zeq. }
  rewrite E1, E2.
  destruct (reduceLe2Q_small (w + Q - f)) as [Hrp Erp].
  { unfold Q, Gamma2 in *. lia. }
  assert (Hx : 0 <= Q + c + Q - f < 2 ^ 32).
  { unfold Q, Gamma2 in *. change (2 ^ 32) with 4294967296. lia. }
  pose proof (reduceLe2Q_bound _ Hx) as Hz.
  pose proof (reduceLe2Q_value _ Hx) as Ez.
  set (rp := reduceLe2Q (w + Q - f)) in *.
  set (z0 := reduceLe2Q (Q + c + Q - f)) in *.
  destruct (decompose_spec rp Hrp) as (c' & h' & Hd' & Hvd' & Hs').
  rewrite (makeHint_value z0 h c' h'); try assumption; try lia.
  - unfold useHint. rewrite Hd'. change ((Q - 1) / Alpha) with 16.
    apply decomposed_spec in Hvd'.
    destruct (Z.eqb_spec h' h) as [Eh|Eh]; [exact Eh|].
    change (1 =? 0) with false. cbv iota.
    unfold Q, Alpha, Gamma2 in *. change (2 ^ 23) with 8388608 in *.
    destruct (Z.ltb_spec 8380417 (8380417 + c')); zeq.
  - unfold Q in Hz. change (2 ^ 24) with 16777216. lia.
  - rewrite Ez. generalize ((Q + c + Q - f) / 2 ^ 23). intros q.
    unfold Q, Alpha, Gamma2 in *. zeq.
Qed.

Lemma hint_roundtrip_witness :
  0 <= 261889 < Q /\ (0 <= 8118529 <= Gamma2 \/ Q - Gamma2 <= 8118529 < Q) /\
  let '(w0, w1) := decompose 261889 in
  useHint (reduceLe2Q (u32 (u32 (261889 + Q) - 8118529)))
          (makeHint (reduceLe2Q (u32 (u32 (w0 + Q) - 8118529))) w1) = w1.
Proof.
  assert (H1 : 0 <= 261889 < Q) by (vm_compute; split; [discriminate | reflexivity]).
  assert (H2 : 0 <= 8118529 <= Gamma2 \/ Q - Gamma2 <= 8118529 < Q)
    by (right; vm_compute; split; [discriminate | reflexivity]).
  split; [exact H1 | split; [exact H2 | apply (hint_roundtrip 261889 8118529 H1 H2)]].
Defined.

End FieldFacts.


(** ** Slices and block-wise loops *)

Module SliceFacts.

Lemma idx_app_r {A : Type} (pre l : list A) (i : nat) :
  idx (pre ++ l) (length pre + i) = idx l i.
Proof. induction pre as [|x pre IH]; [reflexivity | exact IH]. Qed.

Lemma upd_app_r {A : Type} (pre l : list A) (i : nat) (v : A) :
  upd (pre ++ l) (length pre + i) v = (l' <- upd l i v ;; Ok (pre ++ l')).
Proof.
  induction pre as [|x pre IH]; cbn [app length Nat.add upd].
  - destruct (upd l i v); reflexivity.
  - rewrite IH. destruct (upd l i v); reflexivity.
Qed.

Lemma upd_app_r0 {A : Type} (pre l : list A) (v : A) :
  upd (pre ++ l) (length pre) v = (l' <- upd l 0 v ;; Ok (pre ++ l')).
Proof. rewrite <- (Nat.add_0_r (length pre)) at 1. apply upd_app_r. Qed.

Lemma idx_nth (l : list Z) (i : nat) :
  (i < length l)%nat -> idx l i = Ok (nth i l 0).
Proof.
  revert i. induction l as [|x l IH]; intros i Hi; cbn [length] in Hi; [lia|].
  destruct i as [|i]; [reflexivity|]. cbn [idx nth]. apply IH. lia.
Qed.

Lemma length_flat_map_blocks (blk : nat -> list Z) (a : nat) (l : list nat) :
  (forall k, length (blk k) = a) -> length (flat_map blk l) = (a * length l)%nat.
Proof.
  intros Hb. induction l as [|k l IH]; cbn [flat_map length]; [lia|].
  rewrite length_app, Hb, IH. lia.
Qed.

Lemma nth_flat_map_blocks (blk : nat -> list Z) (a k0 n k c : nat) (rest : list Z) :
  (forall k, length (blk k) = a) -> (k < n)%nat -> (c < a)%nat ->
  nth (a * k + c) (flat_map blk (seq k0 n) ++ rest) 0 = nth c (blk (k0 + k)%nat) 0.
Proof.
  intros Hb. revert k0 k. induction n as [|n IH]; intros k0 k Hk Hc; [lia|].
  cbn [seq flat_map]. rewrite <- app_assoc.
  destruct k as [|k].
  - rewrite Nat.mul_0_r, Nat.add_0_l, Nat.add_0_r.
    apply app_nth1. rewrite Hb. exact Hc.
  - rewrite app_nth2 by (rewrite Hb; lia). rewrite Hb.
    replace (a * S k + c - a)%nat with (a * k + c)%nat by lia.
    rewrite IH by lia. f_equal. f_equal. lia.
Qed.

Lemma nth_flat_map_blocks0 (blk : nat -> list Z) (a k0 n k : nat) (rest : list Z) :
  (forall k, length (blk k) = a) -> (k < n)%nat -> (0 < a)%nat ->
  nth (a * k) (flat_map blk (seq k0 n) ++ rest) 0 = nth 0 (blk (k0 + k)%nat) 0.
Proof.
  intros Hb Hk Ha. rewrite <- (Nat.add_0_r (a * k)).
  apply nth_flat_map_blocks; assumption.
Qed.

(** A loop that rewrites its destination block by block. *)
Lemma for_range_blocks (si sj a : nat) (blk : nat -> list Z)
    (body : nat -> list Z * nat -> result (list Z * nat)) (n : nat) :
  (forall k, length (blk k) = a) ->
  (forall k pre old post, (k < n)%nat -> length pre = (a * k)%nat -> length old = a ->
     body (si * k)%nat (pre ++ old ++ post, (sj * k)%nat) =
     Ok (pre ++ blk k ++ post, (sj * (k + 1))%nat)) ->
  forall dst, (a * n <= length dst)%nat ->
  for_range n 0 si body (dst, O) =
  Ok (flat_map blk (seq 0 n) ++ drop (a * n) dst, (sj * n)%nat).
Proof.
  intros Hb Hbody dst Hlen.
  assert (G : forall m k0 pre rest, (k0 + m <= n)%nat -> length pre = (a * k0)%nat ->
             (a * m <= length rest)%nat ->
             for_range m (si * k0) si body (pre ++ rest, (sj * k0)%nat) =
             Ok (pre ++ flat_map blk (seq k0 m) ++ drop (a * m) rest, (sj * (k0 + m))%nat)).
  { induction m as [|m IH]; intros k0 pre rest Hk Hpre Hrest.
    - cbn [for_range seq flat_map app]. rewrite Nat.mul_0_r, drop_0, Nat.add_0_r. reflexivity.
    - cbn [for_range].
      rewrite <- (take_drop a rest) at 1.
      rewrite Hbody; [| lia | exact Hpre | rewrite length_take; lia].
      cbn [bind].
      replace (si * k0 + si)%nat with (si * (k0 + 1))%nat by lia.
      rewrite app_assoc.
      rewrite IH; [| lia | rewrite length_app, Hb; lia | rewrite length_drop; lia].
      f_equal. f_equal.
      + cbn [seq flat_map]. rewrite <- !app_assoc. f_equal. f_equal.
        replace (k0 + 1)%nat with (S k0) by lia. f_equal.
        rewrite drop_drop. f_equal. lia.
      + lia. }
  specialize (G n O [] dst).
  rewrite !Nat.mul_0_r in G. cbn [app Nat.add] in G. apply G; [lia | reflexivity | exact Hlen].
Qed.

Lemma slice_0 (b : nat) (p : list Z) :
  (b <= length p)%nat -> slice b p 0 = take b p.
Proof.
  intros Hb. unfold slice. rewrite Nat.mul_0_r. cbn [Nat.add].
  revert p Hb. induction b as [|b IH]; intros p Hb; [reflexivity|].
  destruct p as [|x p]; cbn [length] in Hb; [lia|].
  cbn [seq map nth take]. f_equal.
  rewrite <- seq_shift, map_map. cbn [nth]. apply IH. lia.
Qed.

Lemma slice_S (b : nat) (p : list Z) (k : nat) :
  slice b p (S k) = slice b (drop b p) k.
Proof.
  unfold slice. apply map_ext. intros c.
  rewrite <- (take_drop b p) at 1.
  destruct (Nat.le_gt_cases b (length p)) as [Hb|Hb].
  - rewrite app_nth2 by (rewrite length_take; lia).
    rewrite length_take. f_equal. lia.
  - rewrite !(drop_ge p) by lia. rewrite app_nil_r.
    rewrite take_ge by lia.
    rewrite nth_overflow by lia. destruct (b * k + c)%nat; reflexivity.
Qed.

Lemma flat_map_slice (b n : nat) (p : list Z) :
  length p = (b * n)%nat -> flat_map (slice b p) (seq 0 n) = p.
Proof.
  revert p. induction n as [|n IH]; intros p Hp.
  - destruct p; [reflexivity | cbn [length] in Hp; lia].
  - cbn [seq flat_map]. rewrite <- seq_shift, flat_map_concat_map, map_map.
    rewrite (map_ext _ (slice b (drop b p)) (slice_S b p)).
    rewrite <- flat_map_concat_map, IH by (rewrite length_drop; lia).
    rewrite slice_0 by lia. apply take_drop.
Qed.

Lemma coeffs_in_nth (lo hi : Z) (p : list Z) (i : nat) :
  coeffs_in lo hi p = true -> (i < length p)%nat -> lo <= nth i p 0 < hi.
Proof.
  unfold coeffs_in. rewrite forallb_forall. intros H Hi.
  specialize (H (nth i p 0) (nth_In p 0 Hi)).
  apply andb_true_iff in H. destruct H as [H1 H2].
  apply Z.leb_le in H1. apply Z.ltb_lt in H2. lia.
Qed.

End SliceFacts.


(** ** The codecs of package common *)

Module CommonFacts.
Import Common SliceFacts.

Ltac bound_to_mod :=
  repeat match goal with
  | H : 0 <= ?c < 2 ^ ?k |- _ =>
      rewrite <- (Z.mod_small c (2 ^ k) H); clear H
  end.

Ltac split_ltbs :=
  repeat match goal with
  | |- context [ ?a <? ?b ] =>
      destruct (Z.ltb_spec a b); try (exfalso; lia); cbn [andb orb negb]
  end.

(** Equalities of bit-level expressions, bit by bit; the case analysis on
    the bit index drops the impossible cases as it goes. *)
Ltac bits :=
  bound_to_mod; unfold byte, shl8, shl32, shl64, shr, u8, u32, u64;
  eapply Z.bits_inj'; intros ?i ?Hi; repeat (progress Z.rewrite_bitwise);
  Z.discover_equal_testbit_indices;
  split_ltbs;
  repeat match goal with
  | |- context [Z.testbit ?x ?l] => rewrite (Z.testbit_neg_r x l) by lia
  end;
  try btauto.

(** Runs the straight-line statements of a loop body on a destination
    [pre ++ old ++ post] whose block [old] is spelled out. *)
Ltac run_body Hpre :=
  cbv beta iota;
  repeat (first
    [ rewrite idx_nth by lia
    | rewrite <- Hpre; rewrite upd_app_r0
    | rewrite <- Hpre; rewrite upd_app_r
    | rewrite upd_app_r0
    | rewrite upd_app_r
    | progress cbn [upd bind app] ]).

Lemma PackT1_blocks (p : Poly) (buf : list Z) :
  length p = N -> (PolyT1Size <= length buf)%nat ->
  PackT1 p buf = Ok (flat_map (bytesT1 p) (seq 0 32) ++ drop PolyT1Size buf).
Proof.
  intros Hp Hbuf. unfold PackT1. change (iterations PolyT1Size 9) with 32%nat.
  rewrite (for_range_blocks 9 8 9 (bytesT1 p)); [reflexivity | reflexivity | | exact Hbuf].
  intros k pre old post Hk Hpre Hold.
  do 10 (destruct old as [|? old]; try discriminate Hold).
  unfold N in Hp. run_body Hpre.
  unfold bytesT1. rewrite !Nat.add_0_r. do 2 f_equal. lia.
Qed.

Lemma UnpackT1_blocks (p buf : list Z) :
  length p = N -> (PolyT1Size <= length buf)%nat ->
  UnpackT1 p buf = Ok (flat_map (coeffsT1 buf) (seq 0 32)).
Proof.
  intros Hp Hbuf. unfold UnpackT1. change (iterations PolyT1Size 9) with 32%nat.
  rewrite (for_range_blocks 9 8 8 (coeffsT1 buf)); [| reflexivity | | rewrite Hp; reflexivity].
  { cbn [bind fst]. rewrite drop_ge by (rewrite Hp; reflexivity).
    rewrite app_nil_r. reflexivity. }
  intros k pre old post Hk Hpre Hold.
  do 9 (destruct old as [|? old]; try discriminate Hold).
  unfold PolyT1Size in Hbuf. run_body Hpre.
  unfold coeffsT1. rewrite !Nat.add_0_r. do 2 f_equal. lia.
Qed.

Lemma T1_block (p : Poly) (rest : list Z) (k : nat) :
  length p = N -> coeffs_in 0 512 p = true -> (k < 32)%nat ->
  coeffsT1 (flat_map (bytesT1 p) (seq 0 32) ++ rest) k = slice 8 p k.
Proof.
  intros Hp Hr Hk. unfold coeffsT1.
  rewrite !(nth_flat_map_blocks (bytesT1 p) 9 0 32 k) by (reflexivity || lia).
  cbn [Nat.add bytesT1 nth slice seq map].
  assert (R : forall c, (c < 8)%nat -> 0 <= nth (8 * k + c) p 0 < 2 ^ 9).
  { intros c Hc. apply (coeffs_in_nth 0 512); [exact Hr | unfold N in Hp; lia]. }
  pose proof (R 0%nat ltac:(lia)) as R0. pose proof (R 1%nat ltac:(lia)) as R1.
  pose proof (R 2%nat ltac:(lia)) as R2. pose proof (R 3%nat ltac:(lia)) as R3.
  pose proof (R 4%nat ltac:(lia)) as R4. pose proof (R 5%nat ltac:(lia)) as R5.
  pose proof (R 6%nat ltac:(lia)) as R6. pose proof (R 7%nat ltac:(lia)) as R7.
  clear R. change 511 with (Z.ones 9).
  repeat (apply (f_equal2 (@cons Z)); [clear - R0 R1 R2 R3 R4 R5 R6 R7; bits |]).
  reflexivity.
Qed.

Lemma T1_roundtrip (p p0 buf : list Z) :
  length p = N -> length p0 = N -> (PolyT1Size <= length buf)%nat ->
  coeffs_in 0 512 p = true ->
  exists buf', PackT1 p buf = Ok buf' /\ length buf' = length buf /\
               UnpackT1 p0 buf' = Ok p.
Proof.
  intros Hp Hp0 Hbuf Hr. rewrite (PackT1_blocks p buf Hp Hbuf).
  eexists. split; [reflexivity|].
  assert (Hlen : length (flat_map (bytesT1 p) (seq 0 32) ++ drop PolyT1Size buf)
                 = length buf).
  { rewrite length_app, (length_flat_map_blocks _ 9), length_drop, length_seq by reflexivity.
    unfold PolyT1Size in *. lia. }
  split; [exact Hlen|].
  rewrite UnpackT1_blocks by (rewrite ?Hlen; assumption).
  f_equal. rewrite <- (flat_map_slice 8 32 p Hp) at 2.
  rewrite !flat_map_concat_map. f_equal.
  apply map_ext_in. intros k Hk. apply in_seq in Hk.
  apply T1_block; [assumption | assumption | lia].
Qed.

(** *** T0 *)

Lemma PackT0_blocks (p : Poly) (buf : list Z) :
  length p = N -> (PolyT0Size <= length buf)%nat ->
  PackT0 p buf = Ok (flat_map (bytesT0 p) (seq 0 64) ++ drop PolyT0Size buf).
Proof.
  intros Hp Hbuf. unfold PackT0. change (iterations PolyT0Size 7) with 64%nat.
  rewrite (for_range_blocks 7 4 7 (bytesT0 p)); [reflexivity | reflexivity | | exact Hbuf].
  intros k pre old post Hk Hpre Hold.
  do 8 (destruct old as [|? old]; try discriminate Hold).
  unfold N in Hp. run_body Hpre.
  unfold bytesT0. rewrite !Nat.add_0_r. do 2 f_equal. lia.
Qed.

Lemma UnpackT0_blocks (p buf : list Z) :
  length p = N -> (PolyT0Size <= length buf)%nat ->
  UnpackT0 p buf = Ok (flat_map (coeffsT0 buf) (seq 0 64)).
Proof.
  intros Hp Hbuf. unfold UnpackT0. change (iterations PolyT0Size 7) with 64%nat.
  rewrite (for_range_blocks 7 4 4 (coeffsT0 buf)); [| reflexivity | | rewrite Hp; reflexivity].
  { cbn [bind fst]. rewrite drop_ge by (rewrite Hp; reflexivity).
    rewrite app_nil_r. reflexivity. }
  intros k pre old post Hk Hpre Hold.
  do 5 (destruct old as [|? old]; try discriminate Hold).
  unfold PolyT0Size in Hbuf. run_body Hpre.
  unfold coeffsT0. rewrite !Nat.add_0_r. do 2 f_equal. lia.
Qed.

Lemma T0_shift (x : Z) :
  Q - 2 ^ (D - 1) + 1 <= x < Q + 2 ^ (D - 1) + 1 ->
  0 <= u32 (Q + Z.shiftl 1 (D - 1) - x) < 2 ^ 14 /\
  u32 (Q + Z.shiftl 1 (D - 1) - u32 (Q + Z.shiftl 1 (D - 1) - x)) = x.
Proof.
  unfold Q, D, Field.Q, Field.D, u32.
  change (Z.shiftl 1 (14 - 1)) with 8192. change (2 ^ (14 - 1)) with 8192.
  change (2 ^ 14) with 16384. change (2 ^ 32) with 4294967296.
  intros Hx. Z.div_mod_to_equations. lia.
Qed.

Lemma T0_block (p : Poly) (rest : list Z) (k : nat) :
  length p = N -> in_T0_window p = true -> (k < 64)%nat ->
  coeffsT0 (flat_map (bytesT0 p) (seq 0 64) ++ rest) k = slice 4 p k.
Proof.
  intros Hp Hr Hk. unfold coeffsT0.
  rewrite !(nth_flat_map_blocks (bytesT0 p) 7 0 64 k) by (reflexivity || lia).
  cbn [Nat.add bytesT0 nth slice seq map].
  assert (R : forall c, (c < 4)%nat ->
            Q - 2 ^ (D - 1) + 1 <= nth (4 * k + c) p 0 < Q + 2 ^ (D - 1) + 1).
  { intros c Hc. apply coeffs_in_nth; [exact Hr | unfold N in Hp; lia]. }
  destruct (T0_shift _ (R 0%nat ltac:(lia))) as [R0 E0].
  destruct (T0_shift _ (R 1%nat ltac:(lia))) as [R1 E1].
  destruct (T0_shift _ (R 2%nat ltac:(lia))) as [R2 E2].
  destruct (T0_shift _ (R 3%nat ltac:(lia))) as [R3 E3].
  clear R.
  set (t0 := u32 (Q + Z.shiftl 1 (D - 1) - nth (4 * k + 0) p 0)) in *.
  set (t1 := u32 (Q + Z.shiftl 1 (D - 1) - nth (4 * k + 1) p 0)) in *.
  set (t2 := u32 (Q + Z.shiftl 1 (D - 1) - nth (4 * k + 2) p 0)) in *.
  set (t3 := u32 (Q + Z.shiftl 1 (D - 1) - nth (4 * k + 3) p 0)) in *.
  rewrite <- E0, <- E1, <- E2, <- E3.
  clearbody t0 t1 t2 t3. clear E0 E1 E2 E3.
  change 16383 with (Z.ones 14).
  repeat (apply (f_equal2 (@cons Z));
          [apply (f_equal (fun x => u32 (Q + Z.shiftl 1 (D - 1) - x)));
           clear - R0 R1 R2 R3; bits |]).
  reflexivity.
Qed.

Lemma T0_roundtrip (p p0 buf : list Z) :
  length p = N -> length p0 = N -> (PolyT0Size <= length buf)%nat ->
  in_T0_window p = true ->
  exists buf', PackT0 p buf = Ok buf' /\ length buf' = length buf /\
               UnpackT0 p0 buf' = Ok p.
Proof.
  intros Hp Hp0 Hbuf Hr. rewrite (PackT0_blocks p buf Hp Hbuf).
  eexists. split; [reflexivity|].
  assert (Hlen : length (flat_map (bytesT0 p) (seq 0 64) ++ drop PolyT0Size buf)
                 = length buf).
  { rewrite length_app, (length_flat_map_blocks _ 7), length_drop, length_seq by reflexivity.
    unfold PolyT0Size in *. lia. }
  split; [exact Hlen|].
  rewrite UnpackT0_blocks by (rewrite ?Hlen; assumption).
  f_equal. rewrite <- (flat_map_slice 4 64 p Hp) at 2.
  rewrite !flat_map_concat_map. f_equal.
  apply map_ext_in. intros k Hk. apply in_seq in Hk.
  apply T0_block; [assumption | assumption | lia].
Qed.

End CommonFacts.


(** ** The codecs of package mode3/internal *)

Module Mode3Facts.
Import Common Mode3 SliceFacts CommonFacts.

(** *** Eta *)

Lemma PackEta4_blocks (Eta : Z) (p : Poly) (buf : list Z) :
  length p = N -> (128 <= length buf)%nat ->
  PolyPackLeqEta Eta 4 p buf = Ok (flat_map (bytesEta4 Eta p) (seq 0 128) ++ drop 128 buf).
Proof.
  intros Hp Hbuf. unfold PolyPackLeqEta. change (4 =? 4) with true. cbv iota.
  change (iterations (PolyLeqEtaSize 4) 1) with 128%nat.
  rewrite (for_range_blocks 1 2 1 (bytesEta4 Eta p)); [reflexivity | reflexivity | | exact Hbuf].
  intros k pre old post Hk Hpre Hold.
  do 2 (destruct old as [|? old]; try discriminate Hold).
  unfold N in Hp. run_body Hpre.
  unfold bytesEta4. rewrite !Nat.add_0_r. do 2 f_equal. lia.
Qed.

Lemma UnpackEta4_blocks (Eta : Z) (p buf : list Z) :
  length p = N -> (128 <= length buf)%nat ->
  PolyUnpackLeqEta Eta 4 p buf = Ok (flat_map (coeffsEta4 Eta buf) (seq 0 128)).
Proof.
  intros Hp Hbuf. unfold PolyUnpackLeqEta. change (4 =? 4) with true. cbv iota.
  change (iterations (PolyLeqEtaSize 4) 1) with 128%nat.
  rewrite (for_range_blocks 1 2 2 (coeffsEta4 Eta buf)); [| reflexivity | | rewrite Hp; reflexivity].
  { cbn [bind fst]. rewrite drop_ge by (rewrite Hp; reflexivity).
    rewrite app_nil_r. reflexivity. }
  intros k pre old post Hk Hpre Hold.
  do 3 (destruct old as [|? old]; try discriminate Hold).
  run_body Hpre.
  unfold coeffsEta4. rewrite !Nat.add_0_r. do 2 f_equal. lia.
Qed.

Lemma PackEta3_blocks (Eta : Z) (p : Poly) (buf : list Z) :
  length p = N -> (96 <= length buf)%nat ->
  PolyPackLeqEta Eta 3 p buf = Ok (flat_map (bytesEta3 Eta p) (seq 0 32) ++ drop 96 buf).
Proof.
  intros Hp Hbuf. unfold PolyPackLeqEta. change (3 =? 4) with false.
  change (3 =? 3) with true. cbv iota.
  change (iterations (PolyLeqEtaSize 3) 3) with 32%nat.
  rewrite (for_range_blocks 3 8 3 (bytesEta3 Eta p)); [reflexivity | reflexivity | | exact Hbuf].
  intros k pre old post Hk Hpre Hold.
  do 4 (destruct old as [|? old]; try discriminate Hold).
  unfold N in Hp. run_body Hpre.
  unfold bytesEta3. rewrite !Nat.add_0_r. do 2 f_equal. lia.
Qed.

Lemma UnpackEta3_blocks (Eta : Z) (p buf : list Z) :
  length p = N -> (96 <= length buf)%nat ->
  PolyUnpackLeqEta Eta 3 p buf = Ok (flat_map (coeffsEta3 Eta buf) (seq 0 32)).
Proof.
  intros Hp Hbuf. unfold PolyUnpackLeqEta. change (3 =? 4) with false.
  change (3 =? 3) with true. cbv iota.
  change (iterations (PolyLeqEtaSize 3) 3) with 32%nat.
  rewrite (for_range_blocks 3 8 8 (coeffsEta3 Eta buf)); [| reflexivity | | rewrite Hp; reflexivity].
  { cbn [bind fst]. rewrite drop_ge by (rewrite Hp; reflexivity).
    rewrite app_nil_r. reflexivity. }
  intros k pre old post Hk Hpre Hold.
  do 9 (destruct old as [|? old]; try discriminate Hold).
  run_body Hpre.
  unfold coeffsEta3. rewrite !Nat.add_0_r. do 2 f_equal. lia.
Qed.

Lemma Eta_shift (Eta w x : Z) :
  0 <= Eta -> 2 * Eta < 2 ^ w -> 0 <= w <= 4 ->
  Q - Eta <= x < Q + Eta + 1 ->
  0 <= u32 (Q + Eta - x) < 2 ^ w /\
  u32 (Q + Eta - u32 (Q + Eta - x)) = x.
Proof.
  intros He Hw Hw4 Hx.
  assert (2 ^ w <= 2 ^ 4) by (apply Z.pow_le_mono_r; lia).
  change (2 ^ 4) with 16 in *.
  unfold Q, Field.Q, u32 in *. change (2 ^ 32) with 4294967296.
  generalize dependent (2 ^ w). intros. Z.div_mod_to_equations. lia.
Qed.

Lemma land_7 (x : Z) : Z.land x 7 = x mod 2 ^ 3.
Proof. apply (Z.land_ones x 3). discriminate. Qed.

Lemma Eta4_block (Eta : Z) (p : Poly) (rest : list Z) (k : nat) :
  0 <= Eta -> 2 * Eta < 2 ^ 4 ->
  length p = N -> coeffs_in (Q - Eta) (Q + Eta + 1) p = true -> (k < 128)%nat ->
  coeffsEta4 Eta (flat_map (bytesEta4 Eta p) (seq 0 128) ++ rest) k = slice 2 p k.
Proof.
  intros He Hw Hp Hr Hk. unfold coeffsEta4.
  rewrite !(nth_flat_map_blocks (bytesEta4 Eta p) 1 0 128 k) by (reflexivity || lia).
  cbn [Nat.add bytesEta4 nth slice seq map].
  assert (R : forall c, (c < 2)%nat ->
            Q - Eta <= nth (2 * k + c) p 0 < Q + Eta + 1).
  { intros c Hc. apply coeffs_in_nth; [exact Hr | unfold N in Hp; lia]. }
  destruct (Eta_shift Eta 4 _ He Hw ltac:(lia) (R 0%nat ltac:(lia))) as [R0 E0].
  destruct (Eta_shift Eta 4 _ He Hw ltac:(lia) (R 1%nat ltac:(lia))) as [R1 E1].
  clear R.
  set (t0 := u32 (Q + Eta - nth (2 * k + 0) p 0)) in *.
  set (t1 := u32 (Q + Eta - nth (2 * k + 1) p 0)) in *.
  rewrite <- E0, <- E1.
  clearbody t0 t1. clear E0 E1.
  change 15 with (Z.ones 4).
  repeat (apply (f_equal2 (@cons Z));
          [apply (f_equal (fun x => u32 (Q + Eta - x)));
           clear - R0 R1; bits |]).
  reflexivity.
Qed.

Lemma Eta3_block (Eta : Z) (p : Poly) (rest : list Z) (k : nat) :
  0 <= Eta -> 2 * Eta < 2 ^ 3 ->
  length p = N -> coeffs_in (Q - Eta) (Q + Eta + 1) p = true -> (k < 32)%nat ->
  coeffsEta3 Eta (flat_map (bytesEta3 Eta p) (seq 0 32) ++ rest) k = slice 8 p k.
Proof.
  intros He Hw Hp Hr Hk. unfold coeffsEta3.
  rewrite !(nth_flat_map_blocks (bytesEta3 Eta p) 3 0 32 k) by (reflexivity || lia).
  cbn [Nat.add bytesEta3 nth slice seq map].
  assert (R : forall c, (c < 8)%nat ->
            Q - Eta <= nth (8 * k + c) p 0 < Q + Eta + 1).
  { intros c Hc. apply coeffs_in_nth; [exact Hr | unfold N in Hp; lia]. }
  destruct (Eta_shift Eta 3 _ He Hw ltac:(lia) (R 0%nat ltac:(lia))) as [R0 E0].
  destruct (Eta_shift Eta 3 _ He Hw ltac:(lia) (R 1%nat ltac:(lia))) as [R1 E1].
  destruct (Eta_shift Eta 3 _ He Hw ltac:(lia) (R 2%nat ltac:(lia))) as [R2 E2].
  destruct (Eta_shift Eta 3 _ He Hw ltac:(lia) (R 3%nat ltac:(lia))) as [R3 E3].
  destruct (Eta_shift Eta 3 _ He Hw ltac:(lia) (R 4%nat ltac:(lia))) as [R4 E4].
  destruct (Eta_shift Eta 3 _ He Hw ltac:(lia) (R 5%nat ltac:(lia))) as [R5 E5].
  destruct (Eta_shift Eta 3 _ He Hw ltac:(lia) (R 6%nat ltac:(lia))) as [R6 E6].
  destruct (Eta_shift Eta 3 _ He Hw ltac:(lia) (R 7%nat ltac:(lia))) as [R7 E7].
  clear R.
  set (t0 := u32 (Q + Eta - nth (8 * k + 0) p 0)) in *.
  set (t1 := u32 (Q + Eta - nth (8 * k + 1) p 0)) in *.
  set (t2 := u32 (Q + Eta - nth (8 * k + 2) p 0)) in *.
  set (t3 := u32 (Q + Eta - nth (8 * k + 3) p 0)) in *.
  set (t4 := u32 (Q + Eta - nth (8 * k + 4) p 0)) in *.
  set (t5 := u32 (Q + Eta - nth (8 * k + 5) p 0)) in *.
  set (t6 := u32 (Q + Eta - nth (8 * k + 6) p 0)) in *.
  set (t7 := u32 (Q + Eta - nth (8 * k + 7) p 0)) in *.
  rewrite <- E0, <- E1, <- E2, <- E3, <- E4, <- E5, <- E6, <- E7.
  clearbody t0 t1 t2 t3 t4 t5 t6 t7. clear E0 E1 E2 E3 E4 E5 E6 E7.
  rewrite !land_7.
  repeat (apply (f_equal2 (@cons Z));
          [apply (f_equal (fun x => u32 (Q + Eta - x)));
           clear - R0 R1 R2 R3 R4 R5 R6 R7; bits |]).
  reflexivity.
Qed.

Lemma Eta_roundtrip (Eta DoubleEtaBits : Z) (p p0 buf : list Z) :
  DoubleEtaBits = 3 \/ DoubleEtaBits = 4 ->
  0 <= Eta -> 2 * Eta < 2 ^ DoubleEtaBits ->
  length p = N -> length p0 = N ->
  (PolyLeqEtaSize DoubleEtaBits <= length buf)%nat ->
  coeffs_in (Q - Eta) (Q + Eta + 1) p = true ->
  exists buf', PolyPackLeqEta Eta DoubleEtaBits p buf = Ok buf' /\
               length buf' = length buf /\
               PolyUnpackLeqEta Eta DoubleEtaBits p0 buf' = Ok p.
Proof.
  intros [-> | ->] He Hw Hp Hp0 Hbuf Hr.
  - change (PolyLeqEtaSize 3) with 96%nat in Hbuf.
    rewrite (PackEta3_blocks Eta p buf Hp Hbuf).
    eexists. split; [reflexivity|].
    assert (Hlen : length (flat_map (bytesEta3 Eta p) (seq 0 32) ++ drop 96 buf)
                   = length buf).
    { rewrite length_app, (length_flat_map_blocks _ 3), length_drop, length_seq
        by reflexivity. lia. }
    split; [exact Hlen|].
    rewrite UnpackEta3_blocks by (rewrite ?Hlen; assumption).
    f_equal. rewrite <- (flat_map_slice 8 32 p Hp) at 2.
    rewrite !flat_map_concat_map. f_equal.
    apply map_ext_in. intros k Hk. apply in_seq in Hk.
    apply Eta3_block; try assumption. lia.
  - change (PolyLeqEtaSize 4) with 128%nat in Hbuf.
    rewrite (PackEta4_blocks Eta p buf Hp Hbuf).
    eexists. split; [reflexivity|].
    assert (Hlen : length (flat_map (bytesEta4 Eta p) (seq 0 128) ++ drop 128 buf)
                   = length buf).
    { rewrite length_app, (length_flat_map_blocks _ 1), length_drop, length_seq
        by reflexivity. lia. }
    split; [exact Hlen|].
    rewrite UnpackEta4_blocks by (rewrite ?Hlen; assumption).
    f_equal. rewrite <- (flat_map_slice 2 128 p Hp) at 2.
    rewrite !flat_map_concat_map. f_equal.
    apply map_ext_in. intros k Hk. apply in_seq in Hk.
    apply Eta4_block; try assumption. lia.
Qed.

(** *** Gamma1 *)

Lemma le_uint64_word (buf : list Z) (i : nat) :
  (i + 7 < length buf)%nat -> le_uint64 buf i = Ok (word buf i).
Proof.
  intros Hi. unfold le_uint64. rewrite !idx_nth by lia. reflexivity.
Qed.

Lemma PackG_blocks (Gamma1 : Z) (p : Poly) (buf : list Z) :
  length p = N -> (PolyLeGamma1Size <= length buf)%nat ->
  PolyPackLeGamma1 Gamma1 p buf =
  Ok (flat_map (bytesG Gamma1 p) (seq 0 128) ++ drop PolyLeGamma1Size buf).
Proof.
  intros Hp Hbuf. unfold PolyPackLeGamma1.
  change (iterations PolyLeGamma1Size 5) with 128%nat.
  rewrite (for_range_blocks 5 2 5 (bytesG Gamma1 p));
    [reflexivity | reflexivity | | exact Hbuf].
  intros k pre old post Hk Hpre Hold.
  do 6 (destruct old as [|? old]; try discriminate Hold).
  unfold N in Hp. run_body Hpre.
  unfold bytesG, packedG. rewrite !Nat.add_0_r. do 2 f_equal. lia.
Qed.

Lemma UnpackG_blocks (Gamma1 : Z) (p buf : list Z) :
  length p = N -> (PolyLeGamma1Size <= length buf)%nat ->
  PolyUnpackLeGamma1 Gamma1 p buf = Ok (flat_map (coeffsG Gamma1 buf) (seq 0 16)).
Proof.
  intros Hp Hbuf. unfold PolyUnpackLeGamma1.
  change (iterations PolyLeGamma1Size 40) with 16%nat.
  rewrite (for_range_blocks 40 16 16 (coeffsG Gamma1 buf));
    [| reflexivity | | rewrite Hp; reflexivity].
  { cbn [bind fst]. rewrite drop_ge by (rewrite Hp; reflexivity).
    rewrite app_nil_r. reflexivity. }
  intros k pre old post Hk Hpre Hold.
  do 17 (destruct old as [|? old]; try discriminate Hold).
  unfold PolyLeGamma1Size in Hbuf. cbv beta iota.
  rewrite !le_uint64_word by lia. cbn [bind].
  run_body Hpre.
  unfold coeffsG. do 2 f_equal. lia.
Qed.

Lemma masked_add_Q (c : Z) :
  0 <= c < 2 ^ 32 ->
  u32 (c + Z.land (sign_mask c) Q) = if c <? 2 ^ 31 then c else u32 (c + Q).
Proof.
  intros Hc. rewrite FieldFacts.sign_mask_value by assumption.
  destruct (Z.ltb_spec c (2 ^ 31)).
  - rewrite Z.land_0_l, Z.add_0_r. apply Z.mod_small. assumption.
  - reflexivity.
Qed.

Lemma G_shift (Gamma1 x : Z) :
  0 < Gamma1 -> 2 * (Gamma1 - 1) < 2 ^ 20 -> normG Gamma1 x = true ->
  0 <= packedG Gamma1 x < 2 ^ 20 /\
  forall y, y mod 2 ^ 20 = packedG Gamma1 x -> gamma1_coeff Gamma1 y = x.
Proof.
  intros Hg Hg20 Hx. unfold normG in Hx.
  rewrite !andb_true_iff, orb_true_iff, Z.leb_le, !Z.ltb_lt in Hx.
  assert (Hv : packedG Gamma1 x =
               if x <? Gamma1 then Gamma1 - 1 - x else Gamma1 - 1 - x + Q).
  { unfold packedG. cbv zeta.
    rewrite masked_add_Q by (apply Z.mod_pos_bound; reflexivity).
    unfold u32, Q, Field.Q in *. change (2 ^ 20) with 1048576 in Hg20.
    change (2 ^ 31) with 2147483648. change (2 ^ 32) with 4294967296.
    destruct (Z.ltb_spec x Gamma1);
      destruct (Z.ltb_spec ((Gamma1 - 1 - x) mod 4294967296) 2147483648);
      Z.div_mod_to_equations; lia. }
  split.
  - rewrite Hv. unfold Q, Field.Q in *. change (2 ^ 20) with 1048576 in *.
    destruct (Z.ltb_spec x Gamma1); lia.
  - intros y Hy. unfold gamma1_coeff. cbv zeta.
    change 1048575 with (Z.ones 20). rewrite Z.land_ones by discriminate.
    rewrite Hy, Hv.
    rewrite masked_add_Q by (apply Z.mod_pos_bound; reflexivity).
    unfold u32, Q, Field.Q in *. change (2 ^ 20) with 1048576 in Hg20.
    change (2 ^ 31) with 2147483648. change (2 ^ 32) with 4294967296.
    destruct (Z.ltb_spec x Gamma1).
    + assert (E : (Gamma1 - 1 - x) mod 4294967296 = Gamma1 - 1 - x)
        by (Z.div_mod_to_equations; lia).
      rewrite E. replace (Gamma1 - 1 - (Gamma1 - 1 - x)) with x by lia.
      assert (E' : x mod 4294967296 = x) by (Z.div_mod_to_equations; lia).
      rewrite E'. destruct (Z.ltb_spec x 2147483648); lia.
    + assert (E : (Gamma1 - 1 - x + 8380417) mod 4294967296 = Gamma1 - 1 - x + 8380417)
        by (Z.div_mod_to_equations; lia).
      rewrite E.
      replace (Gamma1 - 1 - (Gamma1 - 1 - x + 8380417)) with (x - 8380417) by lia.
      assert (E' : (x - 8380417) mod 4294967296 = x - 8380417 + 4294967296)
        by (Z.div_mod_to_equations; lia).
      rewrite E'. destruct (Z.ltb_spec (x - 8380417 + 4294967296) 2147483648); [lia|].
      Z.div_mod_to_equations; lia.
Qed.

Lemma normG_nth (Gamma1 : Z) (p : list Z) (i : nat) :
  forallb (normG Gamma1) p = true -> (i < length p)%nat ->
  normG Gamma1 (nth i p 0) = true.
Proof.
  rewrite forallb_forall. intros H Hi. apply H. apply nth_In. exact Hi.
Qed.

(** Rewrites the reads of a 40-byte group into reads of the 5-byte blocks
    the packer wrote. *)
Ltac to_blocks5 k f :=
  repeat match goal with
  | |- context [nth (40 * k + ?c)%nat (flat_map f ?l ++ ?r) 0] =>
      let q := eval compute in (Nat.div c 5) in
      let m := eval compute in (Nat.modulo c 5) in
      replace (40 * k + c)%nat with (5 * (8 * k + q) + m)%nat by lia;
      rewrite (nth_flat_map_blocks f 5 0 128 (8 * k + q) m)
        by (reflexivity || lia)
  end.

Lemma G_block (Gamma1 : Z) (p : Poly) (rest : list Z) (k : nat) :
  0 < Gamma1 -> 2 * (Gamma1 - 1) < 2 ^ 20 ->
  length p = N -> forallb (normG Gamma1) p = true -> (k < 16)%nat ->
  coeffsG Gamma1 (flat_map (bytesG Gamma1 p) (seq 0 128) ++ rest) k = slice 16 p k.
Proof.
  intros Hg Hg20 Hp Hr Hk. unfold coeffsG, word. cbv zeta.
  rewrite <- (Nat.add_0_r (40 * k)).
  rewrite <- !Nat.add_assoc. cbn [Nat.add].
  to_blocks5 k (bytesG Gamma1 p).
  cbn [Nat.add bytesG nth slice seq map].
  repeat match goal with
  | |- context [nth (2 * (8 * k + ?q) + ?i)%nat p 0] =>
      let c := eval compute in (2 * q + i)%nat in
      replace (2 * (8 * k + q) + i)%nat with (16 * k + c)%nat by lia
  end.
  assert (R : forall c, (c < 16)%nat ->
            0 <= packedG Gamma1 (nth (16 * k + c) p 0) < 2 ^ 20 /\
            forall y, y mod 2 ^ 20 = packedG Gamma1 (nth (16 * k + c) p 0) ->
                      gamma1_coeff Gamma1 y = nth (16 * k + c) p 0).
  { intros c Hc. apply G_shift; try assumption.
    apply normG_nth; [assumption | unfold N in Hp; lia]. }
  do 16 (match goal with
         | |- context [packedG Gamma1 (nth (16 * k + ?c) p 0)] =>
             let R' := fresh "R" in
             let E := fresh "E" in
             destruct (R c ltac:(lia)) as [R' E];
             let t := fresh "t" in
             set (t := packedG Gamma1 (nth (16 * k + c) p 0)) in *;
             clearbody t
         end).
  clear R.
  repeat (apply (f_equal2 (@cons Z));
          [ match goal with
            | E : forall y, _ -> gamma1_coeff _ y = ?x |- gamma1_coeff _ _ = ?x =>
                apply E
            end;
            clear - R0 R1 R2 R3 R4 R5 R6 R7 R8 R9 R10 R11 R12 R13 R14 R15; bits |]).
  reflexivity.
Qed.

Lemma G_roundtrip (Gamma1 : Z) (p p0 buf : list Z) :
  0 < Gamma1 -> 2 * (Gamma1 - 1) < 2 ^ 20 ->
  length p = N -> length p0 = N -> (PolyLeGamma1Size <= length buf)%nat ->
  forallb (normG Gamma1) p = true ->
  exists buf', PolyPackLeGamma1 Gamma1 p buf = Ok buf' /\
               length buf' = length buf /\
               PolyUnpackLeGamma1 Gamma1 p0 buf' = Ok p.
Proof.
  intros Hg Hg20 Hp Hp0 Hbuf Hr. rewrite (PackG_blocks Gamma1 p buf Hp Hbuf).
  eexists. split; [reflexivity|].
  assert (Hlen : length (flat_map (bytesG Gamma1 p) (seq 0 128) ++
                         drop PolyLeGamma1Size buf) = length buf).
  { rewrite length_app, (length_flat_map_blocks _ 5), length_drop, length_seq
      by reflexivity. unfold PolyLeGamma1Size in *. lia. }
  split; [exact Hlen|].
  rewrite UnpackG_blocks by (rewrite ?Hlen; assumption).
  f_equal. rewrite <- (flat_map_slice 16 16 p Hp) at 2.
  rewrite !flat_map_concat_map. f_equal.
  apply map_ext_in. intros k Hk. apply in_seq in Hk.
  apply G_block; try assumption. lia.
Qed.

End Mode3Facts.

(** ** Loop invariants *)

Module LoopFacts.

Lemma for_range_inv {S : Type} (I : nat -> S -> Prop) (n i0 step : nat)
    (body : nat -> S -> result S) (s : S) :
  I O s ->
  (forall k s, (k < n)%nat -> I k s ->
     exists s', body (i0 + step * k)%nat s = Ok s' /\ I (Datatypes.S k) s') ->
  exists s', for_range n i0 step body s = Ok s' /\ I n s'.
Proof.
  revert I i0 s. induction n as [|n IH]; intros I i0 s H0 Hstep.
  - exists s. split; [reflexivity | exact H0].
  - cbn [for_range].
    destruct (Hstep O s ltac:(lia) H0) as (s1 & E1 & I1).
    rewrite Nat.mul_0_r, Nat.add_0_r in E1. rewrite E1. cbn [bind].
    apply (IH (fun k => I (Datatypes.S k))); [exact I1|].
    intros k s2 Hk I2.
    destruct (Hstep (Datatypes.S k) s2 ltac:(lia) I2) as (s3 & E3 & I3).
    exists s3. split; [|exact I3].
    rewrite <- E3. f_equal. lia.
Qed.

(** A loop with early return: either the invariant holds after the last
    iteration, or some iteration k returned a value satisfying [Rt k]. *)
Lemma for_range_ret_inv {S R : Type} (I : nat -> S -> Prop) (Rt : nat -> R -> Prop)
    (n i0 step : nat) (body : nat -> S -> result (flow S R)) (s : S) :
  I O s ->
  (forall k s, (k < n)%nat -> I k s ->
     (exists s', body (i0 + step * k)%nat s = Ok (Next s') /\ I (Datatypes.S k) s') \/
     (exists r, body (i0 + step * k)%nat s = Ok (Return r) /\ Rt k r)) ->
  (exists s', for_range_ret n i0 step body s = Ok (Next s') /\ I n s') \/
  (exists r k, for_range_ret n i0 step body s = Ok (Return r) /\
               (k < n)%nat /\ Rt k r).
Proof.
  revert I Rt i0 s. induction n as [|n IH]; intros I Rt i0 s H0 Hstep.
  - left. exists s. split; [reflexivity | exact H0].
  - cbn [for_range_ret].
    destruct (Hstep O s ltac:(lia) H0) as [(s1 & E1 & I1) | (r & E1 & R1)];
      rewrite Nat.mul_0_r, Nat.add_0_r in E1; rewrite E1; cbn [bind].
    + destruct (IH (fun k => I (Datatypes.S k)) (fun k => Rt (Datatypes.S k))
                   (i0 + step)%nat s1 I1) as [(s' & E & HI) | (r & k & E & Hk & HR)].
      * intros k s2 Hk I2.
        replace (i0 + step + step * k)%nat with (i0 + step * Datatypes.S k)%nat by lia.
        apply Hstep; [lia | exact I2].
      * left. exists s'. split; assumption.
      * right. exists r, (Datatypes.S k). repeat split; [assumption | lia | assumption].
    + right. exists r, O. repeat split; [lia | assumption].
Qed.

Lemma idx_nth_d {A : Type} (d : A) (l : list A) (i : nat) :
  (i < length l)%nat -> idx l i = Ok (nth i l d).
Proof.
  revert i. induction l as [|x l IH]; intros i Hi; cbn [length] in Hi; [lia|].
  destruct i as [|i]; [reflexivity|]. cbn [idx nth]. apply IH. lia.
Qed.

Lemma upd_insert {A : Type} (l : list A) (i : nat) (x : A) :
  (i < length l)%nat -> upd l i x = Ok (<[i := x]> l).
Proof.
  revert i. induction l as [|y l IH]; intros i Hi; cbn [length] in Hi; [lia|].
  destruct i as [|i]; [reflexivity|]. cbn [upd].
  rewrite IH by lia. reflexivity.
Qed.

Lemma nth_insert_eq {A : Type} (d : A) (l : list A) (i : nat) (x : A) :
  (i < length l)%nat -> nth i (<[i := x]> l) d = x.
Proof.
  revert i. induction l as [|y l IH]; intros i Hi; cbn [length] in Hi; [lia|].
  destruct i as [|i]; [reflexivity|]. cbn. apply IH. lia.
Qed.

Lemma nth_insert_ne {A : Type} (d : A) (l : list A) (i j : nat) (x : A) :
  i <> j -> nth j (<[i := x]> l) d = nth j l d.
Proof.
  revert i j. induction l as [|y l IH]; intros i j Hij; [reflexivity|].
  destruct i as [|i], j as [|j]; try reflexivity; try congruence.
  cbn. apply IH. congruence.
Qed.

End LoopFacts.

(** ** The hint codec *)

Module HintFacts.
Import Common Mode3 HintSpec SliceFacts LoopFacts.

Lemma nth_map_seq {A : Type} (f : nat -> A) (d : A) (n m : nat) :
  (m < n)%nat -> nth m (map f (seq 0 n)) d = f m.
Proof.
  intros Hm. rewrite (nth_indep _ d (f O)) by (rewrite length_map, length_seq; lia).
  rewrite map_nth, seq_nth by lia. reflexivity.
Qed.

Lemma insert_nth_id {A : Type} (d : A) (l : list A) (k : nat) :
  (k < length l)%nat -> <[k := nth k l d]> l = l.
Proof.
  revert k. induction l as [|x l IH]; intros k Hk; cbn [length] in Hk; [lia|].
  destruct k as [|k]; [reflexivity|]. cbn. f_equal. apply IH. lia.
Qed.

Lemma insert_insert_same {A : Type} (l : list A) (k : nat) (x y : A) :
  <[k := y]> (<[k := x]> l) = <[k := y]> l.
Proof.
  revert k. induction l as [|z l IH]; intros k; [reflexivity|].
  destruct k as [|k]; [reflexivity|]. cbn. f_equal. apply IH.
Qed.

Lemma forallb_seq_S (f : nat -> bool) (a n : nat) :
  forallb f (seq a (S n)) = forallb f (seq a n) && f (a + n)%nat.
Proof. rewrite seq_S, forallb_app. cbn [forallb]. rewrite andb_true_r. reflexivity. Qed.

Lemma forallb_seq_false (f : nat -> bool) (a n j : nat) :
  (a <= j < a + n)%nat -> f j = false -> forallb f (seq a n) = false.
Proof.
  intros Hj Hf. destruct (forallb f (seq a n)) eqn:E; [|reflexivity].
  rewrite forallb_forall in E. rewrite <- Hf. symmetry. apply E. apply in_seq. lia.
Qed.

Lemma map_seq_const {A : Type} (f : nat -> A) (c : A) (s n : nat) :
  (forall m, f m = c) -> map f (seq s n) = repeat c n.
Proof.
  intros Hf. revert s. induction n as [|n IH]; intros s; [reflexivity|].
  cbn [seq map repeat]. rewrite Hf. f_equal. apply IH.
Qed.

Lemma forallb_seq_false_iff (f : nat -> bool) (a n : nat) :
  forallb f (seq a n) = false <-> exists j, (a <= j < a + n)%nat /\ f j = false.
Proof.
  split.
  - induction n as [|n IH]; [discriminate|].
    rewrite forallb_seq_S. intros H. apply andb_false_iff in H.
    destruct H as [H | H].
    + destruct (IH H) as (j & Hj & Hf). exists j. split; [lia | exact Hf].
    + exists (a + n)%nat. split; [lia | exact H].
  - intros (j & Hj & Hf). apply (forallb_seq_false f a n j); assumption.
Qed.

Lemma nth_ones_at (l : list nat) (p : list Z) (c : nat) :
  (c < length p)%nat ->
  nth c (ones_at l p) 0 = if existsb (Nat.eqb c) l then 1 else nth c p 0.
Proof.
  revert p. induction l as [|x l IH]; intros p Hc; [reflexivity|].
  cbn [ones_at fold_left existsb]. fold (ones_at l (<[x := 1]> p)).
  rewrite IH by (rewrite length_insert; exact Hc).
  destruct (existsb (Nat.eqb c) l); [rewrite orb_true_r; reflexivity|].
  rewrite orb_false_r. destruct (Nat.eqb_spec c x) as [-> | Hne].
  - apply nth_insert_eq. exact Hc.
  - apply nth_insert_ne. congruence.
Qed.

Lemma length_ones_at (l : list nat) (p : Poly) : length (ones_at l p) = length p.
Proof.
  revert p. induction l as [|c l IH]; intros p; [reflexivity|].
  cbn [ones_at fold_left]. fold (ones_at l (<[c := 1]> p)).
  rewrite IH. apply length_insert.
Qed.

Lemma length_elem_upto (buf : list Z) (a b : nat) : length (elem_upto buf a b) = N.
Proof. unfold elem_upto. rewrite length_ones_at. apply repeat_length. Qed.

Lemma nth_zeroPoly (c : nat) : nth c zeroPoly 0 = 0.
Proof. unfold zeroPoly. apply nth_repeat. Qed.

(** The coefficients of a decoded element are 0 or 1, and a 1 stands at a
    position named by one of the index bytes read. *)
Lemma elem_upto_bits (buf : list Z) (a b c : nat) :
  (nth c (elem_upto buf a b) 0 = 0 \/ nth c (elem_upto buf a b) 0 = 1) /\
  (nth c (elem_upto buf a b) 0 = 1 ->
   exists j, (a <= j < b)%nat /\ Z.to_nat (nth j buf 0) = c).
Proof.
  destruct (Nat.lt_ge_cases c N) as [Hc | Hc].
  - unfold elem_upto. rewrite nth_ones_at by (unfold zeroPoly; rewrite repeat_length; exact Hc).
    rewrite nth_zeroPoly.
    destruct (existsb _ _) eqn:E.
    + split; [right; reflexivity|]. intros _.
      apply existsb_exists in E. destruct E as (x & Hin & Hx).
      apply in_map_iff in Hin. destruct Hin as (j & <- & Hj).
      apply in_seq in Hj. apply Nat.eqb_eq in Hx.
      exists j. split; [lia | congruence].
    + split; [left; reflexivity | discriminate].
  - rewrite nth_overflow by (rewrite length_elem_upto; exact Hc).
    split; [left; reflexivity | discriminate].
Qed.

Section Unpack.

Variables (Omega K : nat) (buf : list Z).
Hypothesis HOmega : (Omega <= 255)%nat.
Hypothesis Hlen : (Omega + K <= length buf)%nat.
Hypothesis Hbytes : is_bytes buf = true.

Lemma byte_nth (j : nat) : (j < length buf)%nat -> 0 <= nth j buf 0 < 256.
Proof. apply coeffs_in_nth. exact Hbytes. Qed.

Lemma elem_upto_nil (a : nat) : elem_upto buf a a = zeroPoly.
Proof. unfold elem_upto. rewrite Nat.sub_diag. reflexivity. Qed.

Lemma elem_upto_S (a b : nat) :
  (a <= b)%nat ->
  elem_upto buf a (S b) = <[Z.to_nat (nth b buf 0) := 1]> (elem_upto buf a b).
Proof.
  intros Hab. unfold elem_upto, ones_at.
  replace (S b - a)%nat with (S (b - a)) by lia.
  rewrite seq_S, map_app, fold_left_app. cbn [map fold_left].
  replace (a + (b - a))%nat with b by lia. reflexivity.
Qed.

Lemma length_vstate (k : nat) : length (vstate Omega K buf k) = K.
Proof. unfold vstate. rewrite length_map, length_seq. reflexivity. Qed.

Lemma nth_vstate (k m : nat) :
  (m < K)%nat ->
  nth m (vstate Omega K buf k) zeroPoly =
  if (m <? k)%nat
  then elem_upto buf (Z.to_nat (prev_sop Omega buf m)) (Z.to_nat (sop Omega buf m))
  else zeroPoly.
Proof. intros Hm. unfold vstate. apply nth_map_seq. exact Hm. Qed.

Lemma vstate_step (k : nat) :
  (k < K)%nat ->
  <[k := elem_upto buf (Z.to_nat (prev_sop Omega buf k)) (Z.to_nat (sop Omega buf k))]>
    (vstate Omega K buf k) = vstate Omega K buf (S k).
Proof.
  intros Hk. apply (nth_ext _ _ zeroPoly zeroPoly).
  - rewrite length_insert, !length_vstate. reflexivity.
  - intros m Hm. rewrite length_insert, length_vstate in Hm.
    destruct (Nat.eq_dec k m) as [<- | Hne].
    + rewrite nth_insert_eq by (rewrite length_vstate; exact Hk).
      rewrite nth_vstate by exact Hk.
      destruct (Nat.ltb_spec k (S k)); [reflexivity | lia].
    + rewrite nth_insert_ne by exact Hne. rewrite !nth_vstate by exact Hm.
      destruct (Nat.ltb_spec m k), (Nat.ltb_spec m (S k)); try reflexivity; lia.
Qed.

Lemma vstate_full : vstate Omega K buf K = decode_hint Omega K buf.
Proof.
  unfold vstate, decode_hint. apply map_ext_in. intros m Hm. apply in_seq in Hm.
  destruct (Nat.ltb_spec m K); [reflexivity | lia].
Qed.

Lemma decoded_vstate (k : nat) :
  (forall m, (m < k)%nat -> (Z.to_nat (sop Omega buf m) <= Omega)%nat) ->
  decoded_prefix Omega K buf (vstate Omega K buf k).
Proof.
  intros Hs. split; [apply length_vstate|].
  unfold vstate. apply List.Forall_forall. intros vi Hin. apply in_map_iff in Hin.
  destruct Hin as (m & <- & Hm).
  destruct (Nat.ltb_spec m k).
  - eexists _, _. split; [|reflexivity]. apply Hs. assumption.
  - exists O, O. split; [lia|]. symmetry. apply elem_upto_nil.
Qed.

Lemma decoded_insert (v : VecK) (k a b : nat) :
  decoded_prefix Omega K buf v -> (b <= Omega)%nat ->
  decoded_prefix Omega K buf (<[k := elem_upto buf a b]> v).
Proof.
  intros [Hl Hf] Hb. split; [rewrite length_insert; exact Hl|].
  apply Forall_insert; [exact Hf|]. exists a, b. split; [exact Hb | reflexivity].
Qed.

(** The loop over the index bytes of element k. *)
Lemma inner_loop (k : nat) (prev SOP : Z) (v0 : VecK) :
  let a := Z.to_nat prev in
  let b := Z.to_nat SOP in
  (a <= b)%nat -> (b <= Omega)%nat -> (k < K)%nat ->
  length v0 = K -> nth k v0 zeroPoly = zeroPoly ->
  let loop :=
    for_range_ret (Z.to_nat SOP - Z.to_nat prev) (Z.to_nat prev) 1
      (fun j v =>
         bad <- (if (Z.to_nat prev <? j)%nat
                 then bj <- idx buf j ;; bj1 <- idx buf (j - 1) ;; Ok (bj <=? bj1)
                 else Ok false) ;;
         if bad then Ok (Return (v, false))
         else
           bj <- idx buf j ;;
           vi <- idx v k ;;
           vi <- upd vi (Z.to_nat bj) 1 ;;
           v <- upd v k vi ;;
           Ok (Next v)) v0 in
  (loop = Ok (Next (<[k := elem_upto buf a b]> v0)) /\ incr_ok buf a b = true) \/
  (exists t, (t < b - a)%nat /\
             loop = Ok (Return (<[k := elem_upto buf a (a + t)]> v0, false)) /\
             incr_ok buf a b = false).
Proof.
  intros a b Hab Hb Hk Hv0 Hz loop. subst loop. fold a. fold b.
  match goal with |- context [for_range_ret ?n ?i ?st ?body ?s] =>
    destruct (for_range_ret_inv
      (fun t v => forallb (fun j => nth (j - 1) buf 0 <? nth j buf 0)
                          (seq (a + 1) (t - 1)) = true /\
                  v = <[k := elem_upto buf a (a + t)]> v0)
      (fun t (r : VecK * bool) =>
                  r = (<[k := elem_upto buf a (a + t)]> v0, false) /\
                  incr_ok buf a b = false)
      n i st body s) as [(v' & E & Hf & ->) | ((v' & fl) & t & E & Ht & Hr & Hi)]
  end.
  - split; [reflexivity|].
    rewrite Nat.add_0_r, elem_upto_nil, <- Hz. symmetry.
    apply insert_nth_id. lia.
  - intros t v Ht [Hf ->].
    set (j := (a + 1 * t)%nat).
    assert (Hj : j = (a + t)%nat) by (subst j; lia).
    assert (Hjb : (j < length buf)%nat) by lia.
    pose proof (byte_nth j Hjb) as Hbj.
    assert (Hupd :
      (bj <- idx buf j ;; vi <- idx (<[k := elem_upto buf a (a + t)]> v0) k ;;
       vi <- upd vi (Z.to_nat bj) 1 ;;
       v <- upd (<[k := elem_upto buf a (a + t)]> v0) k vi ;; Ok (Next v)) =
      (Ok (Next (<[k := elem_upto buf a (a + S t)]> v0)) :
         result (flow VecK (VecK * bool)))).
    { rewrite (idx_nth_d 0) by exact Hjb. cbn [bind].
      rewrite (idx_nth_d zeroPoly) by (rewrite length_insert; lia). cbn [bind].
      rewrite nth_insert_eq by lia.
      rewrite upd_insert by (rewrite length_elem_upto; unfold N; lia). cbn [bind].
      rewrite upd_insert by (rewrite length_insert; lia). cbn [bind].
      rewrite insert_insert_same.
      replace (a + S t)%nat with (S (a + t)) by lia.
      rewrite elem_upto_S by lia. rewrite Hj. reflexivity. }
    rewrite Hupd. clear Hupd.
    destruct (Nat.ltb_spec a j) as [Haj | Haj].
    + rewrite (idx_nth_d 0) by exact Hjb. cbn [bind].
      rewrite (idx_nth_d 0) by lia. cbn [bind].
      destruct (Z.leb_spec (nth j buf 0) (nth (j - 1) buf 0)) as [Hle | Hgt].
      * right. eexists. split; [reflexivity|]. split; [reflexivity|].
        unfold incr_ok. apply (forallb_seq_false _ _ _ j); [lia|].
        apply Z.ltb_ge. exact Hle.
      * left. eexists. split; [reflexivity|]. split; [|reflexivity].
        replace (S t - 1)%nat with (S (t - 1)) by lia.
        rewrite forallb_seq_S, Hf. cbn [andb].
        replace (a + 1 + (t - 1))%nat with j by lia.
        apply Z.ltb_lt. exact Hgt.
    + cbn [bind]. left. eexists. split; [reflexivity|].
      split; [|reflexivity].
      replace t with O by lia. reflexivity.
  - left. rewrite E. split.
    + replace (a + (b - a))%nat with b by lia. reflexivity.
    + unfold incr_ok. exact Hf.
  - right. inversion Hr; subst. exists t. repeat split; assumption.
Qed.

(** The last loop, over the padding. *)
Lemma pad_loop (prev : Z) :
  let a := Z.to_nat prev in
  (a <= Omega)%nat ->
  let loop :=
    for_range_ret (Omega - Z.to_nat prev) (Z.to_nat prev) 1
      (fun j (_ : unit) =>
         bj <- idx buf j ;;
         if negb (bj =? 0) then Ok (Return false) else Ok (Next tt)) tt in
  let pad := forallb (fun j => nth j buf 0 =? 0) (seq a (Omega - a)) in
  (loop = Ok (Next tt) /\ pad = true) \/ (loop = Ok (Return false) /\ pad = false).
Proof.
  intros a Ha loop pad. subst loop pad. fold a.
  match goal with |- context [for_range_ret ?n ?i ?st ?body ?s] =>
    destruct (for_range_ret_inv
      (fun t (_ : unit) => forallb (fun j => nth j buf 0 =? 0) (seq a t) = true)
      (fun t (r : bool) => r = false /\
         forallb (fun j => nth j buf 0 =? 0) (seq a (Omega - a)) = false)
      n i st body s) as [([] & E & Hf) | (r & t & E & Ht & -> & Hi)]
  end.
  - reflexivity.
  - intros t [] Ht Hf.
    rewrite (idx_nth_d 0) by lia. cbn [bind].
    replace (a + 1 * t)%nat with (a + t)%nat by lia.
    destruct (Z.eqb_spec (nth (a + t) buf 0) 0) as [E0 | E0]; cbn [negb].
    + left. exists tt. split; [reflexivity|].
      rewrite forallb_seq_S, Hf. cbn [andb]. apply Z.eqb_eq. exact E0.
    + right. exists false. split; [reflexivity|]. split; [reflexivity|].
      apply (forallb_seq_false _ _ _ (a + t)%nat); [lia|].
      apply Z.eqb_neq. exact E0.
  - left. split; assumption.
  - right. split; assumption.
Qed.

Lemma vstate_0 : vstate Omega K buf 0 = zeroVecK K.
Proof.
  unfold vstate, zeroVecK. apply map_seq_const. reflexivity.
Qed.

Lemma sop_le_Omega (k m : nat) :
  forallb (elem_ok Omega buf) (seq 0 k) = true -> (m < k)%nat ->
  (Z.to_nat (sop Omega buf m) <= Omega)%nat.
Proof.
  intros Hf Hm. rewrite forallb_forall in Hf.
  specialize (Hf m ltac:(apply in_seq; lia)).
  unfold elem_ok, sop_ok in Hf. rewrite !andb_true_iff in Hf.
  destruct Hf as [[_ H] _]. apply Z.leb_le in H. lia.
Qed.

(** What [UnpackHint] returns on any buffer of bytes: the flag is
    [hint_valid], the vector holds elements decoded from index bytes, and on
    success it is [decode_hint]. *)
Lemma UnpackHint_char (v0 : VecK) :
  exists v, UnpackHint Omega K v0 buf = Ok (v, hint_valid Omega K buf) /\
            decoded_prefix Omega K buf v /\
            (hint_valid Omega K buf = true -> v = decode_hint Omega K buf).
Proof.
  unfold UnpackHint. cbv zeta.
  match goal with |- context [for_range_ret ?n ?i ?st ?body ?s] =>
    destruct (for_range_ret_inv
      (fun k (x : VecK * Z) =>
         snd x = prev_sop Omega buf k /\ 0 <= snd x <= Z.of_nat Omega /\
         forallb (elem_ok Omega buf) (seq 0 k) = true /\
         fst x = vstate Omega K buf k)
      (fun k (r : VecK * bool) =>
         snd r = false /\ elem_ok Omega buf k = false /\
         decoded_prefix Omega K buf (fst r))
      n i st body s)
      as [((v & prev) & E & Hp & Hr & Hf & Hv) | ((v & fl) & k & E & Hk & Hfl & He & Hd)]
  end.
  - cbn [fst snd]. repeat split; try reflexivity; try lia.
    symmetry. apply vstate_0.
  - intros k [v prev] Hk (Hp & Hr & Hf & Hv). cbn [fst snd] in *.
    replace (0 + 1 * k)%nat with k by lia.
    rewrite (idx_nth_d 0) by lia. cbn [bind].
    fold (sop Omega buf k). subst v.
    destruct ((sop Omega buf k <? prev) || (Z.of_nat Omega <? sop Omega buf k)) eqn:Et.
    + right. eexists. split; [reflexivity|]. cbn [fst snd].
      split; [reflexivity|]. split.
      * unfold elem_ok, sop_ok. rewrite <- Hp.
        apply orb_true_iff in Et. rewrite Z.ltb_lt, Z.ltb_lt in Et.
        destruct (Z.leb_spec prev (sop Omega buf k)),
                 (Z.leb_spec (sop Omega buf k) (Z.of_nat Omega)); try reflexivity; lia.
      * apply decoded_vstate. intros m Hm. apply (sop_le_Omega k); assumption.
    + apply orb_false_iff in Et. rewrite !Z.ltb_ge in Et. destruct Et as [Et1 Et2].
      destruct (inner_loop k prev (sop Omega buf k) (vstate Omega K buf k))
        as [[E Hi] | (t & Ht & E & Hi)];
        [lia | lia | exact Hk | apply length_vstate
        | rewrite nth_vstate by exact Hk;
          destruct (Nat.ltb_spec k k); [lia | reflexivity] | |].
      * rewrite E. cbn [bind]. left. eexists. split; [reflexivity|]. cbn [fst snd].
        split; [reflexivity|]. split; [lia|]. split.
        -- rewrite forallb_seq_S, Hf. cbn [andb Nat.add].
           unfold elem_ok, sop_ok. rewrite <- Hp, Hi.
           destruct (Z.leb_spec prev (sop Omega buf k)),
                    (Z.leb_spec (sop Omega buf k) (Z.of_nat Omega)); try reflexivity; lia.
        -- rewrite Hp. apply vstate_step. exact Hk.
      * rewrite E. cbn [bind]. right. eexists. split; [reflexivity|]. cbn [fst snd].
        split; [reflexivity|]. split.
        -- unfold elem_ok. rewrite <- Hp, Hi. apply andb_false_r.
        -- apply decoded_insert; [|lia].
           apply decoded_vstate. intros m Hm. apply (sop_le_Omega k); assumption.
  - cbn [fst snd] in *. rewrite E. cbn [bind]. subst v.
    destruct (pad_loop prev ltac:(lia)) as [[Ep Hpad] | [Ep Hpad]];
      rewrite Ep; cbn [bind]; exists (vstate Omega K buf K);
      (split; [|split]).
    + unfold hint_valid, pad_ok. rewrite Hf, <- Hp, Hpad. reflexivity.
    + apply decoded_vstate. intros m Hm. apply (sop_le_Omega K); assumption.
    + intros _. apply vstate_full.
    + unfold hint_valid, pad_ok. rewrite Hf, <- Hp, Hpad. reflexivity.
    + apply decoded_vstate. intros m Hm. apply (sop_le_Omega K); assumption.
    + intros _. apply vstate_full.
  - cbn [fst snd] in *. rewrite E. cbn [bind]. subst fl. exists v.
    assert (Hh : hint_valid Omega K buf = false).
    { unfold hint_valid.
      rewrite (forallb_seq_false (elem_ok Omega buf) 0 K k) by (lia || assumption).
      reflexivity. }
    rewrite Hh. split; [reflexivity|]. split; [exact Hd | discriminate].
Qed.

Lemma find_seq_first (f : nat -> bool) (s n m : nat) :
  (m < n)%nat -> (forall j, (s <= j < s + m)%nat -> f j = false) ->
  f (s + m)%nat = true -> find f (seq s n) = Some (s + m)%nat.
Proof.
  revert s m. induction n as [|n IH]; intros s m Hm Hlt Hf; [lia|].
  cbn [seq find]. destruct m as [|m].
  - rewrite Nat.add_0_r in Hf. rewrite Hf, Nat.add_0_r. reflexivity.
  - rewrite (Hlt s) by lia.
    replace (s + S m)%nat with (S s + m)%nat in * by lia.
    apply IH; [lia | | exact Hf]. intros j Hj. apply Hlt. lia.
Qed.

Lemma find_seq_none (f : nat -> bool) (s n : nat) :
  (forall j, (s <= j < s + n)%nat -> f j = false) -> find f (seq s n) = None.
Proof.
  revert s. induction n as [|n IH]; intros s Hf; [reflexivity|].
  cbn [seq find]. rewrite (Hf s) by lia. apply IH. intros j Hj. apply Hf. lia.
Qed.

Lemma forallb_seq_nth (f : nat -> bool) (s n j : nat) :
  forallb f (seq s n) = true -> (s <= j < s + n)%nat -> f j = true.
Proof.
  intros Hf Hj. rewrite forallb_forall in Hf. apply Hf. apply in_seq. exact Hj.
Qed.

(** The loop over the index bytes of element k, with the place where it
    stops: the first index byte that is not above its predecessor. *)
Lemma inner_loop_first (k : nat) (prev SOP : Z) (v0 : VecK) :
  let a := Z.to_nat prev in
  let b := Z.to_nat SOP in
  (a <= b)%nat -> (b <= Omega)%nat -> (k < K)%nat ->
  length v0 = K -> nth k v0 zeroPoly = zeroPoly ->
  let loop :=
    for_range_ret (Z.to_nat SOP - Z.to_nat prev) (Z.to_nat prev) 1
      (fun j v =>
         bad <- (if (Z.to_nat prev <? j)%nat
                 then bj <- idx buf j ;; bj1 <- idx buf (j - 1) ;; Ok (bj <=? bj1)
                 else Ok false) ;;
         if bad then Ok (Return (v, false))
         else
           bj <- idx buf j ;;
           vi <- idx v k ;;
           vi <- upd vi (Z.to_nat bj) 1 ;;
           v <- upd v k vi ;;
           Ok (Next v)) v0 in
  (loop = Ok (Next (<[k := elem_upto buf a b]> v0)) /\ incr_ok buf a b = true) \/
  (loop = Ok (Return (<[k := elem_upto buf a (first_unordered buf a b)]> v0, false)) /\
   incr_ok buf a b = false /\ (a < first_unordered buf a b < b)%nat).
Proof.
  intros a b Hab Hb Hk Hv0 Hz loop. subst loop. fold a. fold b.
  match goal with |- context [for_range_ret ?n ?i ?st ?body ?s] =>
    destruct (for_range_ret_inv
      (fun t v => forallb (fun j => nth (j - 1) buf 0 <? nth j buf 0)
                          (seq (a + 1) (t - 1)) = true /\
                  v = <[k := elem_upto buf a (a + t)]> v0)
      (fun t (r : VecK * bool) =>
                  r = (<[k := elem_upto buf a (first_unordered buf a b)]> v0, false) /\
                  incr_ok buf a b = false /\
                  (a < first_unordered buf a b < b)%nat)
      n i st body s) as [(v' & E & Hf & ->) | ((v' & fl) & t & E & Ht & Hr & Hi & Hfu)]
  end.
  - split; [reflexivity|].
    rewrite Nat.add_0_r, elem_upto_nil, <- Hz. symmetry.
    apply insert_nth_id. lia.
  - intros t v Ht [Hf ->].
    set (j := (a + 1 * t)%nat).
    assert (Hj : j = (a + t)%nat) by (subst j; lia).
    assert (Hjb : (j < length buf)%nat) by lia.
    pose proof (byte_nth j Hjb) as Hbj.
    assert (Hupd :
      (bj <- idx buf j ;; vi <- idx (<[k := elem_upto buf a (a + t)]> v0) k ;;
       vi <- upd vi (Z.to_nat bj) 1 ;;
       v <- upd (<[k := elem_upto buf a (a + t)]> v0) k vi ;; Ok (Next v)) =
      (Ok (Next (<[k := elem_upto buf a (a + S t)]> v0)) :
         result (flow VecK (VecK * bool)))).
    { rewrite (idx_nth_d 0) by exact Hjb. cbn [bind].
      rewrite (idx_nth_d zeroPoly) by (rewrite length_insert; lia). cbn [bind].
      rewrite nth_insert_eq by lia.
      rewrite upd_insert by (rewrite length_elem_upto; unfold N; lia). cbn [bind].
      rewrite upd_insert by (rewrite length_insert; lia). cbn [bind].
      rewrite insert_insert_same.
      replace (a + S t)%nat with (S (a + t)) by lia.
      rewrite elem_upto_S by lia. rewrite Hj. reflexivity. }
    rewrite Hupd. clear Hupd.
    destruct (Nat.ltb_spec a j) as [Haj | Haj].
    + rewrite (idx_nth_d 0) by exact Hjb. cbn [bind].
      rewrite (idx_nth_d 0) by lia. cbn [bind].
      destruct (Z.leb_spec (nth j buf 0) (nth (j - 1) buf 0)) as [Hle | Hgt].
      * assert (Hfu : first_unordered buf a b = j).
        { unfold first_unordered.
          rewrite (find_seq_first _ (a + 1) (b - a - 1) (t - 1)).
          - lia.
          - lia.
          - intros j' Hj'. apply Z.leb_gt. apply Z.ltb_lt.
            apply (forallb_seq_nth _ _ _ j' Hf). lia.
          - replace (a + 1 + (t - 1))%nat with j by lia. apply Z.leb_le. exact Hle. }
        right. eexists. split; [reflexivity|]. rewrite Hfu, Hj.
        split; [reflexivity|]. split; [|lia].
        unfold incr_ok. apply (forallb_seq_false _ _ _ j); [lia|].
        apply Z.ltb_ge. exact Hle.
      * left. eexists. split; [reflexivity|]. split; [|reflexivity].
        replace (S t - 1)%nat with (S (t - 1)) by lia.
        rewrite forallb_seq_S, Hf. cbn [andb].
        replace (a + 1 + (t - 1))%nat with j by lia.
        apply Z.ltb_lt. exact Hgt.
    + cbn [bind]. left. eexists. split; [reflexivity|].
      split; [|reflexivity].
      replace t with O by lia. reflexivity.
  - left. rewrite E. split.
    + replace (a + (b - a))%nat with b by lia. reflexivity.
    + unfold incr_ok. exact Hf.
  - right. rewrite E. injection Hr as -> ->. repeat split; (assumption || lia).
Qed.

Lemma first_bad_at (k : nat) :
  (k < K)%nat -> forallb (elem_ok Omega buf) (seq 0 k) = true ->
  elem_ok Omega buf k = false -> first_bad Omega K buf = Some k.
Proof.
  intros Hk Hf He. unfold first_bad.
  apply (find_seq_first (fun k => negb (elem_ok Omega buf k)) 0 K k Hk).
  - intros j Hj. rewrite (forallb_seq_nth _ _ _ j Hf) by lia. reflexivity.
  - cbn [Nat.add]. rewrite He. reflexivity.
Qed.

Lemma first_bad_none :
  forallb (elem_ok Omega buf) (seq 0 K) = true -> first_bad Omega K buf = None.
Proof.
  intros Hf. unfold first_bad. apply find_seq_none. intros j Hj.
  rewrite (forallb_seq_nth _ _ _ j Hf) by lia. reflexivity.
Qed.

(** What [UnpackHint] returns on any buffer of bytes, exactly: the flag is
    [hint_valid] and the vector is [unpacked], the decoding up to the first
    violation. *)
Lemma UnpackHint_exact (v0 : VecK) :
  UnpackHint Omega K v0 buf = Ok (unpacked Omega K buf, hint_valid Omega K buf).
Proof.
  unfold UnpackHint. cbv zeta.
  match goal with |- context [for_range_ret ?n ?i ?st ?body ?s] =>
    destruct (for_range_ret_inv
      (fun k (x : VecK * Z) =>
         snd x = prev_sop Omega buf k /\ 0 <= snd x <= Z.of_nat Omega /\
         forallb (elem_ok Omega buf) (seq 0 k) = true /\
         fst x = vstate Omega K buf k)
      (fun k (r : VecK * bool) =>
         r = (stopped_at Omega K buf k, false) /\
         forallb (elem_ok Omega buf) (seq 0 k) = true /\
         elem_ok Omega buf k = false)
      n i st body s)
      as [((v & prev) & E & Hp & Hr & Hf & Hv) | ((v & fl) & k & E & Hk & Hst & Hf & He)]
  end.
  - cbn [fst snd]. repeat split; try reflexivity; try lia.
    symmetry. apply vstate_0.
  - intros k [v prev] Hk (Hp & Hr & Hf & Hv). cbn [fst snd] in *.
    replace (0 + 1 * k)%nat with k by lia.
    rewrite (idx_nth_d 0) by lia. cbn [bind].
    fold (sop Omega buf k). subst v.
    destruct ((sop Omega buf k <? prev) || (Z.of_nat Omega <? sop Omega buf k)) eqn:Et.
    + assert (Hs : sop_ok Omega buf k = false).
      { unfold sop_ok. rewrite <- Hp.
        apply orb_true_iff in Et. rewrite Z.ltb_lt, Z.ltb_lt in Et.
        destruct (Z.leb_spec prev (sop Omega buf k)),
                 (Z.leb_spec (sop Omega buf k) (Z.of_nat Omega)); try reflexivity; lia. }
      right. eexists. split; [reflexivity|].
      split; [unfold stopped_at; rewrite Hs; reflexivity|].
      split; [exact Hf|]. unfold elem_ok. rewrite Hs. reflexivity.
    + apply orb_false_iff in Et. rewrite !Z.ltb_ge in Et. destruct Et as [Et1 Et2].
      assert (Hs : sop_ok Omega buf k = true).
      { unfold sop_ok. rewrite <- Hp. apply andb_true_iff. split; apply Z.leb_le; lia. }
      destruct (inner_loop_first k prev (sop Omega buf k) (vstate Omega K buf k))
        as [[E Hi] | (E & Hi & Hfu)];
        [lia | lia | exact Hk | apply length_vstate
        | rewrite nth_vstate by exact Hk;
          destruct (Nat.ltb_spec k k); [lia | reflexivity] | |].
      * rewrite E. cbn [bind]. left. eexists. split; [reflexivity|]. cbn [fst snd].
        split; [reflexivity|]. split; [lia|]. split.
        -- rewrite forallb_seq_S, Hf. cbn [andb Nat.add].
           unfold elem_ok. rewrite Hs, <- Hp, Hi. reflexivity.
        -- rewrite Hp. apply vstate_step. exact Hk.
      * rewrite E. cbn [bind]. right. eexists. split; [reflexivity|].
        split; [unfold stopped_at; rewrite Hs, <- Hp; reflexivity|].
        split; [exact Hf|]. unfold elem_ok. rewrite <- Hp, Hi. apply andb_false_r.
  - cbn [fst snd] in *. rewrite E. cbn [bind]. subst v.
    unfold unpacked. rewrite (first_bad_none Hf), <- vstate_full.
    destruct (pad_loop prev ltac:(lia)) as [[Ep Hpad] | [Ep Hpad]];
      rewrite Ep; cbn [bind]; do 2 f_equal;
      unfold hint_valid, pad_ok; rewrite Hf, <- Hp, Hpad; reflexivity.
  - rewrite E. cbn [bind]. injection Hst as -> ->.
    unfold unpacked. rewrite (first_bad_at k Hk Hf He).
    do 2 f_equal. unfold hint_valid.
    rewrite (forallb_seq_false (elem_ok Omega buf) 0 K k) by (lia || assumption).
    reflexivity.
Qed.

End Unpack.

End HintFacts.

(** ** Packing a hint vector *)

Module PackHintFacts.
Import Common Mode3 HintSpec SliceFacts LoopFacts HintFacts.

Lemma positions_S (vi : list Z) (j : nat) :
  positions vi (S j) =
  positions vi j ++ (if negb (nth j vi 0 =? 0) then [j] else []).
Proof.
  unfold positions. rewrite seq_S, List.filter_app. cbn [List.filter Nat.add].
  reflexivity.
Qed.

Lemma positions_In (vi : list Z) (n x : nat) :
  In x (positions vi n) <-> (x < n)%nat /\ nth x vi 0 <> 0.
Proof.
  unfold positions. rewrite filter_In, in_seq, negb_true_iff, Z.eqb_neq. intuition lia.
Qed.

Lemma positions_length_mono (vi : list Z) (n m : nat) :
  (n <= m)%nat -> (length (positions vi n) <= length (positions vi m))%nat.
Proof.
  induction 1 as [|m Hm IH]; [lia|].
  rewrite positions_S, length_app. lia.
Qed.

Lemma positions_incr (vi : list Z) (n t : nat) :
  (S t < length (positions vi n))%nat ->
  (nth t (positions vi n) O < nth (S t) (positions vi n) O)%nat.
Proof.
  induction n as [|n IH]; [cbn; lia|].
  rewrite positions_S. destruct (negb (nth n vi 0 =? 0)).
  - rewrite length_app. cbn [length]. intros Ht.
    destruct (Nat.eq_dec (S t) (length (positions vi n))) as [E | E].
    + rewrite app_nth1 by lia. rewrite app_nth2 by lia.
      rewrite E, Nat.sub_diag. cbn [nth].
      assert (Hin : In (nth t (positions vi n) O) (positions vi n))
        by (apply nth_In; lia).
      apply positions_In in Hin. lia.
    + rewrite !app_nth1 by lia. apply IH. lia.
  - rewrite app_nil_r. exact IH.
Qed.

Lemma take_S_nth {A : Type} (d : A) (l : list A) (i : nat) :
  (i < length l)%nat -> take (S i) l = take i l ++ [nth i l d].
Proof.
  revert i. induction l as [|x l IH]; intros i Hi; cbn [length] in Hi; [lia|].
  destruct i as [|i]; [reflexivity|]. cbn [take nth app]. f_equal. apply IH. lia.
Qed.

Lemma offs_0 (v : list (list Z)) : offs v 0 = O.
Proof. reflexivity. Qed.

Lemma offs_S (v : list (list Z)) (i : nat) :
  (i < length v)%nat ->
  offs v (S i) = (offs v i + length (positions (nth i v []) N))%nat.
Proof.
  intros Hi. unfold offs. rewrite (take_S_nth []) by exact Hi.
  rewrite flat_map_app, length_app. cbn [flat_map]. rewrite app_nil_r. reflexivity.
Qed.

Lemma offs_mono (v : list (list Z)) (i j : nat) :
  (i <= j)%nat -> (j <= length v)%nat -> (offs v i <= offs v j)%nat.
Proof.
  induction 1 as [|j Hj IH]; intros Hl; [lia|].
  rewrite offs_S by lia. specialize (IH ltac:(lia)). lia.
Qed.

Lemma offs_weight (v : list (list Z)) : offs v (length v) = weight v.
Proof. unfold offs, weight. rewrite firstn_all. reflexivity. Qed.

Lemma is_bytes_insert (l : list Z) (i : nat) (x : Z) :
  is_bytes l = true -> 0 <= x < 256 -> is_bytes (<[i := x]> l) = true.
Proof.
  unfold is_bytes, coeffs_in. intros Hl Hx. revert i.
  induction l as [|y l IH]; intros i; [reflexivity|].
  cbn [forallb] in Hl. apply andb_true_iff in Hl. destruct Hl as [Hy Hl].
  destruct i as [|i]; cbn [forallb].
  - change (<[0%nat := x]> (y :: l)) with (x :: l). cbn [forallb].
    rewrite Hl, andb_true_r. apply andb_true_iff. split; [apply Z.leb_le | apply Z.ltb_lt]; lia.
  - change (<[S i := x]> (y :: l)) with (y :: <[i := x]> l). cbn [forallb].
    rewrite Hy, (IH Hl). reflexivity.
Qed.

Section Pack.

Variables (Omega K : nat) (v : list (list Z)).
Hypothesis HOmega : (Omega <= 255)%nat.
Hypothesis HK : length v = K.
Hypothesis HN : forall i, (i < K)%nat -> length (nth i v []) = N.
Hypothesis Hw : (weight v <= Omega)%nat.

Lemma offs_le_Omega (i : nat) : (i <= K)%nat -> (offs v i <= Omega)%nat.
Proof.
  intros Hi. pose proof (offs_mono v i K Hi ltac:(lia)) as H.
  rewrite <- HK, offs_weight in H. lia.
Qed.

(** The scan of element i appends its positions at off. *)
Lemma pack_inner (i : nat) (buf0 : list Z) :
  (i < K)%nat -> (Omega <= length buf0)%nat -> is_bytes buf0 = true ->
  let vi := nth i v [] in
  let o0 := offs v i in
  exists buf,
    for_range N 0 1 (fun j '(buf, off) =>
      vi <- idx v i ;; vij <- idx vi j ;;
      if negb (vij =? 0) then
        buf <- upd buf (Z.to_nat off) (u8 (Z.of_nat j)) ;;
        Ok (buf, u8 (off + 1))
      else Ok (buf, off)) (buf0, Z.of_nat o0) =
    Ok (buf, Z.of_nat (offs v (S i))) /\
    length buf = length buf0 /\ is_bytes buf = true /\
    (forall x, (x < o0 \/ offs v (S i) <= x)%nat -> nth x buf 0 = nth x buf0 0) /\
    (forall t, (t < length (positions vi N))%nat ->
               nth (o0 + t) buf 0 = Z.of_nat (nth t (positions vi N) O)).
Proof.
  intros Hi Hb0 Hby vi o0.
  assert (HS : offs v (S i) = (o0 + length (positions vi N))%nat)
    by (apply offs_S; lia).
  pose proof (offs_le_Omega (S i) ltac:(lia)) as HSO.
  match goal with |- context [for_range ?n ?i0 ?stp ?body ?s0] =>
    destruct (for_range_inv
      (fun j (x : list Z * Z) =>
         snd x = Z.of_nat (o0 + length (positions vi j)) /\
         length (fst x) = length buf0 /\ is_bytes (fst x) = true /\
         (forall y, (y < o0 \/ o0 + length (positions vi j) <= y)%nat ->
                    nth y (fst x) 0 = nth y buf0 0) /\
         (forall t, (t < length (positions vi j))%nat ->
                    nth (o0 + t) (fst x) 0 = Z.of_nat (nth t (positions vi j) O)))
      n i0 stp body s0) as ((buf & off) & E & Ho & Hl & Hy & Hu & Hwr)
  end.
  - cbn [fst snd positions seq List.filter length]. repeat split; try assumption.
    + f_equal. lia.
    + intros t Ht. lia.
  - intros j [buf off] Hj (Ho & Hl & Hy & Hu & Hwr). cbn [fst snd] in *.
    replace (0 + 1 * j)%nat with j by lia.
    rewrite (idx_nth_d []) by lia. cbn [bind]. fold vi.
    rewrite (idx_nth_d 0) by (unfold vi; rewrite HN; assumption). cbn [bind].
    pose proof (positions_length_mono vi (S j) N ltac:(lia)) as Hm.
    rewrite positions_S in Hm |- *.
    destruct (negb (nth j vi 0 =? 0)).
    + rewrite length_app in Hm. cbn [length] in Hm.
      subst off. rewrite Nat2Z.id.
      rewrite upd_insert by lia. cbn [bind].
      eexists. split; [reflexivity|]. cbn [fst snd].
      assert (Hj8 : u8 (Z.of_nat j) = Z.of_nat j).
      { unfold u8. apply Z.mod_small. unfold N in Hj. change (2 ^ 8) with 256. lia. }
      rewrite Hj8, length_app. cbn [length].
      split; [|split; [|split; [|split]]].
      * unfold u8. rewrite Z.mod_small by (change (2 ^ 8) with 256; lia). lia.
      * rewrite length_insert. exact Hl.
      * apply is_bytes_insert; [exact Hy|]. unfold N in Hj. lia.
      * intros y Hyy. rewrite nth_insert_ne by lia. apply Hu. lia.
      * intros t Ht.
        destruct (Nat.eq_dec t (length (positions vi j))) as [-> | Hne].
        -- rewrite nth_insert_eq by lia. rewrite app_nth2 by lia.
           rewrite Nat.sub_diag. reflexivity.
        -- rewrite nth_insert_ne by lia. rewrite app_nth1 by lia. apply Hwr. lia.
    + rewrite app_nil_r. eexists. split; [reflexivity|]. cbn [fst snd].
      repeat split; assumption.
  - cbn [fst snd] in *. exists buf. rewrite E, HS. subst off.
    repeat split; assumption.
Qed.

(** The last loop zeroes the index bytes from off up to Omega. *)
Lemma pack_pad (buf : list Z) (o : nat) :
  (o <= Omega)%nat -> (Omega <= length buf)%nat -> is_bytes buf = true ->
  exists buf',
    for_range (Omega - o) o 1 (fun off buf => upd buf off 0) buf = Ok buf' /\
    length buf' = length buf /\ is_bytes buf' = true /\
    (forall x, (x < o \/ Omega <= x)%nat -> nth x buf' 0 = nth x buf 0) /\
    (forall x, (o <= x < Omega)%nat -> nth x buf' 0 = 0).
Proof.
  intros Ho Hb Hy.
  destruct (for_range_inv
    (fun t (b : list Z) =>
       length b = length buf /\ is_bytes b = true /\
       (forall x, (x < o \/ o + t <= x)%nat -> nth x b 0 = nth x buf 0) /\
       (forall x, (o <= x < o + t)%nat -> nth x b 0 = 0))
    (Omega - o) o 1 (fun off buf => upd buf off 0) buf)
    as (buf' & E & Hl & Hy' & Hu & Hz).
  - repeat split; try assumption; try reflexivity. intros x Hx. lia.
  - intros t b Ht (Hl & Hy' & Hu & Hz).
    rewrite upd_insert by lia. eexists. split; [reflexivity|].
    split; [rewrite length_insert; exact Hl|].
    split; [apply is_bytes_insert; [exact Hy' | lia]|].
    split.
    + intros x Hx. rewrite nth_insert_ne by lia. apply Hu. lia.
    + intros x Hx. destruct (Nat.eq_dec (o + 1 * t)%nat x) as [<- | Hne].
      * apply nth_insert_eq. lia.
      * rewrite nth_insert_ne by exact Hne. apply Hz. lia.
  - exists buf'. split; [exact E|]. split; [exact Hl|]. split; [exact Hy'|].
    split.
    + intros x Hx. apply Hu. lia.
    + intros x Hx. apply Hz. lia.
Qed.

(** What [PackHint] writes: the switch-over points, the positions of each
    element in turn, and zeroes up to Omega. *)
Lemma PackHint_spec (buf0 : list Z) :
  (Omega + K <= length buf0)%nat -> is_bytes buf0 = true ->
  exists buf',
    PackHint Omega K v buf0 = Ok buf' /\
    length buf' = length buf0 /\ is_bytes buf' = true /\
    (forall m, (m < K)%nat -> sop Omega buf' m = Z.of_nat (offs v (S m))) /\
    (forall m t, (m < K)%nat -> (t < length (positions (nth m v []) N))%nat ->
       nth (offs v m + t) buf' 0 = Z.of_nat (nth t (positions (nth m v []) N) O)) /\
    (forall x, (offs v K <= x < Omega)%nat -> nth x buf' 0 = 0).
Proof.
  intros Hb0 Hy0. unfold PackHint.
  match goal with |- context [for_range K ?i0 ?stp ?body ?s0] =>
    destruct (for_range_inv
      (fun i (x : list Z * Z) =>
         snd x = Z.of_nat (offs v i) /\
         length (fst x) = length buf0 /\ is_bytes (fst x) = true /\
         (forall m, (m < i)%nat ->
            nth (Omega + m) (fst x) 0 = Z.of_nat (offs v (S m))) /\
         (forall m t, (m < i)%nat -> (t < length (positions (nth m v []) N))%nat ->
            nth (offs v m + t) (fst x) 0 =
            Z.of_nat (nth t (positions (nth m v []) N) O)))
      K i0 stp body s0) as ((buf & off) & E & Ho & Hl & Hy & Hs & Hp)
  end.
  - cbn [fst snd]. repeat split; try assumption; intros; lia.
  - intros i [buf off] Hi (Ho & Hl & Hy & Hs & Hp). cbn [fst snd] in *.
    replace (0 + 1 * i)%nat with i by lia. subst off.
    destruct (pack_inner i buf Hi ltac:(lia) Hy) as (buf1 & E1 & Hl1 & Hy1 & Hu1 & Hw1).
    rewrite E1. cbn [bind].
    pose proof (offs_le_Omega (S i) ltac:(lia)) as HSO.
    pose proof (offs_mono v i (S i) ltac:(lia) ltac:(lia)) as Hmono.
    rewrite upd_insert by lia. cbn [bind].
    eexists. split; [reflexivity|]. cbn [fst snd].
    split; [reflexivity|].
    split; [rewrite length_insert; lia|].
    split; [apply is_bytes_insert; [exact Hy1 | lia]|].
    split.
    + intros m Hm. destruct (Nat.eq_dec i m) as [<- | Hne].
      * apply nth_insert_eq. lia.
      * rewrite nth_insert_ne by lia. rewrite Hu1 by lia. apply Hs. lia.
    + intros m t Hm Ht.
      assert (Hlt : (offs v m + t < offs v (S m))%nat) by (rewrite offs_S; lia).
      pose proof (offs_le_Omega (S m) ltac:(lia)) as HSm.
      rewrite nth_insert_ne by lia.
      destruct (Nat.eq_dec i m) as [<- | Hne].
      * apply Hw1. exact Ht.
      * pose proof (offs_mono v (S m) i ltac:(lia) ltac:(lia)).
        rewrite Hu1 by lia. apply Hp; [lia | exact Ht].
  - cbn [fst snd] in *. rewrite E. cbn [bind]. subst off. rewrite Nat2Z.id.
    pose proof (offs_le_Omega K ltac:(lia)) as HKO.
    destruct (pack_pad buf (offs v K) HKO ltac:(lia) Hy) as (buf' & E' & Hl' & Hy' & Hu' & Hz').
    exists buf'. split; [exact E'|]. split; [lia|]. split; [exact Hy'|].
    split; [|split].
    + intros m Hm. unfold sop. rewrite Hu' by lia. apply Hs. exact Hm.
    + intros m t Hm Ht.
      assert (Hlt : (offs v m + t < offs v (S m))%nat) by (rewrite offs_S; lia).
      pose proof (offs_mono v (S m) K ltac:(lia) ltac:(lia)).
      rewrite Hu' by lia. apply Hp; assumption.
    + exact Hz'.
Qed.

End Pack.

Lemma ones_at_positions (vi : list Z) :
  length vi = N -> coeffs_in 0 2 vi = true ->
  ones_at (positions vi N) zeroPoly = vi.
Proof.
  intros Hl Hc. apply (nth_ext _ _ 0 0).
  - rewrite length_ones_at. unfold zeroPoly. rewrite repeat_length. lia.
  - intros c Hlt. rewrite length_ones_at in Hlt. unfold zeroPoly in Hlt.
    rewrite repeat_length in Hlt.
    rewrite nth_ones_at by (unfold zeroPoly; rewrite repeat_length; exact Hlt).
    rewrite nth_zeroPoly.
    pose proof (coeffs_in_nth 0 2 vi c Hc ltac:(lia)) as Hr.
    destruct (existsb (Nat.eqb c) (positions vi N)) eqn:E.
    + apply existsb_exists in E. destruct E as (x & Hin & Hx).
      apply Nat.eqb_eq in Hx. subst x. apply positions_In in Hin. lia.
    + destruct (Z.eq_dec (nth c vi 0) 0) as [E0 | E0]; [lia|].
      assert (Hin : In c (positions vi N)) by (apply positions_In; split; assumption).
      assert (Ht : existsb (Nat.eqb c) (positions vi N) = true).
      { apply existsb_exists. exists c. split; [exact Hin | apply Nat.eqb_refl]. }
      congruence.
Qed.

Lemma is_hint_spec (K : nat) (v : list (list Z)) :
  is_hint K v = true ->
  length v = K /\
  forall i, (i < K)%nat ->
    length (nth i v []) = N /\ coeffs_in 0 2 (nth i v []) = true.
Proof.
  unfold is_hint. rewrite andb_true_iff, Nat.eqb_eq, forallb_forall.
  intros [Hl Hf]. split; [exact Hl|]. intros i Hi.
  specialize (Hf (nth i v []) ltac:(apply nth_In; lia)).
  apply andb_true_iff in Hf. destruct Hf as [H1 H2].
  apply Nat.eqb_eq in H1. split; assumption.
Qed.

(** Packing a hint vector and unpacking the buffer gives the vector back,
    and the unpacking succeeds. *)
Lemma Hint_roundtrip (Omega K : nat) (v v0 : list (list Z)) (buf : list Z) :
  (Omega <= 255)%nat -> is_hint K v = true -> (weight v <= Omega)%nat ->
  (Omega + K <= length buf)%nat -> is_bytes buf = true ->
  exists buf', PackHint Omega K v buf = Ok buf' /\ length buf' = length buf /\
               UnpackHint Omega K v0 buf' = Ok (v, true).
Proof.
  intros HO Hh Hw Hb Hy.
  destruct (is_hint_spec K v Hh) as [HK HNC].
  assert (HN : forall i, (i < K)%nat -> length (nth i v []) = N)
    by (intros i Hi; apply HNC; exact Hi).
  destruct (PackHint_spec Omega K v HO HK HN Hw buf Hb Hy)
    as (buf' & E & Hl & Hy' & Hs & Hp & Hz).
  exists buf'. split; [exact E|]. split; [exact Hl|].
  destruct (UnpackHint_char Omega K buf' HO ltac:(lia) Hy' v0) as (v' & E' & _ & Hdec).
  assert (Hprev : forall k, (k <= K)%nat -> prev_sop Omega buf' k = Z.of_nat (offs v k)).
  { intros [|k] Hk; [reflexivity|]. cbn [prev_sop]. apply Hs. lia. }
  assert (Hlenk : forall k, (k < K)%nat ->
            (offs v (S k) - offs v k)%nat = length (positions (nth k v []) N)).
  { intros k Hk. rewrite offs_S by lia. lia. }
  assert (Hvalid : hint_valid Omega K buf' = true).
  { unfold hint_valid. apply andb_true_iff. split.
    - apply forallb_forall. intros k Hk. apply in_seq in Hk.
      unfold elem_ok, sop_ok. rewrite Hprev, Hs by lia.
      pose proof (offs_mono v k (S k) ltac:(lia) ltac:(lia)).
      pose proof (offs_le_Omega Omega K v HO HK Hw (S k) ltac:(lia)).
      apply andb_true_iff. split.
      + apply andb_true_iff. split; apply Z.leb_le; lia.
      + rewrite !Nat2Z.id. unfold incr_ok. apply forallb_forall. intros j Hj.
        apply in_seq in Hj. apply Z.ltb_lt.
        replace j with (offs v k + S (j - offs v k - 1))%nat at 2 by lia.
        replace (j - 1)%nat with (offs v k + (j - offs v k - 1))%nat by lia.
        rewrite !Hp by (rewrite <- ?Hlenk by lia; lia).
        apply inj_lt. apply positions_incr. rewrite <- Hlenk by lia. lia.
    - unfold pad_ok. rewrite Hprev by lia. rewrite Nat2Z.id.
      apply forallb_forall. intros j Hj. apply in_seq in Hj.
      apply Z.eqb_eq. apply Hz. lia. }
  rewrite Hvalid in E'. rewrite E'. do 2 f_equal.
  rewrite (Hdec Hvalid). unfold decode_hint.
  apply (nth_ext _ _ [] []).
  - rewrite length_map, length_seq. lia.
  - intros k Hk. rewrite length_map, length_seq in Hk.
    rewrite nth_map_seq by exact Hk.
    rewrite Hprev, Hs by lia. rewrite !Nat2Z.id.
    unfold elem_upto. rewrite Hlenk by exact Hk.
    destruct (HNC k Hk) as [HNk HCk].
    rewrite <- (ones_at_positions (nth k v []) HNk HCk) at 2.
    f_equal. apply (nth_ext _ _ O O).
    + rewrite length_map, length_seq. reflexivity.
    + intros t Ht. rewrite length_map, length_seq in Ht.
      rewrite (nth_indep _ O (Z.to_nat (nth O buf' 0)))
        by (rewrite length_map, length_seq; exact Ht).
      rewrite (map_nth (fun j => Z.to_nat (nth j buf' 0))), seq_nth by exact Ht.
      rewrite Hp by assumption. apply Nat2Z.id.
Qed.

End PackHintFacts.

(** ** The challenge codec *)

Module B60Facts.
Import Common Mode3 B60Spec SliceFacts CommonFacts Mode3Facts LoopFacts HintFacts.

Lemma length_zeroPoly : length zeroPoly = N.
Proof. apply repeat_length. Qed.

(** The two loops of [UnpackB60] keep the length of p, so they never index
    out of range. *)
Lemma UnpackB60_loops (buf : list Z) (p : list Z) (signs : Z) :
  (32 <= length buf)%nat -> length p = N ->
  exists s,
    for_range 32 0 1 (fun i '(p, signs) =>
      for_range 8 0 1 (fun j '(p, signs) =>
        bi <- idx buf i ;;
        if Z.land (shr bi (Z.of_nat j)) 1 =? 1 then
          p <- upd p (8 * i + j) 1 ;;
          c <- idx p (8 * i + j) ;;
          p <- upd p (8 * i + j)
                 (Z.lxor c (Z.land (u32 (u64 (- Z.land signs 1))) (Z.lor 1 (Q - 1)))) ;;
          Ok (p, shr signs 1)
        else Ok (p, signs)) (p, signs)) (p, signs) = Ok s /\
    length (fst s) = N.
Proof.
  intros Hb Hp.
  match goal with |- context [for_range 32 ?i0 ?stp ?body ?s0] =>
    destruct (for_range_inv (fun _ (x : list Z * Z) => length (fst x) = N)
                32 i0 stp body s0) as (s & E & Hs)
  end.
  - exact Hp.
  - intros i [pc sg] Hi Hl. cbn [fst] in Hl.
    match goal with |- context [for_range 8 ?i0 ?stp ?body ?s0] =>
      destruct (for_range_inv (fun _ (x : list Z * Z) => length (fst x) = N)
                  8 i0 stp body s0) as (s & E & Hs)
    end.
    + exact Hl.
    + intros j [pc' sg'] Hj Hl'. cbn [fst] in Hl'.
      rewrite (idx_nth_d 0) by lia. cbn [bind].
      destruct (_ =? 1).
      * unfold N in Hl'. rewrite upd_insert by lia. cbn [bind].
        rewrite (idx_nth_d 0) by (rewrite length_insert; lia). cbn [bind].
        rewrite upd_insert by (rewrite length_insert; lia). cbn [bind].
        eexists. split; [reflexivity|]. cbn [fst]. rewrite !length_insert. exact Hl'.
      * eexists. split; [reflexivity|]. exact Hl'.
    + exists s. split; [exact E | exact Hs].
  - exists s. split; [exact E | exact Hs].
Qed.

(** The flag [UnpackB60] returns, and the polynomial it leaves on failure. *)
Lemma UnpackB60_flag (buf p0 : list Z) :
  (40 <= length buf)%nat ->
  exists p, UnpackB60 p0 buf = Ok (p, shr (sign_field buf) 60 =? 0) /\
            length p = N /\
            ((shr (sign_field buf) 60 =? 0) = false -> p = zeroPoly).
Proof.
  intros Hb. unfold UnpackB60. cbv zeta.
  rewrite le_uint64_word by lia. cbn [bind]. fold (sign_field buf).
  destruct (shr (sign_field buf) 60 =? 0) eqn:E; cbn [negb].
  - destruct (UnpackB60_loops buf zeroPoly (sign_field buf) ltac:(lia) length_zeroPoly)
      as (s & Es & Hs).
    rewrite Es. cbn [bind]. exists (fst s). split; [reflexivity|].
    split; [exact Hs | discriminate].
  - exists zeroPoly. split; [reflexivity|]. split; [apply length_zeroPoly | reflexivity].
Qed.

Lemma sign_bits_nonneg (l : list Z) : 0 <= sign_bits l.
Proof.
  induction l as [|c l IH]; cbn [sign_bits]; [lia|].
  destruct (c =? 0); [exact IH|]. destruct (c =? Q - 1); lia.
Qed.

Lemma drop_nth (p : list Z) (n : nat) :
  (n < length p)%nat -> drop n p = nth n p 0 :: drop (S n) p.
Proof.
  revert n. induction p as [|x p IH]; intros n Hn; cbn [length] in Hn; [lia|].
  destruct n as [|n]; [reflexivity|]. cbn [drop nth]. apply IH. lia.
Qed.

Lemma length_pref (p : list Z) (n : nat) :
  length p = N -> (n <= N)%nat -> length (pref p n) = N.
Proof.
  intros Hp Hn. unfold pref. rewrite length_app, length_take, repeat_length. lia.
Qed.

Lemma nth_pref (p : list Z) (n x : nat) :
  length p = N -> (n <= N)%nat ->
  nth x (pref p n) 0 = if (x <? n)%nat then nth x p 0 else 0.
Proof.
  intros Hp Hn. unfold pref. destruct (Nat.ltb_spec x n).
  - rewrite app_nth1 by (rewrite length_take; lia).
    rewrite <- (take_drop n p) at 2. rewrite app_nth1 by (rewrite length_take; lia).
    reflexivity.
  - rewrite app_nth2 by (rewrite length_take; lia). apply nth_repeat.
Qed.

Lemma pref_step (p : list Z) (n : nat) :
  length p = N -> (n < N)%nat ->
  <[n := nth n p 0]> (pref p n) = pref p (S n).
Proof.
  intros Hp Hn. apply (nth_ext _ _ 0 0).
  - rewrite length_insert, !length_pref by (assumption || lia). reflexivity.
  - intros x Hx. rewrite length_insert, length_pref in Hx by (assumption || lia).
    rewrite (nth_pref p (S n)) by (assumption || lia).
    destruct (Nat.eq_dec n x) as [<- | Hne].
    + rewrite nth_insert_eq by (rewrite length_pref by (assumption || lia); lia).
      destruct (Nat.ltb_spec n (S n)); [reflexivity | lia].
    + rewrite nth_insert_ne by exact Hne. rewrite nth_pref by (assumption || lia).
      destruct (Nat.ltb_spec x n), (Nat.ltb_spec x (S n)); try reflexivity; lia.
Qed.

Lemma pref_skip (p : list Z) (n : nat) :
  length p = N -> (n < N)%nat -> nth n p 0 = 0 -> pref p n = pref p (S n).
Proof.
  intros Hp Hn H0. apply (nth_ext _ _ 0 0).
  - rewrite !length_pref by (assumption || lia). reflexivity.
  - intros x Hx. rewrite !nth_pref by (assumption || lia).
    destruct (Nat.ltb_spec x n), (Nat.ltb_spec x (S n)); try reflexivity; try lia.
    replace x with n by lia. symmetry. exact H0.
Qed.

Lemma pref_full (p : list Z) : length p = N -> pref p N = p.
Proof.
  intros Hp. unfold pref. rewrite Nat.sub_diag, app_nil_r, <- Hp. apply firstn_all.
Qed.

Lemma land1_testbit (b : Z) (j : nat) :
  (Z.land (shr b (Z.of_nat j)) 1 =? 1) = Z.testbit b (Z.of_nat j).
Proof.
  unfold shr. rewrite Z.testbit_odd. change 1 with (Z.ones 1) at 1.
  rewrite Z.land_ones by lia. change (2 ^ 1) with 2. rewrite Zmod_odd.
  destruct (Z.odd _); reflexivity.
Qed.

Lemma challenge_coeff (p : list Z) (n : nat) :
  forallb (fun c => (c =? 0) || (c =? 1) || (c =? Q - 1)) p = true ->
  (n < length p)%nat ->
  nth n p 0 = 0 \/ nth n p 0 = 1 \/ nth n p 0 = Q - 1.
Proof.
  rewrite forallb_forall. intros H Hn.
  specialize (H (nth n p 0) (nth_In p 0 Hn)).
  rewrite !orb_true_iff, !Z.eqb_eq in H. tauto.
Qed.

(** One step of the inner loop of [UnpackB60] on the coefficient c whose
    mask bit is set: the sign stream [b + 2 r] yields 1 or Q - 1. *)
Lemma sign_step (b r : Z) :
  (b = 0 \/ b = 1) -> 0 <= r ->
  Z.lxor 1 (Z.land (u32 (u64 (- Z.land (b + 2 * r) 1))) (Z.lor 1 (Q - 1))) =
    (if b =? 1 then Q - 1 else 1) /\
  shr (b + 2 * r) 1 = r.
Proof.
  intros Hb Hr. split.
  - change 1 with (Z.ones 1) at 2. rewrite Z.land_ones by lia. change (2 ^ 1) with 2.
    replace ((b + 2 * r) mod 2) with b by (Z.div_mod_to_equations; lia).
    destruct Hb as [-> | ->]; reflexivity.
  - unfold shr. rewrite Z.shiftr_div_pow2 by lia. change (2 ^ 1) with 2.
    Z.div_mod_to_equations. lia.
Qed.

(** [UnpackB60] on a buffer whose mask marks the nonzero coefficients of p
    and whose sign field is the sign stream of p. *)
Lemma UnpackB60_decodes (p buf p0 : list Z) :
  length p = N ->
  forallb (fun c => (c =? 0) || (c =? 1) || (c =? Q - 1)) p = true ->
  (40 <= length buf)%nat ->
  (forall i j, (i < 32)%nat -> (j < 8)%nat ->
     Z.testbit (nth i buf 0) (Z.of_nat j) = negb (nth (8 * i + j) p 0 =? 0)) ->
  sign_field buf = sign_bits p -> sign_bits p < 2 ^ 60 ->
  UnpackB60 p0 buf = Ok (p, true).
Proof.
  intros Hp Hc Hb HM HS Hlt. unfold UnpackB60. cbv zeta.
  rewrite le_uint64_word by lia. cbn [bind]. fold (sign_field buf). rewrite HS.
  assert (E60 : (shr (sign_bits p) 60 =? 0) = true).
  { apply Z.eqb_eq. unfold shr. rewrite Z.shiftr_div_pow2 by lia.
    apply Z.div_small. split; [apply sign_bits_nonneg | exact Hlt]. }
  rewrite E60. cbn [negb].
  match goal with |- context [for_range 32 ?i0 ?stp ?body ?s0] =>
    destruct (for_range_inv
      (fun i (x : list Z * Z) =>
         fst x = pref p (8 * i) /\ snd x = sign_bits (drop (8 * i) p))
      32 i0 stp body s0) as ((pc & sg) & E & Hpc & Hsg)
  end.
  - cbn [fst snd]. split; reflexivity.
  - intros i [pc sg] Hi [Hpc Hsg]. cbn [fst snd] in *. subst pc sg.
    replace (0 + 1 * i)%nat with i by lia.
    match goal with |- context [for_range 8 ?i0 ?stp ?body ?s0] =>
      destruct (for_range_inv
        (fun j (x : list Z * Z) =>
           fst x = pref p (8 * i + j) /\ snd x = sign_bits (drop (8 * i + j) p))
        8 i0 stp body s0) as ((pc & sg) & E & Hpc & Hsg)
    end.
    + cbn [fst snd]. rewrite Nat.add_0_r. split; reflexivity.
    + intros j [pc sg] Hj [Hpc Hsg]. cbn [fst snd] in *. subst pc sg.
      replace (0 + 1 * j)%nat with j by lia.
      rewrite (idx_nth_d 0) by lia. cbn [bind].
      rewrite land1_testbit, HM by lia.
      set (n := (8 * i + j)%nat).
      assert (Hn : (n < N)%nat) by (unfold N; lia).
      rewrite (drop_nth p n) by lia. cbn [sign_bits].
      destruct (Z.eqb_spec (nth n p 0) 0) as [E0 | E0]; cbn [negb].
      * eexists. split; [reflexivity|]. cbn [fst snd].
        replace (8 * i + S j)%nat with (S n) by lia.
        split; [apply pref_skip; assumption | reflexivity].
      * rewrite upd_insert by (rewrite length_pref by (assumption || lia); exact Hn).
        cbn [bind].
        rewrite (idx_nth_d 0)
          by (rewrite length_insert, length_pref by (assumption || lia); exact Hn).
        cbn [bind].
        rewrite nth_insert_eq by (rewrite length_pref by (assumption || lia); exact Hn).
        rewrite upd_insert
          by (rewrite length_insert, length_pref by (assumption || lia); exact Hn).
        cbn [bind]. rewrite insert_insert_same.
        destruct (sign_step (if nth n p 0 =? Q - 1 then 1 else 0)
                            (sign_bits (drop (S n) p))) as [E1 E2].
        { destruct (nth n p 0 =? Q - 1); [right | left]; reflexivity. }
        { apply sign_bits_nonneg. }
        rewrite E1, E2. eexists. split; [reflexivity|]. cbn [fst snd].
        replace (8 * i + S j)%nat with (S n) by lia.
        split; [|reflexivity].
        rewrite <- (pref_step p n Hp Hn). f_equal.
        destruct (challenge_coeff p n Hc ltac:(lia)) as [H0 | [H1 | HQ]].
        -- contradiction.
        -- rewrite H1. reflexivity.
        -- rewrite HQ. reflexivity.
    + eexists. split; [exact E|]. cbn [fst snd] in *.
      replace (8 * S i)%nat with (8 * i + 8)%nat by lia. split; assumption.
  - rewrite E. cbn [bind fst snd] in *. subst pc.
    change (8 * 32)%nat with N. rewrite pref_full by exact Hp. reflexivity.
Qed.

End B60Facts.

(** ** Packing a challenge *)

Module PackB60Facts.
Import Common Mode3 B60Spec SliceFacts CommonFacts Mode3Facts LoopFacts HintFacts.
Import PackHintFacts B60Facts.

Lemma nonzeros_app (l l' : list Z) :
  nonzeros (l ++ l') = (nonzeros l + nonzeros l')%nat.
Proof. unfold nonzeros. rewrite List.filter_app, length_app. reflexivity. Qed.

Lemma nonzeros_take_S (p : list Z) (n : nat) :
  (n < length p)%nat ->
  nonzeros (take (S n) p) =
  (nonzeros (take n p) + if (nth n p 0%Z =? 0)%Z then O else 1%nat)%nat.
Proof.
  intros Hn. rewrite (take_S_nth 0) by exact Hn. rewrite nonzeros_app.
  unfold nonzeros at 2. cbn [List.filter].
  destruct (nth n p 0 =? 0); reflexivity.
Qed.

Lemma nonzeros_take_le (p : list Z) (n : nat) :
  (nonzeros (take n p) <= nonzeros p)%nat.
Proof.
  rewrite <- (take_drop n p) at 2. rewrite nonzeros_app. lia.
Qed.

Lemma sign_bits_snoc (l : list Z) (c : Z) :
  sign_bits (l ++ [c]) =
  sign_bits l +
  (if c =? 0 then 0
   else (if c =? Q - 1 then 1 else 0) * 2 ^ Z.of_nat (nonzeros l)).
Proof.
  induction l as [|x l IH].
  - cbn [app sign_bits]. unfold nonzeros. cbn [List.filter length].
    destruct (c =? 0); [reflexivity|]. change (2 ^ Z.of_nat 0) with 1. lia.
  - cbn [app sign_bits]. rewrite IH. unfold nonzeros. cbn [List.filter].
    destruct (x =? 0); cbn [negb]; [reflexivity|].
    cbn [length]. rewrite Nat2Z.inj_succ, Z.pow_succ_r by lia.
    destruct (c =? 0); [lia|]. lia.
Qed.

Lemma sign_bits_bound (l : list Z) : sign_bits l < 2 ^ Z.of_nat (nonzeros l).
Proof.
  induction l as [|x l IH].
  - reflexivity.
  - cbn [sign_bits]. unfold nonzeros in *. cbn [List.filter].
    destruct (x =? 0); cbn [negb]; [exact IH|].
    cbn [length]. rewrite Nat2Z.inj_succ, Z.pow_succ_r by lia.
    destruct (x =? Q - 1); lia.
Qed.

Lemma lor_pow2 (a k : Z) : 0 <= k -> 0 <= a < 2 ^ k -> Z.lor a (2 ^ k) = a + 2 ^ k.
Proof.
  intros Hk Ha. apply Z.or_to_plus.
  apply Z.bits_inj'. intros n Hn. rewrite Z.land_spec, Z.bits_0.
  rewrite Z.pow2_bits_eqb by exact Hk.
  destruct (Z.eqb_spec k n) as [<- | Hne]; [|apply andb_false_r].
  rewrite andb_true_r. rewrite <- (Z.mod_small a (2 ^ k)) by exact Ha.
  apply Z.mod_pow2_bits_high. lia.
Qed.

Lemma testbit_shl8_1 (j b : Z) :
  0 <= j < 8 -> 0 <= b -> Z.testbit (shl8 1 j) b = (b =? j).
Proof.
  intros Hj Hb. unfold shl8, u8. rewrite Z.shiftl_1_l.
  rewrite Z.mod_small.
  - rewrite Z.pow2_bits_eqb by lia. rewrite Z.eqb_sym. reflexivity.
  - split; [apply Z.pow_nonneg; lia|]. apply Z.pow_lt_mono_r; lia.
Qed.

Lemma shl64_pow2 (k : Z) : 0 <= k < 63 -> shl64 (2 ^ k) 1 = 2 ^ (k + 1).
Proof.
  intros Hk. unfold shl64, u64. rewrite Z.shiftl_mul_pow2 by lia.
  change (2 ^ 1) with 2. rewrite Z.pow_add_r by lia. change (2 ^ 1) with 2.
  apply Z.mod_small. split.
  - apply Z.mul_nonneg_nonneg; [apply Z.pow_nonneg|]; lia.
  - replace (2 ^ k * 2) with (2 ^ (k + 1)) by (rewrite Z.pow_add_r by lia; reflexivity).
    apply Z.pow_lt_mono_r; lia.
Qed.

Lemma word_of_bytes (s : Z) :
  0 <= s < 2 ^ 64 ->
  Z.lor (Z.lor (Z.lor (Z.lor (Z.lor (Z.lor (Z.lor
    (u8 (shr s (8 * 0))) (shl64 (u8 (shr s (8 * 1))) 8))
    (shl64 (u8 (shr s (8 * 2))) 16)) (shl64 (u8 (shr s (8 * 3))) 24))
    (shl64 (u8 (shr s (8 * 4))) 32)) (shl64 (u8 (shr s (8 * 5))) 40))
    (shl64 (u8 (shr s (8 * 6))) 48)) (shl64 (u8 (shr s (8 * 7))) 56) = s.
Proof.
  intros Hs. cbn [Z.mul Pos.mul]. bits.
Qed.

Section Pack.

Variables (p buf0 : list Z).
Hypothesis Hp : length p = N.
Hypothesis Hnz : (nonzeros p <= 60)%nat.
Hypothesis Hb0 : (40 <= length buf0)%nat.

Let nzt (n : nat) : Z := Z.of_nat (nonzeros (take n p)).

Lemma nzt_le (n : nat) : 0 <= nzt n <= 60.
Proof. unfold nzt. pose proof (nonzeros_take_le p n). lia. Qed.

Lemma signs_take_S (n : nat) :
  (n < N)%nat ->
  sign_bits (take (S n) p) =
  sign_bits (take n p) +
  (if nth n p 0 =? 0 then 0
   else (if nth n p 0 =? Q - 1 then 1 else 0) * 2 ^ nzt n).
Proof.
  intros Hn. rewrite (take_S_nth 0) by lia. apply sign_bits_snoc.
Qed.

Lemma nzt_S (n : nat) :
  (n < N)%nat -> nzt (S n) = nzt n + (if nth n p 0 =? 0 then 0 else 1).
Proof.
  intros Hn. unfold nzt. rewrite nonzeros_take_S by lia.
  destruct (nth n p 0 =? 0); lia.
Qed.

(** The scan of the eight coefficients of mask byte i. *)
Lemma pack_row (i : nat) (buf : list Z) :
  (i < 32)%nat -> length buf = length buf0 -> nth i buf 0 = 0 ->
  exists buf',
    for_range 8 0 1 (fun j '(buf, signs, mask) =>
      c <- idx p (8 * i + j) ;;
      if negb (c =? 0) then
        bi <- idx buf i ;;
        buf <- upd buf i (Z.lor bi (shl8 1 (Z.of_nat j))) ;;
        c <- idx p (8 * i + j) ;;
        let signs := if c =? Q - 1 then Z.lor signs mask else signs in
        Ok (buf, signs, shl64 mask 1)
      else Ok (buf, signs, mask))
      (buf, sign_bits (take (8 * i) p), 2 ^ nzt (8 * i)) =
    Ok (buf', sign_bits (take (8 * S i) p), 2 ^ nzt (8 * S i)) /\
    length buf' = length buf0 /\
    (forall x, x <> i -> nth x buf' 0 = nth x buf 0) /\
    (forall j, (j < 8)%nat ->
       Z.testbit (nth i buf' 0) (Z.of_nat j) = negb (nth (8 * i + j) p 0 =? 0)).
Proof.
  intros Hi Hl H0.
  match goal with |- context [for_range 8 ?i0 ?stp ?body ?s0] =>
    destruct (for_range_inv
      (fun j (x : list Z * Z * Z) =>
         snd (fst x) = sign_bits (take (8 * i + j) p) /\
         snd x = 2 ^ nzt (8 * i + j) /\
         length (fst (fst x)) = length buf0 /\
         (forall y, y <> i -> nth y (fst (fst x)) 0 = nth y buf 0) /\
         (forall b, 0 <= b ->
            Z.testbit (nth i (fst (fst x)) 0) b =
            (b <? Z.of_nat j) && negb (nth (8 * i + Z.to_nat b) p 0 =? 0)))
      8 i0 stp body s0) as (((buf' & sg) & mk) & E & Hsg & Hmk & Hl' & Hu & Ht)
  end.
  - cbn [fst snd]. rewrite Nat.add_0_r. repeat split; try assumption; try reflexivity.
    intros b Hb. rewrite H0, Z.bits_0.
    destruct (Z.ltb_spec b (Z.of_nat 0)); [lia | reflexivity].
  - intros j [[bf sg] mk] Hj (Hsg & Hmk & Hl' & Hu & Ht). cbn [fst snd] in *.
    subst sg mk. replace (0 + 1 * j)%nat with j by lia.
    set (n := (8 * i + j)%nat) in *.
    assert (Hn : (n < N)%nat) by (unfold N; lia).
    rewrite (idx_nth_d 0) by lia. cbn [bind].
    replace (8 * i + S j)%nat with (S n) by lia.
    rewrite signs_take_S, nzt_S by exact Hn.
    pose proof (nzt_le n) as Hz. pose proof (nzt_le (S n)) as HzS.
    rewrite nzt_S in HzS by exact Hn.
    destruct (Z.eqb_spec (nth n p 0) 0) as [E0 | E0]; cbn [negb].
    + eexists. split; [reflexivity|]. cbn [fst snd].
      rewrite !Z.add_0_r. repeat split; try assumption; try reflexivity.
      intros b Hb. rewrite Ht by exact Hb.
      destruct (Z.ltb_spec b (Z.of_nat j)), (Z.ltb_spec b (Z.of_nat (S j)));
        try reflexivity; try lia.
      replace (8 * i + Z.to_nat b)%nat with n by lia.
      rewrite E0. reflexivity.
    + rewrite (idx_nth_d 0) by lia. cbn [bind].
      rewrite upd_insert by lia. cbn [bind].
      eexists. split; [reflexivity|]. cbn [fst snd].
      split; [|split; [|split; [|split]]].
      * destruct (nth n p 0 =? Q - 1).
        -- rewrite lor_pow2; [lia | lia |].
           split; [apply sign_bits_nonneg | apply sign_bits_bound].
        -- lia.
      * apply shl64_pow2. lia.
      * rewrite length_insert. exact Hl'.
      * intros y Hy. rewrite nth_insert_ne by congruence. apply Hu. exact Hy.
      * intros b Hb. rewrite nth_insert_eq by lia.
        rewrite Z.lor_spec, Ht, testbit_shl8_1 by lia.
        destruct (Z.ltb_spec b (Z.of_nat j)), (Z.ltb_spec b (Z.of_nat (S j))),
                 (Z.eqb_spec b (Z.of_nat j)); cbn [andb orb]; try lia;
          try (rewrite orb_false_r; reflexivity).
        replace (8 * i + Z.to_nat b)%nat with n by lia.
        destruct (Z.eqb_spec (nth n p 0) 0); [contradiction | reflexivity].
  - cbn [fst snd] in *. exists buf'. subst sg mk.
    replace (8 * S i)%nat with (8 * i + 8)%nat by lia.
    split; [exact E|]. split; [exact Hl'|]. split; [exact Hu|].
    intros j Hj. rewrite Ht by lia. rewrite Nat2Z.id.
    destruct (Z.ltb_spec (Z.of_nat j) (Z.of_nat 8)); [reflexivity | lia].
Qed.

(** The last loop stores the sign field in bytes 32 to 39. *)
Lemma pack_signs (buf : list Z) (signs : Z) :
  length buf = length buf0 -> 0 <= signs < 2 ^ 64 ->
  exists buf',
    for_range 8 0 1 (fun i buf =>
      upd buf (i + 32) (u8 (shr signs (8 * Z.of_nat i)))) buf = Ok buf' /\
    length buf' = length buf0 /\
    (forall x, (x < 32)%nat -> nth x buf' 0 = nth x buf 0) /\
    sign_field buf' = signs.
Proof.
  intros Hl Hs.
  destruct (for_range_inv
    (fun t (b : list Z) =>
       length b = length buf0 /\
       (forall x, (x < 32)%nat -> nth x b 0 = nth x buf 0) /\
       (forall k, (k < t)%nat -> nth (32 + k) b 0 = u8 (shr signs (8 * Z.of_nat k))))
    8 0 1 (fun i buf => upd buf (i + 32) (u8 (shr signs (8 * Z.of_nat i)))) buf)
    as (buf' & E & Hl' & Hu & Hk).
  - repeat split; try assumption; try reflexivity. intros k Hk. lia.
  - intros t b Ht (Hl' & Hu & Hk).
    replace (0 + 1 * t)%nat with t by lia.
    rewrite upd_insert by lia. eexists. split; [reflexivity|].
    split; [rewrite length_insert; exact Hl'|]. split.
    + intros x Hx. rewrite nth_insert_ne by lia. apply Hu. exact Hx.
    + intros k Hkt. destruct (Nat.eq_dec k t) as [-> | Hne].
      * replace (32 + t)%nat with (t + 32)%nat by lia. apply nth_insert_eq. lia.
      * rewrite nth_insert_ne by lia. apply Hk. lia.
  - exists buf'. split; [exact E|]. split; [exact Hl'|]. split; [exact Hu|].
    unfold sign_field, word.
    rewrite <- (Nat.add_0_r 32) at 1.
    rewrite !Hk by lia. cbn [Z.of_nat Pos.of_succ_nat Pos.succ].
    apply word_of_bytes. exact Hs.
Qed.

(** What [PackB60] writes: the mask of the nonzero coefficients and the
    sign stream. *)
Lemma PackB60_spec :
  exists buf',
    PackB60 p buf0 = Ok buf' /\ length buf' = length buf0 /\
    (forall i j, (i < 32)%nat -> (j < 8)%nat ->
       Z.testbit (nth i buf' 0) (Z.of_nat j) = negb (nth (8 * i + j) p 0 =? 0)) /\
    sign_field buf' = sign_bits p.
Proof.
  unfold PackB60.
  match goal with |- context [for_range 32 ?i0 ?stp ?body ?s0] =>
    destruct (for_range_inv
      (fun i (x : list Z * Z * Z) =>
         snd (fst x) = sign_bits (take (8 * i) p) /\
         snd x = 2 ^ nzt (8 * i) /\
         length (fst (fst x)) = length buf0 /\
         (forall i' j, (i' < i)%nat -> (j < 8)%nat ->
            Z.testbit (nth i' (fst (fst x)) 0) (Z.of_nat j) =
            negb (nth (8 * i' + j) p 0 =? 0)))
      32 i0 stp body s0) as (((buf & sg) & mk) & E & Hsg & Hmk & Hl & Ht)
  end.
  - cbn [fst snd]. repeat split; try reflexivity. intros i' j Hi'. lia.
  - intros i [[bf sg] mk] Hi (Hsg & Hmk & Hl & Ht). cbn [fst snd] in *.
    subst sg mk. replace (0 + 1 * i)%nat with i by lia.
    rewrite upd_insert by lia. cbn [bind].
    destruct (pack_row i (<[i := 0]> bf) Hi)
      as (buf' & E & Hl' & Hu & Hr).
    { rewrite length_insert. exact Hl. }
    { apply nth_insert_eq. lia. }
    cbv zeta in E. rewrite E. eexists. split; [reflexivity|]. cbn [fst snd].
    repeat split; try assumption; try reflexivity.
    intros i' j Hi' Hj. destruct (Nat.eq_dec i' i) as [-> | Hne].
    + apply Hr. exact Hj.
    + rewrite Hu by exact Hne. rewrite nth_insert_ne by congruence.
      apply Ht; [lia | exact Hj].
  - cbn [fst snd] in *. rewrite E. cbn [bind]. subst sg.
    change (8 * 32)%nat with N in *. rewrite <- Hp, firstn_all in *.
    destruct (pack_signs buf (sign_bits p) Hl) as (buf' & E' & Hl' & Hu & Hs).
    { split; [apply sign_bits_nonneg|].
      pose proof (sign_bits_bound p) as Hbd.
      assert (2 ^ Z.of_nat (nonzeros p) <= 2 ^ 60) by (apply Z.pow_le_mono_r; lia).
      assert (2 ^ 60 < 2 ^ 64) by reflexivity. lia. }
    exists buf'. split; [exact E'|]. split; [exact Hl'|]. split; [|exact Hs].
    intros i j Hi Hj. rewrite Hu by exact Hi. apply Ht; assumption.
Qed.

End Pack.

(** Packing a challenge and unpacking the buffer gives the challenge back,
    and the unpacking succeeds. *)
Lemma B60_roundtrip (p p0 buf : list Z) :
  is_challenge p = true -> (40 <= length buf)%nat ->
  exists buf', PackB60 p buf = Ok buf' /\ length buf' = length buf /\
               UnpackB60 p0 buf' = Ok (p, true).
Proof.
  intros Hc Hb. unfold is_challenge in Hc.
  rewrite !andb_true_iff, !Nat.eqb_eq in Hc. destruct Hc as [[Hp Hco] Hnz].
  destruct (PackB60_spec p buf Hp ltac:(lia) Hb) as (buf' & E & Hl & HM & HS).
  exists buf'. split; [exact E|]. split; [exact Hl|].
  apply UnpackB60_decodes; try assumption; [lia|].
  pose proof (sign_bits_bound p) as Hbd. rewrite Hnz in Hbd. exact Hbd.
Qed.

End PackB60Facts.

(** ** The samplers *)

Module SampleFacts.
Import Common Sample SliceFacts LoopFacts.

Lemma le_uint64_ok (buf : list Z) (i : nat) :
  (i + 7 < length buf)%nat -> exists t, le_uint64 buf i = Ok t.
Proof.
  intros Hi. eexists. apply Mode3Facts.le_uint64_word. exact Hi.
Qed.

Lemma length_squeeze (h : nat -> Z) (pos n : nat) : length (squeeze h pos n) = n.
Proof. unfold squeeze. rewrite length_map, length_seq. reflexivity. Qed.

(** [DeriveNoise3] runs to the end on every seed and nonce. *)
Lemma DeriveNoise3_ok (shake256 : list Z -> nat -> Z) (p seed : list Z) (nonce : Z) :
  length p = N ->
  exists p', DeriveNoise3 shake256 p seed nonce = Ok p' /\ length p' = N.
Proof.
  intros Hp. unfold DeriveNoise3. cbv zeta.
  set (buf := squeeze _ 0 192 ++ [0; 0]).
  assert (Hbuf : length buf = 194%nat)
    by (subst buf; rewrite length_app, length_squeeze; reflexivity).
  apply (for_range_inv (fun _ (q : list Z) => length q = N)); [exact Hp|].
  intros i q Hi Hq.
  destruct (le_uint64_ok buf (6 * (0 + 1 * i))) as (t & Et); [lia|].
  rewrite Et. cbn [bind].
  match goal with |- context [for_range 8 ?i0 ?stp ?body ?s0] =>
    destruct (for_range_inv (fun _ (x : list Z * Z) => length (fst x) = N)
                8 i0 stp body s0) as (s & E & Hs)
  end.
  - exact Hq.
  - intros j [q' d] Hj Hq'. cbn [fst] in Hq'. unfold N in Hq'.
    rewrite upd_insert by lia. cbn [bind]. eexists. split; [reflexivity|].
    cbn [fst]. rewrite length_insert. exact Hq'.
  - rewrite E. cbn [bind]. eexists. split; [reflexivity | exact Hs].
Qed.

(** [DeriveNoise2] runs to the end on every seed and nonce. *)
Lemma DeriveNoise2_ok (shake256 : list Z -> nat -> Z) (p seed : list Z) (nonce : Z) :
  length p = N ->
  exists p', DeriveNoise2 shake256 p seed nonce = Ok p' /\ length p' = N.
Proof.
  intros Hp. unfold DeriveNoise2. cbv zeta.
  set (buf := squeeze _ 0 128).
  assert (Hbuf : length buf = 128%nat) by (subst buf; apply length_squeeze).
  apply (for_range_inv (fun _ (q : list Z) => length q = N)); [exact Hp|].
  intros i q Hi Hq.
  destruct (le_uint64_ok buf (8 * (0 + 1 * i))) as (t & Et); [lia|].
  rewrite Et. cbn [bind].
  match goal with |- context [for_range 16 ?i0 ?stp ?body ?s0] =>
    destruct (for_range_inv (fun _ (x : list Z * Z) => length (fst x) = N)
                16 i0 stp body s0) as (s & E & Hs)
  end.
  - exact Hq.
  - intros j [q' d] Hj Hq'. cbn [fst] in Hq'. unfold N in Hq'.
    rewrite upd_insert by lia. cbn [bind]. eexists. split; [reflexivity|].
    cbn [fst]. rewrite length_insert. exact Hq'.
  - rewrite E. cbn [bind]. eexists. split; [reflexivity | exact Hs].
Qed.

(** *** DeriveUniform *)

Lemma int16_small (t : Z) : 0 <= t < 2 ^ 15 -> int16 t = t.
Proof.
  intros Ht. unfold int16. cbv zeta.
  rewrite Z.mod_small by (change (2 ^ 16) with 65536; change (2 ^ 15) with 32768 in Ht; lia).
  destruct (Z.ltb_spec t (2 ^ 15)); [reflexivity | lia].
Qed.

Lemma land_4095 (x : Z) : 0 <= Z.land x 4095 < 4096.
Proof.
  change 4095 with (Z.ones 12). rewrite Z.land_ones by lia.
  apply Z.mod_pos_bound. reflexivity.
Qed.

Lemma cand1_range (buf : list Z) (j : nat) : 0 <= cand1 buf j < 4096.
Proof. apply land_4095. Qed.

Lemma cand2_range (buf : list Z) (j : nat) : 0 <= cand2 buf j < 4096.
Proof. apply land_4095. Qed.

Lemma block_cands_S (buf : list Z) (k : nat) :
  block_cands buf (S k) =
  block_cands buf k ++ [cand1 buf (3 * k); cand2 buf (3 * k)].
Proof.
  unfold block_cands. rewrite seq_S, flat_map_app. cbn [flat_map Nat.add].
  rewrite app_nil_r. reflexivity.
Qed.

Lemma block_cands_prefix (buf : list Z) (k n : nat) :
  (k <= n)%nat -> exists rest, block_cands buf n = block_cands buf k ++ rest.
Proof.
  induction 1 as [|n Hn [rest IH]].
  - exists []. rewrite app_nil_r. reflexivity.
  - rewrite block_cands_S, IH. eexists. rewrite <- app_assoc. reflexivity.
Qed.

Lemma take_prefix {A : Type} (l rest : list A) (n : nat) :
  length l = n -> take n (l ++ rest) = l.
Proof.
  intros <-. rewrite firstn_app, Nat.sub_diag, firstn_all. cbn [take].
  apply app_nil_r.
Qed.

Lemma drop_nth_d {A : Type} (d : A) (p : list A) (n : nat) :
  (n < length p)%nat -> drop n p = nth n p d :: drop (S n) p.
Proof.
  revert n. induction p as [|x p IH]; intros n Hn; cbn [length] in Hn; [lia|].
  destruct n as [|n]; [reflexivity|]. cbn [drop nth]. apply IH. lia.
Qed.

(** Storing the next accepted candidate after the ones stored so far. *)
Lemma store_next (A p0 : list Z) (x : Z) :
  (length A < length p0)%nat ->
  upd (A ++ drop (length A) p0) (length A) x =
  Ok ((A ++ [x]) ++ drop (length (A ++ [x])) p0).
Proof.
  intros HA. rewrite upd_app_r0.
  rewrite (drop_nth_d 0) by exact HA. cbn [upd bind].
  rewrite <- app_assoc, length_app. cbn [app length].
  replace (length A + 1)%nat with (S (length A)) by lia. reflexivity.
Qed.

Section Uniform.

Variable Q : Z.

Notation acc_of := (accepted Q).

Lemma accepted_app (l l' : list Z) : acc_of (l ++ l') = acc_of l ++ acc_of l'.
Proof. apply List.filter_app. Qed.

Lemma accepted_range (l : list Z) (c : Z) :
  (forall x, In x l -> 0 <= x) -> In c (acc_of l) -> 0 <= c < Q.
Proof.
  intros Hl Hc. apply filter_In in Hc. destruct Hc as [Hin Hlt].
  apply Z.ltb_lt in Hlt. split; [apply Hl; exact Hin | exact Hlt].
Qed.

(** One block: either the N-th coefficient is reached ([Return], the
    [break]) or all the accepted candidates of the block are stored. *)
Lemma uniform_block_spec (buf p0 acc : list Z) :
  length buf = 168%nat -> length p0 = N -> (length acc < N)%nat ->
  let A := acc ++ acc_of (block_cands buf 56) in
  ((length A < N)%nat /\
   uniform_block Q buf (acc ++ drop (length acc) p0) (length acc) =
   Ok (Next (A ++ drop (length A) p0, length A))) \/
  ((N <= length A)%nat /\
   uniform_block Q buf (acc ++ drop (length acc) p0) (length acc) =
   Ok (Return (take N A, N))).
Proof.
  intros Hbuf Hp0 Hacc A. unfold uniform_block.
  change (iterations 168 3) with 56%nat.
  match goal with |- context [for_range_ret 56 ?i0 ?stp ?body ?s0] =>
    destruct (for_range_ret_inv
      (fun k (x : list Z * nat) =>
         let Ak := acc ++ acc_of (block_cands buf k) in
         (length Ak < N)%nat /\ x = (Ak ++ drop (length Ak) p0, length Ak))
      (fun _ (r : list Z * nat) => (N <= length A)%nat /\ r = (take N A, N))
      56 i0 stp body s0) as [(x & E & Hl & ->) | (r & k & E & Hk & Hl & ->)]
  end.
  - cbn [block_cands seq flat_map accepted List.filter]. rewrite app_nil_r.
    split; [exact Hacc | reflexivity].
  - intros k x Hk [Hl ->]. cbv zeta in Hl. cbv beta iota zeta.
    replace (0 + 3 * k)%nat with (3 * k)%nat by lia.
    rewrite !(idx_nth_d 0) by lia. cbn [bind].
    fold (cand1 buf (3 * k)). fold (cand2 buf (3 * k)).
    pose proof (cand1_range buf (3 * k)) as H1.
    pose proof (cand2_range buf (3 * k)) as H2.
    rewrite !int16_small by (change (2 ^ 15) with 32768; lia).
    set (Ak := acc ++ acc_of (block_cands buf k)) in *.
    assert (HS : acc ++ acc_of (block_cands buf (S k)) =
                 Ak ++ acc_of [cand1 buf (3 * k); cand2 buf (3 * k)]).
    { rewrite block_cands_S, accepted_app, app_assoc. reflexivity. }
    destruct (block_cands_prefix buf (S k) 56 ltac:(lia)) as [rest Hrest].
    assert (HA : A = (Ak ++ acc_of [cand1 buf (3 * k); cand2 buf (3 * k)]) ++ acc_of rest).
    { unfold A. rewrite Hrest, accepted_app, app_assoc, HS. reflexivity. }
    rewrite HS. clear HS Hrest.
    cbn [accepted List.filter] in HA |- *.
    assert (Hret : forall A' tl n', length A' = N -> n' = N -> A = A' ++ tl ->
              (N <= length A)%nat /\
              (A' ++ drop (length A') p0, n') = (take N A, N)).
    { intros A' tl n' HA' -> HAe. split; [rewrite HAe, length_app; lia|].
      rewrite HAe, take_prefix by exact HA'.
      rewrite drop_ge by lia. rewrite app_nil_r. reflexivity. }
    destruct (cand1 buf (3 * k) <? Q); destruct (cand2 buf (3 * k) <? Q);
      cbn [app] in HA |- *.
    + rewrite store_next by lia. cbn [bind].
      assert (Hl1 : length (Ak ++ [cand1 buf (3 * k)]) = S (length Ak))
        by (rewrite length_app; cbn [length]; lia).
      destruct (Nat.eqb_spec (S (length Ak)) N) as [EN | EN].
      * right. eexists. split; [reflexivity|].
        apply (Hret _ (cand2 buf (3 * k) :: acc_of rest)); [lia | lia |].
        rewrite HA, <- !app_assoc. reflexivity.
      * rewrite <- Hl1. rewrite store_next by lia. cbn [bind].
        rewrite <- (app_assoc Ak).  cbn [app].
        assert (Hl2 : length (Ak ++ [cand1 buf (3 * k); cand2 buf (3 * k)])
                      = S (S (length Ak)))
          by (rewrite length_app; cbn [length]; lia).
        destruct (Nat.eqb_spec
                    (S (length (Ak ++ [cand1 buf (3 * k)]))) N) as [EN2 | EN2].
        -- right. eexists. split; [reflexivity|].
           apply (Hret _ (acc_of rest)); [lia | lia | exact HA].
        -- left. eexists. split; [reflexivity|].
           split; [lia|]. rewrite Hl2, Hl1. reflexivity.
    + rewrite store_next by lia. cbn [bind].
      assert (Hl1 : length (Ak ++ [cand1 buf (3 * k)]) = S (length Ak))
        by (rewrite length_app; cbn [length]; lia).
      destruct (Nat.eqb_spec (S (length Ak)) N) as [EN | EN].
      * right. eexists. split; [reflexivity|].
        apply (Hret _ (acc_of rest)); [lia | lia | exact HA].
      * left. eexists. split; [reflexivity|]. split; [lia|].
        rewrite Hl1. reflexivity.
    + rewrite store_next by lia. cbn [bind].
      assert (Hl1 : length (Ak ++ [cand2 buf (3 * k)]) = S (length Ak))
        by (rewrite length_app; cbn [length]; lia).
      destruct (Nat.eqb_spec (S (length Ak)) N) as [EN | EN].
      * right. eexists. split; [reflexivity|].
        apply (Hret _ (acc_of rest)); [lia | lia | exact HA].
      * left. eexists. split; [reflexivity|]. split; [lia|].
        rewrite Hl1. reflexivity.
    + left. eexists. split; [reflexivity|]. rewrite app_nil_r.
      split; [exact Hl | reflexivity].
  - left. split; [exact Hl | exact E].
  - right. split; [exact Hl | exact E].
Qed.

Lemma stream_cands_S (h : nat -> Z) (blk n : nat) :
  stream_cands h blk (S n) =
  block_cands (squeeze h (168 * blk) 168) 56 ++ stream_cands h (S blk) n.
Proof. reflexivity. Qed.

(** The outer loop: once the stream offers N accepted candidates within
    n blocks, n rounds are enough and the result is the first N of them. *)
Lemma uniform_loop_spec (h : nat -> Z) (p0 : list Z) (n : nat) :
  length p0 = N ->
  forall blk acc fuel,
    (length acc < N)%nat ->
    (N <= length (acc ++ acc_of (stream_cands h blk n)))%nat ->
    (n <= fuel)%nat ->
    uniform_loop Q fuel h blk (acc ++ drop (length acc) p0) (length acc) =
    Some (Ok (take N (acc ++ acc_of (stream_cands h blk n)))).
Proof.
  intros Hp0. induction n as [|n IH]; intros blk acc fuel Hacc Hn Hf.
  - cbn [stream_cands seq flat_map accepted List.filter] in Hn.
    rewrite app_nil_r in Hn. lia.
  - destruct fuel as [|fuel]; [lia|]. cbn [uniform_loop]. cbv zeta.
    rewrite stream_cands_S, accepted_app, app_assoc in Hn |- *.
    destruct (uniform_block_spec (squeeze h (168 * blk) 168) p0 acc
                (length_squeeze _ _ _) Hp0 Hacc) as [[Hl E] | [Hl E]];
      rewrite E; clear E.
    + destruct (Nat.eqb_spec
                  (length (acc ++ acc_of (block_cands (squeeze h (168 * blk) 168) 56)))
                  N) as [EN | EN]; [lia|].
      apply IH; [exact Hl | exact Hn | lia].
    + rewrite Nat.eqb_refl. do 2 f_equal.
      rewrite <- (take_drop N (acc ++ acc_of (block_cands (squeeze h (168 * blk) 168) 56)))
        at 2.
      rewrite <- app_assoc. symmetry. apply take_prefix.
      rewrite length_take. lia.
Qed.

End Uniform.

End SampleFacts.

(** ** What the unpackers return on arbitrary bytes *)

Module UnpackRanges.
Import Common Mode3 SliceFacts CommonFacts Mode3Facts.

Lemma coeffs_in_flat_map (lo hi : Z) (blk : nat -> list Z) (l : list nat) :
  (forall k, In k l -> coeffs_in lo hi (blk k) = true) ->
  coeffs_in lo hi (flat_map blk l) = true.
Proof.
  unfold coeffs_in. induction l as [|k l IH]; intros H; [reflexivity|].
  cbn [flat_map]. rewrite forallb_app, (H k (or_introl eq_refl)), IH; [reflexivity|].
  intros k' Hk'. apply H. right. exact Hk'.
Qed.

Lemma coeffs_in_cons (lo hi x : Z) (l : list Z) :
  lo <= x < hi -> coeffs_in lo hi l = true -> coeffs_in lo hi (x :: l) = true.
Proof.
  intros Hx Hl. unfold coeffs_in in *. cbn [forallb]. rewrite Hl, andb_true_r.
  apply andb_true_iff. split; [apply Z.leb_le | apply Z.ltb_lt]; lia.
Qed.

Lemma land_ones_range (x k : Z) : 0 <= k -> 0 <= Z.land x (Z.ones k) < 2 ^ k.
Proof.
  intros Hk. rewrite Z.land_ones by exact Hk. apply Z.mod_pos_bound. lia.
Qed.

Lemma lor_range (a b k : Z) :
  0 <= k -> 0 <= a < 2 ^ k -> 0 <= b < 2 ^ k -> 0 <= Z.lor a b < 2 ^ k.
Proof.
  intros Hk Ha Hb.
  assert (E : Z.lor a b mod 2 ^ k = Z.lor a b).
  { rewrite <- Z.land_ones, Z.land_lor_distr_l, !Z.land_ones by exact Hk.
    rewrite !Z.mod_small by assumption. reflexivity. }
  rewrite <- E. apply Z.mod_pos_bound. lia.
Qed.

Lemma shr_range (b j k : Z) :
  0 <= j -> 0 <= b < 2 ^ (j + k) -> 0 <= k -> 0 <= shr b j < 2 ^ k.
Proof.
  intros Hj Hb Hk. unfold shr. rewrite Z.shiftr_div_pow2 by exact Hj.
  rewrite Z.pow_add_r in Hb by assumption.
  split; [apply Z.div_pos; lia | apply Z.div_lt_upper_bound; lia].
Qed.

Lemma shl32_range (b j k : Z) :
  0 <= j -> 0 <= k -> j + k <= 32 -> 0 <= b < 2 ^ k -> 0 <= shl32 b j < 2 ^ (j + k).
Proof.
  intros Hj Hk Hjk Hb. unfold shl32, u32. rewrite Z.shiftl_mul_pow2 by exact Hj.
  assert (H1 : 0 <= b * 2 ^ j < 2 ^ (j + k)).
  { rewrite Z.pow_add_r by assumption. nia. }
  assert (H2 : 2 ^ (j + k) <= 2 ^ 32) by (apply Z.pow_le_mono_r; lia).
  rewrite Z.mod_small by lia. exact H1.
Qed.

Lemma nth_is_byte (buf : list Z) (i : nat) :
  is_bytes buf = true -> (i < length buf)%nat -> 0 <= nth i buf 0 < 2 ^ 8.
Proof. intros Hb Hi. apply (coeffs_in_nth 0 256 buf i Hb Hi). Qed.

(** [UnpackT1] overwrites all N coefficients with values below 512,
    whatever the bytes are: its result is normalized and does not depend on
    what p held before. *)
Theorem UnpackT1_normalized (p buf : list Z) :
  length p = N -> (PolyT1Size <= length buf)%nat ->
  exists p',
    UnpackT1 p buf = Ok p' /\ length p' = N /\ coeffs_in 0 512 p' = true /\
    forall q, length q = N -> UnpackT1 q buf = Ok p'.
Proof.
  intros Hp Hbuf. exists (flat_map (coeffsT1 buf) (seq 0 32)).
  split; [apply UnpackT1_blocks; assumption|].
  split; [rewrite (length_flat_map_blocks _ 8) by reflexivity; reflexivity|].
  split; [|intros q Hq; apply UnpackT1_blocks; assumption].
  apply coeffs_in_flat_map. intros k _. unfold coeffsT1. cbv zeta.
  repeat (apply coeffs_in_cons; [apply (land_ones_range _ 9); lia|]).
  reflexivity.
Qed.

Lemma UnpackT1_normalized_witness :
  exists p',
    UnpackT1 zeroPoly (repeat 255 288) = Ok p' /\ length p' = N /\
    coeffs_in 0 512 p' = true /\
    forall q, length q = N -> UnpackT1 q (repeat 255 288) = Ok p'.
Proof.
  apply (UnpackT1_normalized zeroPoly (repeat 255 288)).
  - reflexivity.
  - vm_compute. lia.
Defined.

(** [UnpackT0] on arbitrary bytes: every coefficient lies in the window
    (Q - 2^(D-1), Q + 2^(D-1)], and the result does not depend on what p
    held before. *)
Theorem UnpackT0_window (p buf : list Z) :
  length p = N -> (PolyT0Size <= length buf)%nat -> is_bytes buf = true ->
  exists p',
    UnpackT0 p buf = Ok p' /\ length p' = N /\ in_T0_window p' = true /\
    forall q, length q = N -> UnpackT0 q buf = Ok p'.
Proof.
  intros Hp Hbuf Hb. exists (flat_map (coeffsT0 buf) (seq 0 64)).
  split; [apply UnpackT0_blocks; assumption|].
  split; [rewrite (length_flat_map_blocks _ 4) by reflexivity; reflexivity|].
  split; [|intros q Hq; apply UnpackT0_blocks; assumption].
  apply coeffs_in_flat_map. intros k Hk. apply in_seq in Hk.
  unfold PolyT0Size in Hbuf.
  assert (W : forall y, 0 <= y < 2 ^ 14 ->
            Q - 2 ^ (D - 1) + 1 <= u32 (Q + Z.shiftl 1 (D - 1) - y)
            < Q + 2 ^ (D - 1) + 1).
  { intros y Hy. unfold Q, D, Field.Q, Field.D, u32 in *.
    change (Z.shiftl 1 (14 - 1)) with 8192. change (2 ^ (14 - 1)) with 8192.
    change (2 ^ 14) with 16384 in Hy. rewrite Z.mod_small; lia. }
  unfold coeffsT0. cbv zeta.
  pose proof (nth_is_byte buf (7 * k + 5) Hb ltac:(lia)) as B5.
  pose proof (nth_is_byte buf (7 * k + 6) Hb ltac:(lia)) as B6.
  repeat (apply coeffs_in_cons; [apply W; apply (land_ones_range _ 14); lia|]).
  apply coeffs_in_cons; [|reflexivity].
  apply W. apply lor_range; [lia | |].
  - pose proof (shr_range (nth (7 * k + 5) buf 0) 2 6 ltac:(lia) B5 ltac:(lia)).
    change (2 ^ 6) with 64 in *. change (2 ^ 14) with 16384. lia.
  - apply (shl32_range _ 6 8); [lia | lia | lia | exact B6].
Qed.

Lemma UnpackT0_window_witness :
  exists p',
    UnpackT0 zeroPoly (repeat 255 448) = Ok p' /\ length p' = N /\
    in_T0_window p' = true /\
    forall q, length q = N -> UnpackT0 q (repeat 255 448) = Ok p'.
Proof.
  apply (UnpackT0_window zeroPoly (repeat 255 448)).
  - reflexivity.
  - vm_compute. lia.
  - vm_compute. reflexivity.
Defined.

Lemma Eta_unpacked_range (Eta w y : Z) :
  0 <= Eta < 2 ^ 31 -> 0 <= w <= 4 -> 0 <= y < 2 ^ w ->
  Q + Eta - (2 ^ w - 1) <= u32 (Q + Eta - y) < Q + Eta + 1.
Proof.
  intros He Hw Hy. unfold Q, Field.Q, u32 in *.
  assert (H16 : 2 ^ w <= 2 ^ 4) by (apply Z.pow_le_mono_r; lia).
  change (2 ^ 4) with 16 in H16. change (2 ^ 31) with 2147483648 in He.
  change (2 ^ 32) with 4294967296.
  rewrite Z.mod_small; lia.
Qed.

(** [PolyUnpackLeqEta] on arbitrary bytes: every coefficient lies in
    [Q + Eta - (2^DoubleEtaBits - 1), Q + Eta], which is wider than
    [Q - Eta, Q + Eta] whenever 2 Eta + 1 < 2^DoubleEtaBits. *)
Theorem PolyUnpackLeqEta_range (Eta DoubleEtaBits : Z) (p buf : list Z) :
  DoubleEtaBits = 3 \/ DoubleEtaBits = 4 -> 0 <= Eta < 2 ^ 31 ->
  length p = N -> (PolyLeqEtaSize DoubleEtaBits <= length buf)%nat ->
  is_bytes buf = true ->
  exists p',
    PolyUnpackLeqEta Eta DoubleEtaBits p buf = Ok p' /\ length p' = N /\
    coeffs_in (Q + Eta - (2 ^ DoubleEtaBits - 1)) (Q + Eta + 1) p' = true.
Proof.
  intros [-> | ->] He Hp Hbuf Hb.
  - change (PolyLeqEtaSize 3) with 96%nat in Hbuf.
    exists (flat_map (coeffsEta3 Eta buf) (seq 0 32)).
    split; [apply UnpackEta3_blocks; assumption|].
    split; [rewrite (length_flat_map_blocks _ 8) by reflexivity; reflexivity|].
    apply coeffs_in_flat_map. intros k Hk. apply in_seq in Hk.
    pose proof (nth_is_byte buf (3 * k + 0) Hb ltac:(lia)) as B0.
    pose proof (nth_is_byte buf (3 * k + 1) Hb ltac:(lia)) as B1.
    pose proof (nth_is_byte buf (3 * k + 2) Hb ltac:(lia)) as B2.
    assert (L4 : forall x, 0 <= Z.land x 7 < 2 ^ 3)
      by (intros x; apply (land_ones_range x 3); lia).
    unfold coeffsEta3. cbv zeta.
    apply coeffs_in_cons; [apply Eta_unpacked_range; [lia | lia | apply L4]|].
    apply coeffs_in_cons; [apply Eta_unpacked_range; [lia | lia | apply L4]|].
    apply coeffs_in_cons.
    { apply Eta_unpacked_range; [lia | lia |].
      apply lor_range; [lia | | apply L4].
      pose proof (shr_range _ 6 2 ltac:(lia) B0 ltac:(lia)).
      change (2 ^ 2) with 4 in *. change (2 ^ 3) with 8. lia. }
    apply coeffs_in_cons; [apply Eta_unpacked_range; [lia | lia | apply L4]|].
    apply coeffs_in_cons; [apply Eta_unpacked_range; [lia | lia | apply L4]|].
    apply coeffs_in_cons.
    { apply Eta_unpacked_range; [lia | lia |].
      apply lor_range; [lia | | apply L4].
      pose proof (shr_range _ 7 1 ltac:(lia) B1 ltac:(lia)).
      change (2 ^ 1) with 2 in *. change (2 ^ 3) with 8. lia. }
    apply coeffs_in_cons; [apply Eta_unpacked_range; [lia | lia | apply L4]|].
    apply coeffs_in_cons; [apply Eta_unpacked_range; [lia | lia | apply L4]|].
    reflexivity.
  - change (PolyLeqEtaSize 4) with 128%nat in Hbuf.
    exists (flat_map (coeffsEta4 Eta buf) (seq 0 128)).
    split; [apply UnpackEta4_blocks; assumption|].
    split; [rewrite (length_flat_map_blocks _ 2) by reflexivity; reflexivity|].
    apply coeffs_in_flat_map. intros k Hk. apply in_seq in Hk.
    pose proof (nth_is_byte buf (1 * k + 0) Hb ltac:(lia)) as B0.
    unfold coeffsEta4. cbv zeta.
    apply coeffs_in_cons.
    { apply Eta_unpacked_range; [lia | lia | apply (land_ones_range _ 4); lia]. }
    apply coeffs_in_cons; [|reflexivity].
    apply Eta_unpacked_range; [lia | lia |].
    apply (shr_range _ 4 4); [lia | exact B0 | lia].
Qed.

Lemma PolyUnpackLeqEta_range_witness :
  exists p',
    PolyUnpackLeqEta 5 4 zeroPoly (repeat 255 128) = Ok p' /\ length p' = N /\
    coeffs_in (Q + 5 - (2 ^ 4 - 1)) (Q + 5 + 1) p' = true.
Proof.
  apply (PolyUnpackLeqEta_range 5 4 zeroPoly (repeat 255 128)).
  - right. reflexivity.
  - lia.
  - reflexivity.
  - vm_compute. lia.
  - vm_compute. reflexivity.
Defined.

Lemma gamma1_coeff_normalized (Gamma1 x : Z) :
  0 < Gamma1 <= Q -> 0 <= gamma1_coeff Gamma1 x < Q.
Proof.
  intros Hg. unfold gamma1_coeff. cbv zeta.
  pose proof (land_ones_range x 20 ltac:(lia)) as Hy.
  change (Z.ones 20) with 1048575 in Hy.
  set (y := Z.land x 1048575) in *.
  assert (Ey : u32 y = y).
  { unfold u32. apply Z.mod_small. change (2 ^ 20) with 1048576 in Hy.
    change (2 ^ 32) with 4294967296. lia. }
  rewrite Ey.
  assert (Hc : 0 <= u32 (Gamma1 - 1 - y) < 2 ^ 32)
    by (unfold u32; apply Z.mod_pos_bound; reflexivity).
  rewrite (masked_add_Q _ Hc).
  unfold Q, Field.Q, u32 in *. change (2 ^ 20) with 1048576 in Hy.
  change (2 ^ 31) with 2147483648. change (2 ^ 32) with 4294967296 in *.
  destruct (Z.le_gt_cases 0 (Gamma1 - 1 - y)) as [Hpos | Hneg].
  - rewrite (Z.mod_small (Gamma1 - 1 - y)) by lia.
    destruct (Z.ltb_spec (Gamma1 - 1 - y) 2147483648); lia.
  - replace ((Gamma1 - 1 - y) mod 4294967296) with (Gamma1 - 1 - y + 4294967296)
      by (apply (Z.mod_unique _ _ (-1)); lia).
    destruct (Z.ltb_spec (Gamma1 - 1 - y + 4294967296) 2147483648); [lia|].
    replace ((Gamma1 - 1 - y + 4294967296 + 8380417) mod 4294967296)
      with (Gamma1 - 1 - y + 8380417)
      by (apply (Z.mod_unique _ _ 1); lia).
    lia.
Qed.

(** [PolyUnpackLeGamma1] on arbitrary bytes: the result is normalized,
    every coefficient is in [0, Q) (it may exceed Gamma1). *)
Theorem PolyUnpackLeGamma1_normalized (Gamma1 : Z) (p buf : list Z) :
  0 < Gamma1 <= Q ->
  length p = N -> (PolyLeGamma1Size <= length buf)%nat ->
  exists p',
    PolyUnpackLeGamma1 Gamma1 p buf = Ok p' /\ length p' = N /\
    coeffs_in 0 Q p' = true.
Proof.
  intros Hg Hp Hbuf. exists (flat_map (coeffsG Gamma1 buf) (seq 0 16)).
  split; [apply UnpackG_blocks; assumption|].
  split; [rewrite (length_flat_map_blocks _ 16) by reflexivity; reflexivity|].
  apply coeffs_in_flat_map. intros k _. unfold coeffsG. cbv zeta.
  repeat (apply coeffs_in_cons; [apply gamma1_coeff_normalized; exact Hg|]).
  reflexivity.
Qed.

Lemma PolyUnpackLeGamma1_normalized_witness :
  exists p',
    PolyUnpackLeGamma1 523776 zeroPoly (repeat 255 640) = Ok p' /\ length p' = N /\
    coeffs_in 0 Q p' = true.
Proof.
  apply (PolyUnpackLeGamma1_normalized 523776 zeroPoly (repeat 255 640)).
  - unfold Q, Field.Q. lia.
  - reflexivity.
  - vm_compute. lia.
Defined.

End UnpackRanges.

(** ** Packing what was unpacked: the fixed-width encodings are canonical *)

Module RepackFacts.
Import Common Mode3 SliceFacts CommonFacts Mode3Facts.

Lemma slice_take (b n : nat) (buf : list Z) (k : nat) :
  (k < n)%nat -> (b * n <= length buf)%nat ->
  slice b (take (b * n) buf) k = slice b buf k.
Proof.
  intros Hk Hn. unfold slice. apply map_ext_in. intros c Hc. apply in_seq in Hc.
  rewrite <- (take_drop (b * n) buf) at 2.
  rewrite app_nth1; [reflexivity|]. rewrite length_take. nia.
Qed.

(** The blocks of a list of a * n entries, written back, give the list. *)
Lemma flat_map_blocks_take (a n : nat) (blk : nat -> list Z) (buf : list Z) :
  (a * n <= length buf)%nat ->
  (forall k, (k < n)%nat -> blk k = slice a buf k) ->
  flat_map blk (seq 0 n) = take (a * n) buf.
Proof.
  intros Hn Hblk.
  rewrite <- (flat_map_slice a n (take (a * n) buf)) by (rewrite length_take; lia).
  rewrite !flat_map_concat_map. f_equal. apply map_ext_in. intros k Hk.
  apply in_seq in Hk. rewrite slice_take by lia. apply Hblk. lia.
Qed.

Lemma nth_blocks (blk : nat -> list Z) (a n k c : nat) :
  (forall k, length (blk k) = a) -> (k < n)%nat -> (c < a)%nat ->
  nth (a * k + c) (flat_map blk (seq 0 n)) 0 = nth c (blk k) 0.
Proof.
  intros Hb Hk Hc. rewrite <- (app_nil_r (flat_map blk (seq 0 n))).
  apply (nth_flat_map_blocks blk a 0 n k c []); assumption.
Qed.

Lemma T1_repack_block (buf : list Z) (k : nat) :
  is_bytes buf = true -> (PolyT1Size <= length buf)%nat -> (k < 32)%nat ->
  bytesT1 (flat_map (coeffsT1 buf) (seq 0 32)) k = slice 9 buf k.
Proof.
  intros Hb Hbuf Hk. unfold PolyT1Size in Hbuf. unfold bytesT1. cbv zeta.
  rewrite !(nth_blocks (coeffsT1 buf) 8 32 k) by (reflexivity || lia).
  cbn [Nat.add coeffsT1 nth slice seq map].
  assert (R : forall c, (c < 9)%nat -> 0 <= nth (9 * k + c) buf 0 < 2 ^ 8).
  { intros c Hc. apply (coeffs_in_nth 0 256); [exact Hb | lia]. }
  pose proof (R 0%nat ltac:(lia)) as R0. pose proof (R 1%nat ltac:(lia)) as R1.
  pose proof (R 2%nat ltac:(lia)) as R2. pose proof (R 3%nat ltac:(lia)) as R3.
  pose proof (R 4%nat ltac:(lia)) as R4. pose proof (R 5%nat ltac:(lia)) as R5.
  pose proof (R 6%nat ltac:(lia)) as R6. pose proof (R 7%nat ltac:(lia)) as R7.
  pose proof (R 8%nat ltac:(lia)) as R8.
  clear R. change 511 with (Z.ones 9).
  repeat (apply (f_equal2 (@cons Z)); [clear - R0 R1 R2 R3 R4 R5 R6 R7 R8; bits |]).
  reflexivity.
Qed.

(** Packing the polynomial [UnpackT1] read from a byte buffer writes the
    same PolyT1Size bytes again: every string of PolyT1Size bytes is the
    encoding of the polynomial it decodes to, and of no other. *)
Theorem PackT1_UnpackT1 (p buf dst : list Z) :
  length p = N -> (PolyT1Size <= length buf)%nat -> is_bytes buf = true ->
  (PolyT1Size <= length dst)%nat ->
  exists p',
    UnpackT1 p buf = Ok p' /\
    PackT1 p' dst = Ok (take PolyT1Size buf ++ drop PolyT1Size dst).
Proof.
  intros Hp Hbuf Hb Hdst. eexists. split; [apply UnpackT1_blocks; assumption|].
  rewrite PackT1_blocks;
    [| rewrite (length_flat_map_blocks _ 8) by reflexivity; reflexivity | exact Hdst].
  do 2 f_equal. apply (flat_map_blocks_take 9 32); [exact Hbuf|].
  intros k Hk. apply T1_repack_block; assumption.
Qed.

Lemma PackT1_UnpackT1_witness :
  exists p',
    UnpackT1 zeroPoly (repeat 255 288) = Ok p' /\
    PackT1 p' (repeat 0 288) =
    Ok (take PolyT1Size (repeat 255 288) ++ drop PolyT1Size (repeat 0 288)).
Proof.
  apply (PackT1_UnpackT1 zeroPoly (repeat 255 288) (repeat 0 288)).
  - reflexivity.
  - vm_compute. lia.
  - vm_compute. reflexivity.
  - vm_compute. lia.
Defined.

Lemma T0_unshift (y : Z) :
  0 <= y < 2 ^ 14 ->
  u32 (Q + Z.shiftl 1 (D - 1) - u32 (Q + Z.shiftl 1 (D - 1) - y)) = y.
Proof.
  intros Hy. unfold Q, D, Field.Q, Field.D, u32.
  change (Z.shiftl 1 (14 - 1)) with 8192. change (2 ^ 14) with 16384 in Hy.
  change (2 ^ 32) with 4294967296.
  rewrite (Z.mod_small (8380417 + 8192 - y)) by lia.
  rewrite Z.mod_small by lia. lia.
Qed.

Lemma T0_repack_block (buf : list Z) (k : nat) :
  is_bytes buf = true -> (PolyT0Size <= length buf)%nat -> (k < 64)%nat ->
  bytesT0 (flat_map (coeffsT0 buf) (seq 0 64)) k = slice 7 buf k.
Proof.
  intros Hb Hbuf Hk. unfold PolyT0Size in Hbuf. unfold bytesT0. cbv zeta.
  rewrite !(nth_blocks (coeffsT0 buf) 4 64 k) by (reflexivity || lia).
  cbn [Nat.add coeffsT0 nth slice seq map].
  assert (R : forall c, (c < 7)%nat -> 0 <= nth (7 * k + c) buf 0 < 2 ^ 8).
  { intros c Hc. apply (coeffs_in_nth 0 256); [exact Hb | lia]. }
  pose proof (R 0%nat ltac:(lia)) as R0. pose proof (R 1%nat ltac:(lia)) as R1.
  pose proof (R 2%nat ltac:(lia)) as R2. pose proof (R 3%nat ltac:(lia)) as R3.
  pose proof (R 4%nat ltac:(lia)) as R4. pose proof (R 5%nat ltac:(lia)) as R5.
  pose proof (R 6%nat ltac:(lia)) as R6.
  clear R.
  rewrite !(T0_unshift (Z.land _ 16383))
    by (apply (UnpackRanges.land_ones_range _ 14); lia).
  rewrite T0_unshift.
  2:{ apply UnpackRanges.lor_range; [lia | |].
      - pose proof (UnpackRanges.shr_range _ 2 6 ltac:(lia) R5 ltac:(lia)).
        change (2 ^ 6) with 64 in *. change (2 ^ 14) with 16384. lia.
      - apply (UnpackRanges.shl32_range _ 6 8); [lia | lia | lia | exact R6]. }
  change 16383 with (Z.ones 14).
  repeat (apply (f_equal2 (@cons Z)); [clear - R0 R1 R2 R3 R4 R5 R6; bits |]).
  reflexivity.
Qed.

(** Packing the polynomial [UnpackT0] read from a byte buffer writes the
    same PolyT0Size bytes again. *)
Theorem PackT0_UnpackT0 (p buf dst : list Z) :
  length p = N -> (PolyT0Size <= length buf)%nat -> is_bytes buf = true ->
  (PolyT0Size <= length dst)%nat ->
  exists p',
    UnpackT0 p buf = Ok p' /\
    PackT0 p' dst = Ok (take PolyT0Size buf ++ drop PolyT0Size dst).
Proof.
  intros Hp Hbuf Hb Hdst. eexists. split; [apply UnpackT0_blocks; assumption|].
  rewrite PackT0_blocks;
    [| rewrite (length_flat_map_blocks _ 4) by reflexivity; reflexivity | exact Hdst].
  do 2 f_equal. apply (flat_map_blocks_take 7 64); [exact Hbuf|].
  intros k Hk. apply T0_repack_block; assumption.
Qed.

Lemma PackT0_UnpackT0_witness :
  exists p',
    UnpackT0 zeroPoly (repeat 255 448) = Ok p' /\
    PackT0 p' (repeat 0 448) =
    Ok (take PolyT0Size (repeat 255 448) ++ drop PolyT0Size (repeat 0 448)).
Proof.
  apply (PackT0_UnpackT0 zeroPoly (repeat 255 448) (repeat 0 448)).
  - reflexivity.
  - vm_compute. lia.
  - vm_compute. reflexivity.
  - vm_compute. lia.
Defined.

Lemma Eta_unshift (Eta y : Z) :
  0 <= Eta < 2 ^ 31 -> 0 <= y < 16 ->
  u32 (Q + Eta - u32 (Q + Eta - y)) = y.
Proof.
  intros He Hy. unfold Q, Field.Q, u32.
  change (2 ^ 31) with 2147483648 in He. change (2 ^ 32) with 4294967296.
  rewrite (Z.mod_small (8380417 + Eta - y)) by lia.
  rewrite Z.mod_small by lia. lia.
Qed.

Lemma Eta4_repack_block (Eta : Z) (buf : list Z) (k : nat) :
  0 <= Eta < 2 ^ 31 ->
  is_bytes buf = true -> (128 <= length buf)%nat -> (k < 128)%nat ->
  bytesEta4 Eta (flat_map (coeffsEta4 Eta buf) (seq 0 128)) k = slice 1 buf k.
Proof.
  intros He Hb Hbuf Hk. unfold bytesEta4. cbv zeta.
  rewrite !(nth_blocks (coeffsEta4 Eta buf) 2 128 k) by (reflexivity || lia).
  cbn [Nat.add coeffsEta4 nth slice seq map].
  pose proof (coeffs_in_nth 0 256 buf (1 * k + 0) Hb ltac:(lia)) as R0.
  change 256 with (2 ^ 8) in R0.
  rewrite !Eta_unshift.
  - change 15 with (Z.ones 4).
    apply (f_equal2 (@cons Z)); [clear - R0; bits | reflexivity].
  - exact He.
  - pose proof (UnpackRanges.shr_range _ 4 4 ltac:(lia) R0 ltac:(lia)).
    change (2 ^ 4) with 16 in *. lia.
  - exact He.
  - pose proof (UnpackRanges.land_ones_range (nth (1 * k + 0) buf 0) 4 ltac:(lia)).
    change (2 ^ 4) with 16 in *. assumption.
Qed.

Lemma Eta3_repack_block (Eta : Z) (buf : list Z) (k : nat) :
  0 <= Eta < 2 ^ 31 ->
  is_bytes buf = true -> (96 <= length buf)%nat -> (k < 32)%nat ->
  bytesEta3 Eta (flat_map (coeffsEta3 Eta buf) (seq 0 32)) k = slice 3 buf k.
Proof.
  intros He Hb Hbuf Hk. unfold bytesEta3. cbv zeta.
  rewrite !(nth_blocks (coeffsEta3 Eta buf) 8 32 k) by (reflexivity || lia).
  cbn [Nat.add coeffsEta3 nth slice seq map].
  assert (R : forall c, (c < 3)%nat -> 0 <= nth (3 * k + c) buf 0 < 2 ^ 8).
  { intros c Hc. apply (coeffs_in_nth 0 256); [exact Hb | lia]. }
  pose proof (R 0%nat ltac:(lia)) as R0. pose proof (R 1%nat ltac:(lia)) as R1.
  pose proof (R 2%nat ltac:(lia)) as R2. clear R.
  assert (L : forall x, 0 <= Z.land x 7 < 16).
  { intros x. pose proof (UnpackRanges.land_ones_range x 3 ltac:(lia)) as H.
    change (Z.ones 3) with 7 in H. change (2 ^ 3) with 8 in H. lia. }
  rewrite !(Eta_unshift Eta (Z.land _ 7)) by (exact He || apply L).
  rewrite !Eta_unshift.
  - rewrite !land_7.
    repeat (apply (f_equal2 (@cons Z)); [clear - R0 R1 R2; bits |]).
    reflexivity.
  - exact He.
  - assert (0 <= Z.lor (shr (nth (3 * k + 1) buf 0) 7)
                       (Z.land (shl8 (nth (3 * k + 2) buf 0) 1) 7) < 2 ^ 3).
    { apply UnpackRanges.lor_range; [lia | |].
      - pose proof (UnpackRanges.shr_range _ 7 1 ltac:(lia) R1 ltac:(lia)).
        change (2 ^ 1) with 2 in *. change (2 ^ 3) with 8. lia.
      - apply (UnpackRanges.land_ones_range _ 3). lia. }
    change (2 ^ 3) with 8 in *. lia.
  - exact He.
  - assert (0 <= Z.lor (shr (nth (3 * k + 0) buf 0) 6)
                       (Z.land (shl8 (nth (3 * k + 1) buf 0) 2) 7) < 2 ^ 3).
    { apply UnpackRanges.lor_range; [lia | |].
      - pose proof (UnpackRanges.shr_range _ 6 2 ltac:(lia) R0 ltac:(lia)).
        change (2 ^ 2) with 4 in *. change (2 ^ 3) with 8. lia.
      - apply (UnpackRanges.land_ones_range _ 3). lia. }
    change (2 ^ 3) with 8 in *. lia.
Qed.

(** Packing the polynomial [PolyUnpackLeqEta] read from a byte buffer writes
    the same PolyLeqEtaSize bytes again, for both widths, also when the
    decoded coefficients are outside [Q - Eta, Q + Eta]. *)
Theorem PolyPackLeqEta_Unpack (Eta DoubleEtaBits : Z) (p buf dst : list Z) :
  DoubleEtaBits = 3 \/ DoubleEtaBits = 4 -> 0 <= Eta < 2 ^ 31 ->
  length p = N -> (PolyLeqEtaSize DoubleEtaBits <= length buf)%nat ->
  is_bytes buf = true ->
  (PolyLeqEtaSize DoubleEtaBits <= length dst)%nat ->
  exists p',
    PolyUnpackLeqEta Eta DoubleEtaBits p buf = Ok p' /\
    PolyPackLeqEta Eta DoubleEtaBits p' dst =
    Ok (take (PolyLeqEtaSize DoubleEtaBits) buf ++
        drop (PolyLeqEtaSize DoubleEtaBits) dst).
Proof.
  intros [-> | ->] He Hp Hbuf Hb Hdst.
  - change (PolyLeqEtaSize 3) with 96%nat in *.
    eexists. split; [apply UnpackEta3_blocks; assumption|].
    rewrite PackEta3_blocks;
      [| rewrite (length_flat_map_blocks _ 8) by reflexivity; reflexivity | exact Hdst].
    do 2 f_equal. apply (flat_map_blocks_take 3 32); [exact Hbuf|].
    intros k Hk. apply Eta3_repack_block; assumption.
  - change (PolyLeqEtaSize 4) with 128%nat in *.
    eexists. split; [apply UnpackEta4_blocks; assumption|].
    rewrite PackEta4_blocks;
      [| rewrite (length_flat_map_blocks _ 2) by reflexivity; reflexivity | exact Hdst].
    do 2 f_equal. apply (flat_map_blocks_take 1 128); [exact Hbuf|].
    intros k Hk. apply Eta4_repack_block; assumption.
Qed.

Lemma PolyPackLeqEta_Unpack_witness :
  exists p',
    PolyUnpackLeqEta 3 3 zeroPoly (repeat 255 96) = Ok p' /\
    PolyPackLeqEta 3 3 p' (repeat 0 96) =
    Ok (take (PolyLeqEtaSize 3) (repeat 255 96) ++
        drop (PolyLeqEtaSize 3) (repeat 0 96)).
Proof.
  apply (PolyPackLeqEta_Unpack 3 3 zeroPoly (repeat 255 96) (repeat 0 96)).
  - left. reflexivity.
  - lia.
  - reflexivity.
  - vm_compute. lia.
  - vm_compute. reflexivity.
  - vm_compute. lia.
Defined.

End RepackFacts.

(** ** The centered binomial samplers *)

Module NoiseFacts.
Import Common Sample NoiseSpec SliceFacts LoopFacts SampleFacts.

Lemma int16_id (x : Z) : - 2 ^ 15 <= x < 2 ^ 15 -> int16 x = x.
Proof.
  intros Hx. unfold int16. cbv zeta.
  change (2 ^ 15) with 32768 in *. change (2 ^ 16) with 65536.
  destruct (Z.ltb_spec (x mod 65536) 32768); Z.div_mod_to_equations; lia.
Qed.

(** The low bits of [int16(d)] are those of d. *)
Lemma land_int16 (d w : Z) :
  0 <= w <= 15 -> Z.land (int16 d) (Z.ones w) = d mod 2 ^ w.
Proof.
  intros Hw. rewrite Z.land_ones by lia. unfold int16. cbv zeta.
  assert (E : 2 ^ 16 = 2 ^ w * 2 ^ (16 - w))
    by (rewrite <- Z.pow_add_r by lia; f_equal; lia).
  assert (Hp : 0 < 2 ^ w) by (apply Z.pow_pos_nonneg; lia).
  assert (Hp' : 0 < 2 ^ (16 - w)) by (apply Z.pow_pos_nonneg; lia).
  assert (Hm : (d mod 2 ^ 16) mod 2 ^ w = d mod 2 ^ w).
  { rewrite E. rewrite Z.rem_mul_r by lia.
    rewrite (Z.mul_comm (2 ^ w)), Z.mod_add by lia. apply Z.mod_mod. lia. }
  destruct (d mod 2 ^ 16 <? 2 ^ 15); [exact Hm|].
  rewrite <- Hm. rewrite E.
  replace (d mod (2 ^ w * 2 ^ (16 - w)) - 2 ^ w * 2 ^ (16 - w))
    with (d mod (2 ^ w * 2 ^ (16 - w)) + (- 2 ^ (16 - w)) * 2 ^ w) by lia.
  apply Z.mod_add. lia.
Qed.

Lemma bit_spec (t : Z) (n : nat) : bit t n = (t / 2 ^ Z.of_nat n) mod 2.
Proof. unfold bit. apply Z.testbit_spec'. lia. Qed.

Lemma bit_range (t : Z) (n : nat) : 0 <= bit t n <= 1.
Proof. unfold bit. destruct (Z.testbit t (Z.of_nat n)); cbn; lia. Qed.

Lemma bit_land (t m : Z) (n : nat) : bit (Z.land t m) n = bit t n * bit m n.
Proof.
  unfold bit. rewrite Z.land_spec.
  destruct (Z.testbit t (Z.of_nat n)), (Z.testbit m (Z.of_nat n)); reflexivity.
Qed.

Lemma bit_shr (t : Z) (k n : nat) : bit (Z.shiftr t (Z.of_nat k)) n = bit t (n + k).
Proof.
  unfold bit. rewrite Z.shiftr_spec by lia. do 2 f_equal. lia.
Qed.

Lemma mod2_bit0 (x : Z) : x mod 2 = bit x 0.
Proof. rewrite bit_spec. change (2 ^ Z.of_nat 0) with 1. rewrite Z.div_1_r. reflexivity. Qed.

Section Sparse.

(** A mask M below 2^b with one bit per field of width w. *)
Variables (w b M : Z).
Hypothesis Hw : 0 < w.
Hypothesis Hb : 0 <= b.
Hypothesis HMb : Z.land M (Z.ones b) = M.
Hypothesis HMlow : Z.land M (Z.ones w) = 1.
Hypothesis HMshr : Z.land (Z.shiftr M w) M = Z.shiftr M w.

Notation sparse := (sparse M).

Lemma sparse_land (t : Z) : sparse (Z.land t M).
Proof. unfold sparse. rewrite <- Z.land_assoc, Z.land_diag. reflexivity. Qed.

Lemma sparse_lt (x : Z) : sparse x -> 0 <= x < 2 ^ b.
Proof.
  intros Hx. unfold sparse in Hx.
  assert (E : x mod 2 ^ b = x).
  { rewrite <- Z.land_ones by exact Hb. rewrite <- Hx at 1.
    rewrite <- Z.land_assoc, HMb. exact Hx. }
  rewrite <- E. apply Z.mod_pos_bound. apply Z.pow_pos_nonneg; lia.
Qed.

Lemma sparse_mod (x : Z) : sparse x -> x mod 2 ^ w = x mod 2.
Proof.
  intros Hx. unfold sparse in Hx.
  rewrite <- Z.land_ones by lia. rewrite <- Hx at 1.
  rewrite <- Z.land_assoc, HMlow. change 1 with (Z.ones 1).
  rewrite Z.land_ones by lia. reflexivity.
Qed.

Lemma sparse_shr (x : Z) : sparse x -> sparse (Z.shiftr x w).
Proof.
  unfold sparse. intros Hx.
  assert (E : Z.shiftr x w = Z.land (Z.shiftr x w) (Z.shiftr M w))
    by (rewrite <- Z.shiftr_land, Hx; reflexivity).
  rewrite E at 1. rewrite <- Z.land_assoc, HMshr. symmetry. exact E.
Qed.

Lemma sparse_shr_n (x : Z) (j : nat) :
  sparse x -> sparse (Z.shiftr x (w * Z.of_nat j)).
Proof.
  intros Hx. induction j as [|j IH].
  - rewrite Z.mul_0_r. exact Hx.
  - replace (w * Z.of_nat (S j)) with (w * Z.of_nat j + w) by lia.
    rewrite <- Z.shiftr_shiftr by lia. apply sparse_shr. exact IH.
Qed.

End Sparse.

(** *** eta = 2 *)

Lemma M2_bits (n : nat) : (n < 32)%nat -> bit M2 (2 * n) = 1.
Proof.
  intros Hn.
  assert (H : forallb (fun n => bit M2 (2 * n) =? 1) (seq 0 32) = true)
    by (vm_compute; reflexivity).
  rewrite forallb_forall in H. apply Z.eqb_eq, H, in_seq. lia.
Qed.

Lemma sparse2_lt (x : Z) : sparse M2 x -> 0 <= x < 2 ^ 63.
Proof. apply (sparse_lt 63 M2); [lia | reflexivity]. Qed.

Lemma sparse2_step (X Y : Z) :
  sparse M2 X -> sparse M2 Y ->
  (X + Y) mod 4 = X mod 2 + Y mod 2 /\
  shr (X + Y) 2 = Z.shiftr X 2 + Z.shiftr Y 2.
Proof.
  intros HX HY.
  pose proof (sparse_mod 2 M2 ltac:(lia) eq_refl X HX) as EX.
  pose proof (sparse_mod 2 M2 ltac:(lia) eq_refl Y HY) as EY.
  unfold shr. rewrite !Z.shiftr_div_pow2 by lia.
  change (2 ^ 2) with 4 in *. Z.div_mod_to_equations. lia.
Qed.

(** The coefficient the inner loop of [DeriveNoise2] stores at step j. *)
Lemma noise2_coeff (t : Z) (j : nat) :
  (j < 16)%nat ->
  let d := Z.shiftr (Z.land t M2) (2 * Z.of_nat (2 * j)) +
           Z.shiftr (Z.land (shr t 1) M2) (2 * Z.of_nat (2 * j)) in
  int16 (Z.land (int16 d) 3 - Z.land (int16 (shr d 2)) 3) = cbd2 t j /\
  shr (shr d 2) 2 =
    Z.shiftr (Z.land t M2) (2 * Z.of_nat (2 * S j)) +
    Z.shiftr (Z.land (shr t 1) M2) (2 * Z.of_nat (2 * S j)).
Proof.
  intros Hj. cbv zeta.
  set (x0 := Z.land t M2). set (y0 := Z.land (shr t 1) M2).
  assert (Sx : forall n, sparse M2 (Z.shiftr x0 (2 * Z.of_nat n)))
    by (intros n; apply sparse_shr_n; [lia | reflexivity | apply sparse_land]).
  assert (Sy : forall n, sparse M2 (Z.shiftr y0 (2 * Z.of_nat n)))
    by (intros n; apply sparse_shr_n; [lia | reflexivity | apply sparse_land]).
  set (X := Z.shiftr x0 (2 * Z.of_nat (2 * j))).
  set (Y := Z.shiftr y0 (2 * Z.of_nat (2 * j))).
  assert (EX2 : Z.shiftr X 2 = Z.shiftr x0 (2 * Z.of_nat (2 * j + 1)))
    by (unfold X; rewrite Z.shiftr_shiftr by lia; f_equal; lia).
  assert (EY2 : Z.shiftr Y 2 = Z.shiftr y0 (2 * Z.of_nat (2 * j + 1)))
    by (unfold Y; rewrite Z.shiftr_shiftr by lia; f_equal; lia).
  destruct (sparse2_step X Y (Sx _) (Sy _)) as [Ea Ed].
  assert (SX2 : sparse M2 (Z.shiftr X 2)) by (rewrite EX2; apply Sx).
  assert (SY2 : sparse M2 (Z.shiftr Y 2)) by (rewrite EY2; apply Sy).
  destruct (sparse2_step _ _ SX2 SY2) as [Eb Ed'].
  change 3 with (Z.ones 2). rewrite !land_int16 by lia. change (2 ^ 2) with 4.
  rewrite Ed, Ea, Eb, Ed'. split.
  - assert (Bx : forall n, (n < 32)%nat ->
              Z.shiftr x0 (2 * Z.of_nat n) mod 2 = bit t (2 * n)).
    { intros n Hn. rewrite mod2_bit0.
      replace (2 * Z.of_nat n) with (Z.of_nat (2 * n)) by lia.
      rewrite bit_shr. cbn [Nat.add]. unfold x0.
      rewrite bit_land, M2_bits by exact Hn. lia. }
    assert (By : forall n, (n < 32)%nat ->
              Z.shiftr y0 (2 * Z.of_nat n) mod 2 = bit t (2 * n + 1)).
    { intros n Hn. rewrite mod2_bit0.
      replace (2 * Z.of_nat n) with (Z.of_nat (2 * n)) by lia.
      rewrite bit_shr. cbn [Nat.add]. unfold y0.
      rewrite bit_land, M2_bits by exact Hn. unfold shr.
      change 1 with (Z.of_nat 1) at 1. rewrite bit_shr. lia. }
    rewrite EX2, EY2. unfold X, Y.
    rewrite !Bx, !By by lia. unfold cbd2.
    replace (2 * (2 * j))%nat with (4 * j)%nat by lia.
    replace (2 * (2 * j + 1))%nat with (4 * j + 2)%nat by lia.
    replace (4 * j + 2 + 1)%nat with (4 * j + 3)%nat by lia.
    apply int16_id.
    pose proof (bit_range t (4 * j)). pose proof (bit_range t (4 * j + 1)).
    pose proof (bit_range t (4 * j + 2)). pose proof (bit_range t (4 * j + 3)).
    change (2 ^ 15) with 32768. lia.
  - rewrite EX2, EY2. rewrite !Z.shiftr_shiftr by lia. f_equal; f_equal; lia.
Qed.

(** The inner loop of [DeriveNoise2] for the word t of row i. *)
Lemma noise2_inner (t : Z) (i : nat) (q : list Z) :
  length q = N -> (i < 16)%nat ->
  exists s,
    for_range 16 0 1 (fun j '(p, d) =>
      let a := Z.land (int16 d) 3 in
      let d := shr d 2 in
      let b := Z.land (int16 d) 3 in
      let d := shr d 2 in
      p <- upd p (16 * i + j) (int16 (a - b)) ;;
      Ok (p, d))
      (q, u64 (Z.land t M2 + Z.land (shr t 1) M2)) = Ok s /\
    length (fst s) = N /\
    (forall j, (j < 16)%nat -> nth (16 * i + j) (fst s) 0 = cbd2 t j) /\
    (forall m, (m < 16 * i \/ 16 * S i <= m)%nat -> nth m (fst s) 0 = nth m q 0).
Proof.
  intros Hq Hi. unfold N in Hq.
  match goal with |- exists s, for_range 16 0 1 ?body ?s0 = Ok s /\ _ =>
    destruct (for_range_inv
      (fun j (x : list Z * Z) =>
         length (fst x) = 256%nat /\
         snd x = Z.shiftr (Z.land t M2) (2 * Z.of_nat (2 * j)) +
                 Z.shiftr (Z.land (shr t 1) M2) (2 * Z.of_nat (2 * j)) /\
         (forall j', (j' < j)%nat -> nth (16 * i + j') (fst x) 0 = cbd2 t j') /\
         (forall m, (m < 16 * i \/ 16 * i + j <= m)%nat ->
                    nth m (fst x) 0 = nth m q 0))
      16 0 1 body s0) as (s & E & H1 & _ & H3 & H4)
  end.
  - cbn [fst snd]. split; [exact Hq|]. split; [|split].
    + rewrite !Z.shiftr_0_r.
      pose proof (sparse2_lt _ (sparse_land M2 t)).
      pose proof (sparse2_lt _ (sparse_land M2 (shr t 1))).
      unfold u64. apply Z.mod_small.
      change (2 ^ 63) with 9223372036854775808 in *.
      change (2 ^ 64) with 18446744073709551616. lia.
    + intros j' Hj'. lia.
    + intros m _. reflexivity.
  - intros j [q' d] Hj (Hl & Hd & Hc & Hf). cbn [fst snd] in Hl, Hd, Hc, Hf.
    cbv zeta. rewrite Nat.add_0_l, Nat.mul_1_l.
    rewrite upd_insert by lia. cbn [bind]. eexists. split; [reflexivity|].
    cbn [fst snd]. subst d.
    destruct (noise2_coeff t j Hj) as [Ec Ed]. cbv zeta in Ec, Ed.
    split; [rewrite length_insert; exact Hl|]. split; [exact Ed|]. split.
    + intros j' Hj'. destruct (Nat.eq_dec j' j) as [-> | Hne].
      * rewrite nth_insert_eq by lia. exact Ec.
      * rewrite nth_insert_ne by lia. apply Hc. lia.
    + intros m Hm. rewrite nth_insert_ne by lia. apply Hf. lia.
  - exists s. split; [exact E|]. split; [exact H1|]. split; [exact H3|].
    intros m Hm. apply H4. lia.
Qed.

Lemma bit_sum_range (v a b c d : Z) :
  v = a + b - (c + d) -> 0 <= a <= 1 -> 0 <= b <= 1 -> 0 <= c <= 1 -> 0 <= d <= 1 ->
  -2 <= v <= 2.
Proof. lia. Qed.

(** [DeriveNoise2] returns on every seed and nonce, and coefficient
    16 i + j of its result is the centered binomial sample (two bits minus
    two bits) taken from bits 4 j, ..., 4 j + 3 of the 64-bit little-endian
    word i of the SHAKE-256 stream of seed and nonce; so every coefficient
    is in [-2, 2], whatever p held before. *)
Theorem DeriveNoise2_cbd
    (shake256 : list Z -> nat -> Z) (p seed : list Z) (nonce : Z) :
  length p = N ->
  exists p',
    DeriveNoise2 shake256 p seed nonce = Ok p' /\ length p' = N /\
    (forall i j, (i < 16)%nat -> (j < 16)%nat ->
       nth (16 * i + j) p' 0 =
       cbd2 (Mode3.word (squeeze (shake256 (seed ++ [nonce])) 0 128) (8 * i)) j) /\
    (forall m, (m < N)%nat -> -2 <= nth m p' 0 <= 2).
Proof.
  intros Hp. unfold DeriveNoise2. cbv zeta.
  set (buf := squeeze _ 0 128).
  assert (Hbuf : length buf = 128%nat) by (subst buf; apply length_squeeze).
  match goal with |- exists p', for_range 16 0 1 ?body p = Ok p' /\ _ =>
    destruct (for_range_inv
      (fun i (q : list Z) =>
         length q = N /\
         forall i' j, (i' < i)%nat -> (j < 16)%nat ->
           nth (16 * i' + j) q 0 = cbd2 (Mode3.word buf (8 * i')) j)
      16 0 1 body p) as (p' & E & Hl & Hc)
  end.
  - split; [exact Hp|]. intros i' j Hi'. lia.
  - intros i q Hi [Hq Hc]. rewrite Nat.add_0_l, Nat.mul_1_l.
    rewrite Mode3Facts.le_uint64_word by lia. cbn [bind].
    destruct (noise2_inner (Mode3.word buf (8 * i)) i q Hq Hi)
      as (s & Es & Hls & Hcs & Hfs).
    unfold M2 in Es. rewrite Es. cbn [bind]. eexists. split; [reflexivity|].
    split; [exact Hls|].
    intros i' j Hi' Hj. destruct (Nat.eq_dec i' i) as [-> | Hne].
    + apply Hcs. exact Hj.
    + rewrite Hfs by lia. apply Hc; [lia | exact Hj].
  - exists p'. split; [exact E|]. split; [exact Hl|]. split.
    + intros i j Hi Hj. apply Hc; assumption.
    + intros m Hm. unfold N in Hm.
      rewrite (Nat.div_mod_eq m 16).
      assert (Hd : (m / 16 < 16)%nat) by (apply Nat.Div0.div_lt_upper_bound; lia).
      assert (Hr : (m mod 16 < 16)%nat) by (apply Nat.mod_upper_bound; lia).
      rewrite (Hc _ _ Hd Hr).
      eapply bit_sum_range; [reflexivity | apply bit_range ..].
Qed.

Lemma DeriveNoise2_cbd_witness :
  exists p',
    DeriveNoise2 Examples.ones_stream zeroPoly [1; 2; 3] 7 = Ok p' /\
    length p' = N /\
    (forall i j, (i < 16)%nat -> (j < 16)%nat ->
       nth (16 * i + j) p' 0 =
       cbd2 (Mode3.word (squeeze (Examples.ones_stream ([1; 2; 3] ++ [7])) 0 128)
                        (8 * i)) j) /\
    (forall m, (m < N)%nat -> -2 <= nth m p' 0 <= 2).
Proof.
  apply (DeriveNoise2_cbd Examples.ones_stream zeroPoly [1; 2; 3] 7).
  reflexivity.
Defined.

(** *** eta = 3 *)

Lemma M3_bits (n : nat) : (n < 16)%nat -> bit M3 (3 * n) = 1.
Proof.
  intros Hn.
  assert (H : forallb (fun n => bit M3 (3 * n) =? 1) (seq 0 16) = true)
    by (vm_compute; reflexivity).
  rewrite forallb_forall in H. apply Z.eqb_eq, H, in_seq. lia.
Qed.

Lemma sparse3_lt (x : Z) : sparse M3 x -> 0 <= x < 2 ^ 46.
Proof. apply (sparse_lt 46 M3); [lia | reflexivity]. Qed.

Lemma sparse3_step (X Y Z : Z) :
  sparse M3 X -> sparse M3 Y -> sparse M3 Z ->
  (X + Y + Z) mod 8 = X mod 2 + Y mod 2 + Z mod 2 /\
  shr (X + Y + Z) 3 = Z.shiftr X 3 + Z.shiftr Y 3 + Z.shiftr Z 3.
Proof.
  intros HX HY HZ.
  pose proof (sparse_mod 3 M3 ltac:(lia) eq_refl X HX) as EX.
  pose proof (sparse_mod 3 M3 ltac:(lia) eq_refl Y HY) as EY.
  pose proof (sparse_mod 3 M3 ltac:(lia) eq_refl Z HZ) as EZ.
  unfold shr. rewrite !Z.shiftr_div_pow2 by lia.
  change (2 ^ 3) with 8 in *. Z.div_mod_to_equations. lia.
Qed.

(** The coefficient the inner loop of [DeriveNoise3] stores at step j. *)
Lemma noise3_coeff (t : Z) (j : nat) :
  (j < 8)%nat ->
  let d := Z.shiftr (Z.land t M3) (3 * Z.of_nat (2 * j)) +
           Z.shiftr (Z.land (shr t 1) M3) (3 * Z.of_nat (2 * j)) +
           Z.shiftr (Z.land (shr t 2) M3) (3 * Z.of_nat (2 * j)) in
  int16 (Z.land (int16 d) 7 - Z.land (int16 (shr d 3)) 7) = cbd3 t j /\
  shr (shr d 3) 3 =
    Z.shiftr (Z.land t M3) (3 * Z.of_nat (2 * S j)) +
    Z.shiftr (Z.land (shr t 1) M3) (3 * Z.of_nat (2 * S j)) +
    Z.shiftr (Z.land (shr t 2) M3) (3 * Z.of_nat (2 * S j)).
Proof.
  intros Hj. cbv zeta.
  set (x0 := Z.land t M3). set (y0 := Z.land (shr t 1) M3).
  set (z0 := Z.land (shr t 2) M3).
  assert (Sx : forall n, sparse M3 (Z.shiftr x0 (3 * Z.of_nat n)))
    by (intros n; apply sparse_shr_n; [lia | reflexivity | apply sparse_land]).
  assert (Sy : forall n, sparse M3 (Z.shiftr y0 (3 * Z.of_nat n)))
    by (intros n; apply sparse_shr_n; [lia | reflexivity | apply sparse_land]).
  assert (Sz : forall n, sparse M3 (Z.shiftr z0 (3 * Z.of_nat n)))
    by (intros n; apply sparse_shr_n; [lia | reflexivity | apply sparse_land]).
  set (X := Z.shiftr x0 (3 * Z.of_nat (2 * j))).
  set (Y := Z.shiftr y0 (3 * Z.of_nat (2 * j))).
  set (Z' := Z.shiftr z0 (3 * Z.of_nat (2 * j))).
  assert (EX2 : Z.shiftr X 3 = Z.shiftr x0 (3 * Z.of_nat (2 * j + 1)))
    by (unfold X; rewrite Z.shiftr_shiftr by lia; f_equal; lia).
  assert (EY2 : Z.shiftr Y 3 = Z.shiftr y0 (3 * Z.of_nat (2 * j + 1)))
    by (unfold Y; rewrite Z.shiftr_shiftr by lia; f_equal; lia).
  assert (EZ2 : Z.shiftr Z' 3 = Z.shiftr z0 (3 * Z.of_nat (2 * j + 1)))
    by (unfold Z'; rewrite Z.shiftr_shiftr by lia; f_equal; lia).
  destruct (sparse3_step X Y Z' (Sx _) (Sy _) (Sz _)) as [Ea Ed].
  assert (SX2 : sparse M3 (Z.shiftr X 3)) by (rewrite EX2; apply Sx).
  assert (SY2 : sparse M3 (Z.shiftr Y 3)) by (rewrite EY2; apply Sy).
  assert (SZ2 : sparse M3 (Z.shiftr Z' 3)) by (rewrite EZ2; apply Sz).
  destruct (sparse3_step _ _ _ SX2 SY2 SZ2) as [Eb Ed'].
  change 7 with (Z.ones 3). rewrite !land_int16 by lia. change (2 ^ 3) with 8.
  rewrite Ed, Ea, Eb, Ed'. split.
  - assert (Bx : forall n, (n < 16)%nat ->
              Z.shiftr x0 (3 * Z.of_nat n) mod 2 = bit t (3 * n)).
    { intros n Hn. rewrite mod2_bit0.
      replace (3 * Z.of_nat n) with (Z.of_nat (3 * n)) by lia.
      rewrite bit_shr. cbn [Nat.add]. unfold x0.
      rewrite bit_land, M3_bits by exact Hn. lia. }
    assert (By : forall n, (n < 16)%nat ->
              Z.shiftr y0 (3 * Z.of_nat n) mod 2 = bit t (3 * n + 1)).
    { intros n Hn. rewrite mod2_bit0.
      replace (3 * Z.of_nat n) with (Z.of_nat (3 * n)) by lia.
      rewrite bit_shr. cbn [Nat.add]. unfold y0.
      rewrite bit_land, M3_bits by exact Hn. unfold shr.
      change 1 with (Z.of_nat 1) at 1. rewrite bit_shr. lia. }
    assert (Bz : forall n, (n < 16)%nat ->
              Z.shiftr z0 (3 * Z.of_nat n) mod 2 = bit t (3 * n + 2)).
    { intros n Hn. rewrite mod2_bit0.
      replace (3 * Z.of_nat n) with (Z.of_nat (3 * n)) by lia.
      rewrite bit_shr. cbn [Nat.add]. unfold z0.
      rewrite bit_land, M3_bits by exact Hn. unfold shr.
      change 2 with (Z.of_nat 2) at 1. rewrite bit_shr. lia. }
    rewrite EX2, EY2, EZ2. unfold X, Y, Z'.
    rewrite !Bx, !By, !Bz by lia. unfold cbd3.
    replace (3 * (2 * j))%nat with (6 * j)%nat by lia.
    replace (3 * (2 * j + 1))%nat with (6 * j + 3)%nat by lia.
    replace (6 * j + 3 + 1)%nat with (6 * j + 4)%nat by lia.
    replace (6 * j + 3 + 2)%nat with (6 * j + 5)%nat by lia.
    apply int16_id.
    pose proof (bit_range t (6 * j)). pose proof (bit_range t (6 * j + 1)).
    pose proof (bit_range t (6 * j + 2)). pose proof (bit_range t (6 * j + 3)).
    pose proof (bit_range t (6 * j + 4)). pose proof (bit_range t (6 * j + 5)).
    change (2 ^ 15) with 32768. lia.
  - rewrite EX2, EY2, EZ2. rewrite !Z.shiftr_shiftr by lia.
    f_equal; [f_equal|]; f_equal; lia.
Qed.

(** The inner loop of [DeriveNoise3] for the word t of row i. *)
Lemma noise3_inner (t : Z) (i : nat) (q : list Z) :
  length q = N -> (i < 32)%nat ->
  exists s,
    for_range 8 0 1 (fun j '(p, d) =>
      let a := Z.land (int16 d) 7 in
      let d := shr d 3 in
      let b := Z.land (int16 d) 7 in
      let d := shr d 3 in
      p <- upd p (8 * i + j) (int16 (a - b)) ;;
      Ok (p, d))
      (q, u64 (u64 (Z.land t M3 + Z.land (shr t 1) M3) + Z.land (shr t 2) M3))
    = Ok s /\
    length (fst s) = N /\
    (forall j, (j < 8)%nat -> nth (8 * i + j) (fst s) 0 = cbd3 t j) /\
    (forall m, (m < 8 * i \/ 8 * S i <= m)%nat -> nth m (fst s) 0 = nth m q 0).
Proof.
  intros Hq Hi. unfold N in Hq.
  match goal with |- exists s, for_range 8 0 1 ?body ?s0 = Ok s /\ _ =>
    destruct (for_range_inv
      (fun j (x : list Z * Z) =>
         length (fst x) = 256%nat /\
         snd x = Z.shiftr (Z.land t M3) (3 * Z.of_nat (2 * j)) +
                 Z.shiftr (Z.land (shr t 1) M3) (3 * Z.of_nat (2 * j)) +
                 Z.shiftr (Z.land (shr t 2) M3) (3 * Z.of_nat (2 * j)) /\
         (forall j', (j' < j)%nat -> nth (8 * i + j') (fst x) 0 = cbd3 t j') /\
         (forall m, (m < 8 * i \/ 8 * i + j <= m)%nat ->
                    nth m (fst x) 0 = nth m q 0))
      8 0 1 body s0) as (s & E & H1 & _ & H3 & H4)
  end.
  - cbn [fst snd]. split; [exact Hq|]. split; [|split].
    + rewrite !Z.shiftr_0_r.
      pose proof (sparse3_lt _ (sparse_land M3 t)).
      pose proof (sparse3_lt _ (sparse_land M3 (shr t 1))).
      pose proof (sparse3_lt _ (sparse_land M3 (shr t 2))).
      unfold u64. change (2 ^ 46) with 70368744177664 in *.
      change (2 ^ 64) with 18446744073709551616.
      rewrite (Z.mod_small (Z.land t M3 + Z.land (shr t 1) M3)) by lia.
      apply Z.mod_small. lia.
    + intros j' Hj'. lia.
    + intros m _. reflexivity.
  - intros j [q' d] Hj (Hl & Hd & Hc & Hf). cbn [fst snd] in Hl, Hd, Hc, Hf.
    cbv zeta. rewrite Nat.add_0_l, Nat.mul_1_l.
    rewrite upd_insert by lia. cbn [bind]. eexists. split; [reflexivity|].
    cbn [fst snd]. subst d.
    destruct (noise3_coeff t j Hj) as [Ec Ed]. cbv zeta in Ec, Ed.
    split; [rewrite length_insert; exact Hl|]. split; [exact Ed|]. split.
    + intros j' Hj'. destruct (Nat.eq_dec j' j) as [-> | Hne].
      * rewrite nth_insert_eq by lia. exact Ec.
      * rewrite nth_insert_ne by lia. apply Hc. lia.
    + intros m Hm. rewrite nth_insert_ne by lia. apply Hf. lia.
  - exists s. split; [exact E|]. split; [exact H1|]. split; [exact H3|].
    intros m Hm. apply H4. lia.
Qed.

Lemma bit_sum_range3 (v a b c d e f : Z) :
  v = a + b + c - (d + e + f) ->
  0 <= a <= 1 -> 0 <= b <= 1 -> 0 <= c <= 1 ->
  0 <= d <= 1 -> 0 <= e <= 1 -> 0 <= f <= 1 ->
  -3 <= v <= 3.
Proof. lia. Qed.

(** [DeriveNoise3] returns on every seed and nonce, and coefficient
    8 i + j of its result is the centered binomial sample (three bits minus
    three bits) taken from bits 6 j, ..., 6 j + 5 of the little-endian word
    read at byte 6 i of the 192 bytes of the SHAKE-256 stream of seed and
    nonce (followed by two zero bytes); so every coefficient is in [-3, 3],
    whatever p held before. *)
Theorem DeriveNoise3_cbd
    (shake256 : list Z -> nat -> Z) (p seed : list Z) (nonce : Z) :
  length p = N ->
  exists p',
    DeriveNoise3 shake256 p seed nonce = Ok p' /\ length p' = N /\
    (forall i j, (i < 32)%nat -> (j < 8)%nat ->
       nth (8 * i + j) p' 0 =
       cbd3 (Mode3.word (squeeze (shake256 (seed ++ [nonce])) 0 192 ++ [0; 0])
                        (6 * i)) j) /\
    (forall m, (m < N)%nat -> -3 <= nth m p' 0 <= 3).
Proof.
  intros Hp. unfold DeriveNoise3. cbv zeta.
  set (buf := squeeze _ 0 192 ++ [0; 0]).
  assert (Hbuf : length buf = 194%nat)
    by (subst buf; rewrite length_app, length_squeeze; reflexivity).
  match goal with |- exists p', for_range 32 0 1 ?body p = Ok p' /\ _ =>
    destruct (for_range_inv
      (fun i (q : list Z) =>
         length q = N /\
         forall i' j, (i' < i)%nat -> (j < 8)%nat ->
           nth (8 * i' + j) q 0 = cbd3 (Mode3.word buf (6 * i')) j)
      32 0 1 body p) as (p' & E & Hl & Hc)
  end.
  - split; [exact Hp|]. intros i' j Hi'. lia.
  - intros i q Hi [Hq Hc]. rewrite Nat.add_0_l, Nat.mul_1_l.
    rewrite Mode3Facts.le_uint64_word by lia. cbn [bind].
    destruct (noise3_inner (Mode3.word buf (6 * i)) i q Hq Hi)
      as (s & Es & Hls & Hcs & Hfs).
    unfold M3 in Es. rewrite Es. cbn [bind]. eexists. split; [reflexivity|].
    split; [exact Hls|].
    intros i' j Hi' Hj. destruct (Nat.eq_dec i' i) as [-> | Hne].
    + apply Hcs. exact Hj.
    + rewrite Hfs by lia. apply Hc; [lia | exact Hj].
  - exists p'. split; [exact E|]. split; [exact Hl|]. split.
    + intros i j Hi Hj. apply Hc; assumption.
    + intros m Hm. unfold N in Hm.
      rewrite (Nat.div_mod_eq m 8).
      assert (Hd : (m / 8 < 32)%nat) by (apply Nat.Div0.div_lt_upper_bound; lia).
      assert (Hr : (m mod 8 < 8)%nat) by (apply Nat.mod_upper_bound; lia).
      rewrite (Hc _ _ Hd Hr).
      eapply bit_sum_range3; [reflexivity | apply bit_range ..].
Qed.

Lemma DeriveNoise3_cbd_witness :
  exists p',
    DeriveNoise3 Examples.ones_stream zeroPoly [1; 2; 3] 7 = Ok p' /\
    length p' = N /\
    (forall i j, (i < 32)%nat -> (j < 8)%nat ->
       nth (8 * i + j) p' 0 =
       cbd3 (Mode3.word (squeeze (Examples.ones_stream ([1; 2; 3] ++ [7])) 0 192 ++
                         [0; 0]) (6 * i)) j) /\
    (forall m, (m < N)%nat -> -3 <= nth m p' 0 <= 3).
Proof.
  apply (DeriveNoise3_cbd Examples.ones_stream zeroPoly [1; 2; 3] 7).
  reflexivity.
Defined.

End NoiseFacts.

(** ** The rejection sampler, block by block *)

Module UniformFacts.
Import Sample SampleFacts.

(** As long as the stream has offered fewer than N candidates below Q, the
    loop squeezes another block. *)
Lemma uniform_loop_running (Q : Z) (h : nat -> Z) (p0 : list Z) :
  length p0 = N ->
  forall fuel blk acc,
    (length acc < N)%nat ->
    (length (acc ++ accepted Q (stream_cands h blk fuel)) < N)%nat ->
    uniform_loop Q fuel h blk (acc ++ drop (length acc) p0) (length acc) = None.
Proof.
  intros Hp0. induction fuel as [|fuel IH]; intros blk acc Hacc Hn; [reflexivity|].
  cbn [uniform_loop]. cbv zeta.
  rewrite stream_cands_S, accepted_app, app_assoc in Hn.
  destruct (uniform_block_spec Q (squeeze h (168 * blk) 168) p0 acc
              (length_squeeze _ _ _) Hp0 Hacc) as [[Hl E] | [Hl E]].
  - rewrite E. clear E.
    destruct (Nat.eqb_spec
                (length (acc ++ accepted Q (block_cands (squeeze h (168 * blk) 168) 56)))
                N) as [EN | EN]; [lia|].
    apply IH; [exact Hl | exact Hn].
  - rewrite length_app in Hn. lia.
Qed.

(** [DeriveUniform], allowed to squeeze fuel blocks, never panics: it
    returns exactly when those blocks hold N candidates below Q, and then
    the result is Tangle of the first N of them in stream order, whatever p
    held before. *)
Theorem DeriveUniform_spec
    (Q : Z) (shake128 : list Z -> nat -> Z) (Tangle : list Z -> list Z)
    (p0 seed : list Z) (x y : Z) (fuel : nat) :
  length p0 = N ->
  DeriveUniform Q shake128 Tangle fuel p0 seed x y =
  let cs := accepted Q (stream_cands (shake128 (seed ++ [x; y])) 0 fuel) in
  if (N <=? length cs)%nat then Some (Ok (Tangle (take N cs))) else None.
Proof.
  intros Hp0. cbv zeta. unfold DeriveUniform. cbv zeta.
  set (h := shake128 (seed ++ [x; y])).
  destruct (Nat.leb_spec N (length (accepted Q (stream_cands h 0 fuel)))) as [Hn | Hn].
  - pose proof (uniform_loop_spec Q h p0 fuel Hp0 0%nat [] fuel) as E.
    cbn [length app] in E. rewrite drop_0 in E.
    rewrite E; [reflexivity | unfold N; lia | exact Hn | lia].
  - pose proof (uniform_loop_running Q h p0 Hp0 fuel 0%nat []) as E.
    cbn [length app] in E. rewrite drop_0 in E.
    rewrite E; [reflexivity | unfold N; lia | exact Hn].
Qed.

Lemma DeriveUniform_spec_witness :
  DeriveUniform 3329 Examples.ones_stream (fun p => p) 5 (repeat 7 256) [1; 2] 3 4 =
  let cs := accepted 3329
              (stream_cands (Examples.ones_stream ([1; 2] ++ [3; 4])) 0 5) in
  if (N <=? length cs)%nat then Some (Ok (take N cs)) else None.
Proof.
  apply (DeriveUniform_spec 3329 Examples.ones_stream (fun p => p)
           (repeat 7 256) [1; 2] 3 4 5).
  reflexivity.
Defined.

End UniformFacts.

(** ** The hint encoding is canonical *)

Module HintCanonical.
Import Common Mode3 HintSpec HintOrder SliceFacts LoopFacts HintFacts PackHintFacts.

Lemma increasing_from_weaken (m n : nat) (l : list nat) :
  (m <= n)%nat -> increasing_from n l -> increasing_from m l.
Proof.
  intros Hmn. destruct l as [|x l]; [exact id|].
  cbn [increasing_from]. intros [Hx Hl]. split; [lia | exact Hl].
Qed.

Lemma filter_below_nil (k n : nat) (l : list nat) :
  (k <= n)%nat -> increasing_from n l -> List.filter (fun x => (x <? k)%nat) l = [].
Proof.
  revert n. induction l as [|x l IH]; intros n Hk Hl; [reflexivity|].
  destruct Hl as [Hx Hl]. cbn [List.filter].
  destruct (Nat.ltb_spec x k); [lia|]. apply (IH (S x)); [lia | exact Hl].
Qed.

Lemma existsb_below (c n : nat) (l : list nat) :
  (c < n)%nat -> increasing_from n l -> existsb (Nat.eqb c) l = false.
Proof.
  revert n. induction l as [|x l IH]; intros n Hc Hl; [reflexivity|].
  destruct Hl as [Hx Hl]. cbn [existsb].
  destruct (Nat.eqb_spec c x); [lia|]. apply (IH (S x)); [lia | exact Hl].
Qed.

Lemma filter_lt_S (n m : nat) (l : list nat) :
  increasing_from m l ->
  List.filter (fun x => (x <? S n)%nat) l =
  List.filter (fun x => (x <? n)%nat) l ++
  (if existsb (Nat.eqb n) l then [n] else []).
Proof.
  revert m. induction l as [|x l IH]; intros m Hl; [reflexivity|].
  destruct Hl as [Hx Hl]. cbn [List.filter existsb].
  destruct (Nat.lt_trichotomy x n) as [Hlt | [-> | Hgt]].
  - destruct (Nat.ltb_spec x (S n)); [|lia]. destruct (Nat.ltb_spec x n); [|lia].
    destruct (Nat.eqb_spec n x); [lia|]. cbn [orb app]. f_equal.
    apply (IH (S x)). exact Hl.
  - destruct (Nat.ltb_spec n (S n)); [|lia]. destruct (Nat.ltb_spec n n); [lia|].
    rewrite Nat.eqb_refl. cbn [orb].
    rewrite (filter_below_nil (S n) (S n) l) by (lia || exact Hl).
    rewrite (filter_below_nil n (S n) l) by (lia || exact Hl). reflexivity.
  - destruct (Nat.ltb_spec x (S n)); [lia|]. destruct (Nat.ltb_spec x n); [lia|].
    destruct (Nat.eqb_spec n x); [lia|]. cbn [orb].
    rewrite (filter_below_nil (S n) (S x) l) by (lia || exact Hl).
    rewrite (filter_below_nil n (S x) l) by (lia || exact Hl).
    rewrite (existsb_below n (S x) l) by (lia || exact Hl). reflexivity.
Qed.

Lemma filter_all (k : nat) (l : list nat) :
  (forall x, In x l -> (x < k)%nat) -> List.filter (fun x => (x <? k)%nat) l = l.
Proof.
  induction l as [|x l IH]; intros H; [reflexivity|]. cbn [List.filter].
  destruct (Nat.ltb_spec x k) as [_ | Hge].
  - f_equal. apply IH. intros y Hy. apply H. right. exact Hy.
  - specialize (H x (or_introl eq_refl)). lia.
Qed.

(** The positions of the ones set at a strictly increasing list of
    positions are that list. *)
Lemma positions_ones_at (l : list nat) :
  increasing_from 0 l -> (forall x, In x l -> (x < N)%nat) ->
  positions (ones_at l zeroPoly) N = l.
Proof.
  intros Hl Hlt.
  assert (G : forall n, (n <= N)%nat ->
            positions (ones_at l zeroPoly) n = List.filter (fun x => (x <? n)%nat) l).
  { induction n as [|n IH]; intros Hn.
    - cbn. symmetry. apply (filter_below_nil 0 0); [lia | exact Hl].
    - rewrite positions_S, IH by lia. rewrite (filter_lt_S n 0 l Hl). f_equal.
      rewrite nth_ones_at by (unfold zeroPoly; rewrite repeat_length; lia).
      rewrite nth_zeroPoly. destruct (existsb (Nat.eqb n) l); reflexivity. }
  rewrite G by lia. apply filter_all. exact Hlt.
Qed.

Lemma increasing_map_seq (f : nat -> nat) (n a m : nat) :
  (n = O \/ m <= f a)%nat ->
  (forall j, (a < j < a + n)%nat -> (f (j - 1) < f j)%nat) ->
  increasing_from m (map f (seq a n)).
Proof.
  revert a m. induction n as [|n IH]; intros a m Hm Hf; [exact I|].
  cbn [seq map increasing_from]. split; [lia|].
  apply IH.
  - destruct n as [|n]; [left; reflexivity|]. right.
    specialize (Hf (S a) ltac:(lia)). replace (S a - 1)%nat with a in Hf by lia. lia.
  - intros j Hj. apply Hf. lia.
Qed.

Section Canonical.

Variables (Omega K : nat) (buf : list Z).
Hypothesis HOmega : (Omega <= 255)%nat.
Hypothesis Hlen : length buf = (Omega + K)%nat.
Hypothesis Hbytes : is_bytes buf = true.
Hypothesis Hvalid : hint_valid Omega K buf = true.

Let a (k : nat) : nat := Z.to_nat (prev_sop Omega buf k).
Let b (k : nat) : nat := Z.to_nat (sop Omega buf k).
Let f (j : nat) : nat := Z.to_nat (nth j buf 0).
Let v : list (list Z) := decode_hint Omega K buf.

Lemma canon_byte (j : nat) : (j < Omega + K)%nat -> 0 <= nth j buf 0 < 256.
Proof.
  intros Hj. apply (coeffs_in_nth 0 256 buf j Hbytes). lia.
Qed.

Lemma canon_a_S (k : nat) : a (S k) = b k.
Proof. reflexivity. Qed.

Lemma canon_elem (k : nat) :
  (k < K)%nat ->
  (a k <= b k <= Omega)%nat /\
  forall j, (a k < j < b k)%nat -> nth (j - 1) buf 0 < nth j buf 0.
Proof.
  intros Hk. pose proof Hvalid as Hv. unfold hint_valid in Hv.
  apply andb_true_iff in Hv. destruct Hv as [He _]. rewrite forallb_forall in He.
  specialize (He k ltac:(apply in_seq; lia)).
  unfold elem_ok, sop_ok in He. rewrite !andb_true_iff, !Z.leb_le in He.
  destruct He as [[H1 H2] H3]. split; [unfold a, b; lia|].
  intros j Hj. unfold incr_ok in H3. rewrite forallb_forall in H3.
  apply Z.ltb_lt. apply H3. apply in_seq. fold (a k) (b k). lia.
Qed.

Lemma canon_aK : (a K <= Omega)%nat.
Proof.
  destruct (Nat.eq_dec K O) as [E | E].
  - rewrite E. unfold a. cbn. lia.
  - replace K with (S (K - 1)) at 1 by lia.
    rewrite canon_a_S. apply canon_elem. lia.
Qed.

Lemma canon_pad (x : nat) : (a K <= x < Omega)%nat -> nth x buf 0 = 0.
Proof.
  intros Hx. pose proof Hvalid as Hv. unfold hint_valid in Hv.
  apply andb_true_iff in Hv. destruct Hv as [_ Hp]. unfold pad_ok in Hp. rewrite forallb_forall in Hp.
  apply Z.eqb_eq. apply Hp. apply in_seq. fold (a K). lia.
Qed.

Lemma canon_nth_v (k : nat) : (k < K)%nat -> nth k v [] = elem_upto buf (a k) (b k).
Proof.
  intros Hk. unfold v, decode_hint.
  apply (nth_map_seq
           (fun k => elem_upto buf (Z.to_nat (prev_sop Omega buf k))
                                   (Z.to_nat (sop Omega buf k))) [] K k Hk).
Qed.

Lemma canon_length_v : length v = K.
Proof. unfold v, decode_hint. rewrite length_map, length_seq. reflexivity. Qed.

Lemma canon_positions (k : nat) :
  (k < K)%nat ->
  positions (nth k v []) N = map f (seq (a k) (b k - a k)).
Proof.
  intros Hk. rewrite canon_nth_v by exact Hk. unfold elem_upto.
  destruct (canon_elem k Hk) as [Hab Hinc].
  apply positions_ones_at.
  - apply increasing_map_seq; [right; lia|].
    intros j Hj. unfold f.
    pose proof (canon_byte (j - 1) ltac:(lia)).
    pose proof (canon_byte j ltac:(lia)).
    specialize (Hinc j ltac:(lia)). lia.
  - intros x Hx. apply in_map_iff in Hx. destruct Hx as (j & <- & Hj).
    apply in_seq in Hj. unfold a, b in *.
    pose proof (canon_byte j ltac:(lia)). unfold N, f. lia.
Qed.

Lemma canon_offs (k : nat) : (k <= K)%nat -> offs v k = a k.
Proof.
  induction k as [|k IH]; intros Hk; [reflexivity|].
  rewrite offs_S by (rewrite canon_length_v; lia).
  rewrite IH by lia. rewrite canon_positions by lia.
  rewrite length_map, length_seq, canon_a_S.
  pose proof (canon_elem k ltac:(lia)). lia.
Qed.

Lemma canon_weight : (weight v <= Omega)%nat.
Proof.
  rewrite <- offs_weight, canon_length_v, canon_offs by lia. apply canon_aK.
Qed.

Lemma canon_is_hint : is_hint K v = true.
Proof.
  unfold is_hint. rewrite canon_length_v, Nat.eqb_refl. cbn [andb].
  apply forallb_forall. intros vi Hvi. unfold v, decode_hint in Hvi.
  apply in_map_iff in Hvi. destruct Hvi as (k & <- & _).
  rewrite length_elem_upto, Nat.eqb_refl. cbn [andb].
  unfold coeffs_in. apply forallb_forall. intros x Hx.
  destruct (In_nth _ _ 0 Hx) as (c & _ & <-).
  destruct (elem_upto_bits buf (Z.to_nat (prev_sop Omega buf k))
              (Z.to_nat (sop Omega buf k)) c) as [[-> | ->] _]; reflexivity.
Qed.

Lemma canon_interval (x k : nat) :
  (k <= K)%nat -> (x < a k)%nat -> exists m, (m < k)%nat /\ (a m <= x < b m)%nat.
Proof.
  induction k as [|k IH]; intros Hk Hx; [unfold a in Hx; cbn in Hx; lia|].
  rewrite canon_a_S in Hx.
  destruct (Nat.lt_ge_cases x (a k)) as [Hlt | Hge].
  - destruct (IH ltac:(lia) Hlt) as (m & Hm & Hxm). exists m. split; [lia | exact Hxm].
  - exists k. split; lia.
Qed.

(** Packing the decoded vector of an accepted buffer writes that buffer. *)
Lemma canon_repack (dst : list Z) :
  length dst = (Omega + K)%nat -> is_bytes dst = true ->
  PackHint Omega K v dst = Ok buf.
Proof.
  intros Hd Hdb.
  assert (HN : forall i, (i < K)%nat -> length (nth i v []) = N).
  { intros i Hi. rewrite canon_nth_v by exact Hi. apply length_elem_upto. }
  destruct (PackHint_spec Omega K v HOmega canon_length_v HN canon_weight dst
              ltac:(lia) Hdb) as (buf' & E & Hl & _ & Hs & Hp & Hz).
  rewrite E. f_equal. apply (nth_ext _ _ 0 0); [lia|].
  intros x Hx. rewrite Hl, Hd in Hx.
  destruct (Nat.lt_ge_cases x Omega) as [HxO | HxO].
  - destruct (Nat.lt_ge_cases x (a K)) as [HxA | HxA].
    + destruct (canon_interval x K ltac:(lia) HxA) as (m & Hm & Hxm).
      replace x with (offs v m + (x - a m))%nat at 1
        by (rewrite canon_offs by lia; lia).
      rewrite Hp; [| exact Hm
                   | rewrite canon_positions, length_map, length_seq by exact Hm; lia].
      rewrite canon_positions by exact Hm.
      rewrite (nth_indep _ O (f O)) by (rewrite length_map, length_seq; lia).
      rewrite map_nth, seq_nth by lia.
      replace (a m + (x - a m))%nat with x by lia.
      unfold f. pose proof (canon_byte x ltac:(lia)). lia.
    + rewrite Hz by (rewrite canon_offs by lia; lia).
      symmetry. apply canon_pad. lia.
  - replace x with (Omega + (x - Omega))%nat by lia.
    fold (sop Omega buf' (x - Omega)) (sop Omega buf (x - Omega)).
    rewrite Hs by lia. rewrite canon_offs by lia. rewrite canon_a_S. unfold b.
    pose proof (canon_byte (Omega + (x - Omega)) ltac:(lia)) as Hb'.
    fold (sop Omega buf (x - Omega)) in Hb'. lia.
Qed.

End Canonical.

(** The hint encoding is canonical: when [UnpackHint] accepts a buffer of
    Omega + K bytes, the vector it returns is a hint vector with at most
    Omega bits set, and [PackHint] writes exactly that buffer for it. So no
    two accepted buffers decode to the same vector. *)
Theorem PackHint_UnpackHint (Omega K : nat) (buf dst : list Z) (v0 v : list (list Z)) :
  (Omega <= 255)%nat -> length buf = (Omega + K)%nat -> is_bytes buf = true ->
  length dst = (Omega + K)%nat -> is_bytes dst = true ->
  UnpackHint Omega K v0 buf = Ok (v, true) ->
  is_hint K v = true /\ (weight v <= Omega)%nat /\
  PackHint Omega K v dst = Ok buf.
Proof.
  intros HO Hl Hb Hd Hdb E.
  destruct (UnpackHint_char Omega K buf HO ltac:(lia) Hb v0) as (v' & E' & _ & Hdec).
  assert (Hvalid : hint_valid Omega K buf = true).
  { revert E'. generalize (hint_valid Omega K buf). intros c E'.
    rewrite E in E'. injection E' as _ Hc. symmetry. exact Hc. }
  assert (Hv : v = decode_hint Omega K buf).
  { rewrite <- (Hdec Hvalid). revert E'. generalize (hint_valid Omega K buf).
    intros c E'. rewrite E in E'. injection E' as Hv' _. exact Hv'. }
  subst v. split; [|split].
  - apply canon_is_hint.
  - apply canon_weight; assumption.
  - apply canon_repack; assumption.
Qed.

Lemma PackHint_UnpackHint_witness :
  is_hint 5 (<[0%nat := <[3%nat := 1%Z]> zeroPoly]>
               (<[1%nat := <[7%nat := 1%Z]> zeroPoly]> (zeroVecK 5))) = true /\
  (weight (<[0%nat := <[3%nat := 1%Z]> zeroPoly]>
             (<[1%nat := <[7%nat := 1%Z]> zeroPoly]> (zeroVecK 5))) <= 96)%nat /\
  PackHint 96 5 (<[0%nat := <[3%nat := 1%Z]> zeroPoly]>
                   (<[1%nat := <[7%nat := 1%Z]> zeroPoly]> (zeroVecK 5)))
           (repeat 255 101) =
  Ok ([3; 7] ++ repeat 0 94 ++ [1; 2; 2; 2; 2]).
Proof.
  apply (PackHint_UnpackHint 96 5 ([3; 7] ++ repeat 0 94 ++ [1; 2; 2; 2; 2])
           (repeat 255 101) (zeroVecK 5)).
  - lia.
  - reflexivity.
  - vm_compute. reflexivity.
  - reflexivity.
  - vm_compute. reflexivity.
  - vm_compute. reflexivity.
Defined.

End HintCanonical.

(** ** Buffers that are too short *)

Module BoundsFacts.
Import Common Mode3 SliceFacts LoopFacts.

(** A loop whose iterations either go on or panic, and whose last
    iteration panics, panics. *)
Lemma for_range_panics {S : Type} (I : nat -> S -> Prop) (n i0 step : nat)
    (body : nat -> S -> result S) (s : S) (msg : string) :
  I O s ->
  (forall k s, (k < n)%nat -> I k s ->
     (exists s', body (i0 + step * k)%nat s = Ok s' /\ I (Datatypes.S k) s' /\
                 (Datatypes.S k < n)%nat) \/
     body (i0 + step * k)%nat s = Panic msg) ->
  (0 < n)%nat ->
  for_range n i0 step body s = Panic msg.
Proof.
  revert I i0 s. induction n as [|n IH]; intros I i0 s H0 Hstep Hn; [lia|].
  cbn [for_range].
  destruct (Hstep O s ltac:(lia) H0) as [(s1 & E1 & I1 & Hlt) | E1];
    rewrite Nat.mul_0_r, Nat.add_0_r in E1; rewrite E1; cbn [bind]; [|reflexivity].
  apply (IH (fun k => I (Datatypes.S k))); [exact I1 | | lia].
  intros k s2 Hk I2.
  replace (i0 + step + step * k)%nat with (i0 + step * Datatypes.S k)%nat by lia.
  destruct (Hstep (Datatypes.S k) s2 ltac:(lia) I2) as [(s3 & E3 & I3 & Hlt3) | E3].
  - left. exists s3. split; [exact E3|]. split; [exact I3 | lia].
  - right. exact E3.
Qed.

Lemma upd_cases {A : Type} (l : list A) (i : nat) (x : A) :
  (exists l', upd l i x = Ok l' /\ length l' = length l /\ (i < length l)%nat) \/
  ((length l <= i)%nat /\ upd l i x = Panic "index out of range").
Proof.
  destruct (Nat.lt_ge_cases i (length l)) as [Hi | Hi].
  - left. exists (<[i := x]> l). split; [apply upd_insert; exact Hi|].
    split; [apply length_insert | exact Hi].
  - right. split; [exact Hi|]. revert i Hi.
    induction l as [|y l IH]; intros i Hi; [destruct i; reflexivity|].
    destruct i as [|i]; cbn [length] in Hi; [lia|].
    cbn [upd]. rewrite IH by lia. reflexivity.
Qed.

Lemma idx_cases {A : Type} (l : list A) (i : nat) :
  (exists v, idx l i = Ok v /\ (i < length l)%nat) \/
  ((length l <= i)%nat /\ idx l i = Panic "index out of range").
Proof.
  revert i. induction l as [|y l IH]; intros i.
  - right. split; [cbn; lia|]. destruct i; reflexivity.
  - destruct i as [|i]; [left; exists y; split; [reflexivity | cbn; lia]|].
    cbn [idx length]. destruct (IH i) as [(v & E & H) | [H E]]; rewrite E.
    + left. exists v. split; [reflexivity | lia].
    + right. split; [lia | reflexivity].
Qed.

(** Runs a loop body whose accesses may be out of range: every access is
    split into the case where it succeeds and the case where it panics. *)
Ltac step_access :=
  match goal with
  | |- context [upd ?l ?i ?x] =>
      let l' := fresh "l" in let HL := fresh "HL" in
      let H := fresh "H" in let E := fresh "E" in
      destruct (upd_cases l i x) as [(l' & E & HL & H) | [H E]]; rewrite E; clear E;
      cbn [bind]; [| try first [reflexivity | right; reflexivity]]
  | |- context [idx ?l ?i] =>
      let v := fresh "v" in
      let H := fresh "H" in let E := fresh "E" in
      destruct (idx_cases l i) as [(v & E & H) | [H E]]; rewrite E; clear E;
      cbn [bind]; [| try first [reflexivity | right; reflexivity]]
  end.

Ltac run_accesses :=
  cbv beta iota; repeat step_access; try (right; reflexivity).

Ltac short_read_loop n w Hp :=
  match goal with
  | |- context [for_range n 0 ?stp ?body (?s0, O)] =>
      rewrite (for_range_panics
                 (fun k (x : list Z * nat) =>
                    length (fst x) = 256%nat /\ snd x = (w * k)%nat)
                 n 0 stp body (s0, O) "index out of range");
      [ reflexivity
      | split; [exact Hp | cbn [snd]; lia]
      |
      | lia ]
  end.

Ltac short_body :=
  let k := fresh "k" in let b := fresh "b" in let j := fresh "j" in
  let Hk := fresh "Hk" in let Hl := fresh "Hl" in let Hj := fresh "Hj" in
  intros k [b j] Hk [Hl Hj]; cbn [fst snd] in Hl, Hj; subst j;
  run_accesses;
  left; eexists; (split; [reflexivity|]); cbn [fst snd];
  repeat split; lia.

Ltac short_loop n w :=
  match goal with
  | |- context [for_range n 0 ?stp ?body (?s0, O)] =>
      rewrite (for_range_panics
                 (fun k (x : list Z * nat) =>
                    length (fst x) = length s0 /\ snd x = (w * k)%nat)
                 n 0 stp body (s0, O) "index out of range");
      [ reflexivity
      | split; [reflexivity | cbn [snd]; lia]
      |
      | lia ]
  end.

(** [PackT1] and [UnpackT1] on a buffer of fewer than PolyT1Size bytes, and
    [PackT0] and [UnpackT0] on one of fewer than PolyT0Size bytes, panic
    with an index out of range: a short buffer is never packed in part or
    read as if it were padded. *)
Theorem short_buffer_panics (p buf : list Z) :
  length p = N ->
  ((length buf < PolyT1Size)%nat ->
   PackT1 p buf = Panic "index out of range" /\
   UnpackT1 p buf = Panic "index out of range") /\
  ((length buf < PolyT0Size)%nat ->
   PackT0 p buf = Panic "index out of range" /\
   UnpackT0 p buf = Panic "index out of range").
Proof.
  intros Hp. unfold N in Hp. unfold PolyT1Size, PolyT0Size.
  split; intros Hb; split.
  - unfold PackT1. change (iterations PolyT1Size 9) with 32%nat.
    short_loop 32%nat 8%nat.
    intros k [b j] Hk [Hl Hj]. cbn [fst snd] in Hl, Hj. subst j.
    run_accesses.
    left. eexists. split; [reflexivity|]. cbn [fst snd].
    repeat split; lia.
  - unfold UnpackT1. change (iterations PolyT1Size 9) with 32%nat.
    match goal with
    | |- context [for_range 32 0 ?stp ?body (?s0, O)] =>
        rewrite (for_range_panics
                   (fun k (x : list Z * nat) =>
                      length (fst x) = 256%nat /\ snd x = (8 * k)%nat)
                   32 0 stp body (s0, O) "index out of range");
        [ reflexivity | split; [exact Hp | cbn [snd]; lia] | | lia ]
    end.
    intros k [b j] Hk [Hl Hj]. cbn [fst snd] in Hl, Hj. subst j.
    run_accesses.
    left. eexists. split; [reflexivity|]. cbn [fst snd].
    repeat split; lia.
  - unfold PackT0. change (iterations PolyT0Size 7) with 64%nat.
    short_loop 64%nat 4%nat.
    intros k [b j] Hk [Hl Hj]. cbn [fst snd] in Hl, Hj. subst j.
    run_accesses.
    left. eexists. split; [reflexivity|]. cbn [fst snd].
    repeat split; lia.
  - unfold UnpackT0. change (iterations PolyT0Size 7) with 64%nat.
    match goal with
    | |- context [for_range 64 0 ?stp ?body (?s0, O)] =>
        rewrite (for_range_panics
                   (fun k (x : list Z * nat) =>
                      length (fst x) = 256%nat /\ snd x = (4 * k)%nat)
                   64 0 stp body (s0, O) "index out of range");
        [ reflexivity | split; [exact Hp | cbn [snd]; lia] | | lia ]
    end.
    intros k [b j] Hk [Hl Hj]. cbn [fst snd] in Hl, Hj. subst j.
    run_accesses.
    left. eexists. split; [reflexivity|]. cbn [fst snd].
    repeat split; lia.
Qed.

Lemma short_buffer_panics_witness :
  ((length (repeat 0 287) < PolyT1Size)%nat ->
   PackT1 zeroPoly (repeat 0 287) = Panic "index out of range" /\
   UnpackT1 zeroPoly (repeat 0 287) = Panic "index out of range") /\
  ((length (repeat 0 287) < PolyT0Size)%nat ->
   PackT0 zeroPoly (repeat 0 287) = Panic "index out of range" /\
   UnpackT0 zeroPoly (repeat 0 287) = Panic "index out of range").
Proof.
  apply (short_buffer_panics zeroPoly (repeat 0 287)). reflexivity.
Defined.

Lemma PackB60_rows_length (p buf : list Z) (i : nat) (signs mask : Z) :
  length p = N -> (i < 32)%nat -> (i < length buf)%nat ->
  exists s,
    for_range 8 0 1 (fun j '(buf, signs, mask) =>
      c <- idx p (8 * i + j) ;;
      if negb (c =? 0) then
        bi <- idx buf i ;;
        buf <- upd buf i (Z.lor bi (shl8 1 (Z.of_nat j))) ;;
        c <- idx p (8 * i + j) ;;
        let signs := if c =? Q - 1 then Z.lor signs mask else signs in
        Ok (buf, signs, shl64 mask 1)
      else Ok (buf, signs, mask)) (buf, signs, mask) = Ok s /\
    length (fst (fst s)) = length buf.
Proof.
  intros Hp Hi Hb. unfold N in Hp.
  apply (for_range_inv (fun _ (x : list Z * Z * Z) => length (fst (fst x)) = length buf));
    [reflexivity|].
  intros j [[b sg] mk] Hj Hl. cbn [fst snd] in Hl.
  rewrite (idx_nth_d 0) by lia. cbn [bind].
  destruct (negb _).
  - rewrite (idx_nth_d 0) by lia. cbn [bind].
    rewrite upd_insert by lia. cbn [bind].
    eexists. split; [reflexivity|]. cbn [fst]. rewrite length_insert. exact Hl.
  - eexists. split; [reflexivity|]. exact Hl.
Qed.

(** [PackB60] and [UnpackB60] on a buffer of fewer than 40 bytes panic with
    an index out of range; [UnpackB60] does not report such a buffer as an
    invalid encoding. *)
Theorem short_challenge_buffer_panics (p buf : list Z) :
  length p = N -> (length buf < 40)%nat ->
  PackB60 p buf = Panic "index out of range" /\
  UnpackB60 p buf = Panic "index out of range".
Proof.
  intros Hp Hb. split.
  - unfold PackB60.
    destruct (Nat.lt_ge_cases (length buf) 32) as [H32 | H32].
    + match goal with
      | |- context [for_range 32 0 ?stp ?body ?s0] =>
          rewrite (for_range_panics
                     (fun k (x : list Z * Z * Z) =>
                        length (fst (fst x)) = length buf)
                     32 0 stp body s0 "index out of range");
          [ reflexivity | reflexivity | | lia ]
      end.
      intros k [[b sg] mk] Hk Hl. cbn [fst snd] in Hl.
      rewrite Nat.add_0_l, Nat.mul_1_l.
      destruct (upd_cases b k 0) as [(b1 & E & HL & H) | [H E]]; rewrite E;
        cbn [bind]; [|right; reflexivity].
      destruct (PackB60_rows_length p b1 k sg mk Hp Hk)
        as (s & Es & Hs); [lia|].
      left. exists s. split; [exact Es|]. split; lia.
    + match goal with
      | |- context [for_range 32 0 ?stp ?body ?s0] =>
          destruct (for_range_inv
                      (fun _ (x : list Z * Z * Z) =>
                         length (fst (fst x)) = length buf)
                      32 0 stp body s0) as ([[b sg] mk] & E & Hl)
      end.
      * reflexivity.
      * intros k [[b sg] mk] Hk Hl. cbn [fst snd] in Hl.
        rewrite Nat.add_0_l, Nat.mul_1_l.
        rewrite upd_insert by lia. cbn [bind].
        destruct (PackB60_rows_length p (<[k := 0]> b) k sg mk Hp Hk)
          as (s & Es & Hs); [rewrite length_insert; lia|].
        exists s. split; [exact Es|]. rewrite Hs, length_insert. exact Hl.
      * rewrite E. cbn [bind fst snd] in *.
        apply (for_range_panics (fun _ (x : list Z) => length x = length buf));
          [exact Hl | | lia].
        intros k b' Hk Hl'. rewrite Nat.add_0_l, Nat.mul_1_l.
        destruct (upd_cases b' (k + 32) (u8 (shr sg (8 * Z.of_nat k))))
          as [(b1 & E' & HL & H) | [H E']]; rewrite E'; [|right; reflexivity].
        left. eexists. split; [reflexivity|]. split; lia.
  - unfold UnpackB60, le_uint64. cbv zeta.
    repeat step_access. lia.
Qed.

Lemma short_challenge_buffer_panics_witness :
  PackB60 zeroPoly (repeat 0 39) = Panic "index out of range" /\
  UnpackB60 zeroPoly (repeat 0 39) = Panic "index out of range".
Proof.
  apply (short_challenge_buffer_panics zeroPoly (repeat 0 39)).
  - reflexivity.
  - vm_compute. lia.
Defined.

(** The codecs of the mode on buffers that are too short: with a supported
    width, [PolyPackLeqEta] and [PolyUnpackLeqEta] panic with an index out
    of range below PolyLeqEtaSize bytes, and so do [PolyPackLeGamma1] and
    [PolyUnpackLeGamma1] below PolyLeGamma1Size bytes. *)
Theorem short_buffer_panics_mode3 (Eta DoubleEtaBits Gamma1 : Z) (p buf : list Z) :
  length p = N ->
  (DoubleEtaBits = 3 \/ DoubleEtaBits = 4 ->
   (length buf < PolyLeqEtaSize DoubleEtaBits)%nat ->
   PolyPackLeqEta Eta DoubleEtaBits p buf = Panic "index out of range" /\
   PolyUnpackLeqEta Eta DoubleEtaBits p buf = Panic "index out of range") /\
  ((length buf < PolyLeGamma1Size)%nat ->
   PolyPackLeGamma1 Gamma1 p buf = Panic "index out of range" /\
   PolyUnpackLeGamma1 Gamma1 p buf = Panic "index out of range").
Proof.
  intros Hp. unfold N in Hp. split.
  - intros [-> | ->] Hb.
    + change (PolyLeqEtaSize 3) with 96%nat in Hb. split.
      * unfold PolyPackLeqEta. change (3 =? 4) with false. change (3 =? 3) with true.
        cbv iota. change (iterations (PolyLeqEtaSize 3) 3) with 32%nat.
        short_loop 32%nat 8%nat. short_body.
      * unfold PolyUnpackLeqEta. change (3 =? 4) with false. change (3 =? 3) with true.
        cbv iota. change (iterations (PolyLeqEtaSize 3) 3) with 32%nat.
        short_read_loop 32%nat 8%nat Hp. short_body.
    + change (PolyLeqEtaSize 4) with 128%nat in Hb. split.
      * unfold PolyPackLeqEta. change (4 =? 4) with true.
        cbv iota. change (iterations (PolyLeqEtaSize 4) 1) with 128%nat.
        short_loop 128%nat 2%nat. short_body.
      * unfold PolyUnpackLeqEta. change (4 =? 4) with true.
        cbv iota. change (iterations (PolyLeqEtaSize 4) 1) with 128%nat.
        short_read_loop 128%nat 2%nat Hp. short_body.
  - unfold PolyLeGamma1Size. intros Hb. split.
    + unfold PolyPackLeGamma1. change (iterations PolyLeGamma1Size 5) with 128%nat.
      short_loop 128%nat 2%nat. short_body.
    + unfold PolyUnpackLeGamma1, le_uint64. change (iterations PolyLeGamma1Size 40) with 16%nat.
      short_read_loop 16%nat 16%nat Hp. short_body.
Qed.

Lemma short_buffer_panics_mode3_witness :
  (3 = 3 \/ 3 = 4 ->
   (length (repeat 0 95) < PolyLeqEtaSize 3)%nat ->
   PolyPackLeqEta 3 3 zeroPoly (repeat 0 95) = Panic "index out of range" /\
   PolyUnpackLeqEta 3 3 zeroPoly (repeat 0 95) = Panic "index out of range") /\
  ((length (repeat 0 95) < PolyLeGamma1Size)%nat ->
   PolyPackLeGamma1 523776 zeroPoly (repeat 0 95) = Panic "index out of range" /\
   PolyUnpackLeGamma1 523776 zeroPoly (repeat 0 95) = Panic "index out of range").
Proof.
  apply (short_buffer_panics_mode3 3 3 523776 zeroPoly (repeat 0 95)). reflexivity.
Defined.

End BoundsFacts.

(** ** What the packers write *)

Module PackFacts.
Import Common Mode3 Le16 SliceFacts CommonFacts Mode3Facts UnpackRanges.

Lemma byte_range (x : Z) : 0 <= byte x < 2 ^ 8.
Proof. unfold byte, u8. apply Z.mod_pos_bound. reflexivity. Qed.

Lemma shl8_range (x k : Z) : 0 <= shl8 x k < 2 ^ 8.
Proof. unfold shl8, u8. apply Z.mod_pos_bound. reflexivity. Qed.

Lemma shr_byte_range (x k : Z) : 0 <= k -> 0 <= shr (byte x) k < 2 ^ 8.
Proof.
  intros Hk. pose proof (byte_range x) as Hx. unfold shr.
  rewrite Z.shiftr_div_pow2 by exact Hk.
  assert (0 < 2 ^ k) by (apply Z.pow_pos_nonneg; lia).
  split; [apply Z.div_pos; lia|].
  apply Z.le_lt_trans with (byte x); [|lia].
  apply Z.div_le_upper_bound; [lia|]. nia.
Qed.

(** Every entry a packer writes is a byte. *)
Ltac is_byte :=
  lazymatch goal with
  | |- 0 <= Z.lor _ _ < 2 ^ 8 => apply lor_range; [lia | is_byte | is_byte]
  | |- 0 <= byte _ < 2 ^ 8 => apply byte_range
  | |- 0 <= shl8 _ _ < 2 ^ 8 => apply shl8_range
  | |- 0 <= shr (byte _) _ < 2 ^ 8 => apply shr_byte_range; lia
  end.

Ltac block_bytes :=
  apply coeffs_in_flat_map; intros ? _; cbv beta delta [bytesT1 bytesT0 bytesEta3
    bytesEta4 bytesG bytesLe16]; cbv zeta;
  repeat (apply coeffs_in_cons; [change 256 with (2 ^ 8); is_byte|]);
  reflexivity.

Lemma frame_of_blocks (blk : nat -> list Z) (a n : nat) (buf : list Z) :
  (forall k, length (blk k) = a) -> (a * n <= length buf)%nat ->
  coeffs_in 0 256 (flat_map blk (seq 0 n)) = true ->
  let b := flat_map blk (seq 0 n) ++ drop (a * n) buf in
  length b = length buf /\ drop (a * n) b = drop (a * n) buf /\
  is_bytes (take (a * n) b) = true.
Proof.
  intros Hb Hn Hy b. subst b.
  assert (Hl : length (flat_map blk (seq 0 n)) = (a * n)%nat)
    by (rewrite (length_flat_map_blocks blk a) by exact Hb; rewrite length_seq; reflexivity).
  split; [rewrite length_app, length_drop, Hl; lia|]. split.
  - rewrite drop_app_length'; [reflexivity | symmetry; exact Hl].
  - rewrite take_app_length'; [exact Hy | symmetry; exact Hl].
Qed.

(** [PackT1] and [PackT0] return for every polynomial of N coefficients,
    in range or not, and every buffer that is long enough; they write bytes
    into the first PolyT1Size (PolyT0Size) entries and leave the entries
    after them as they were. *)
Theorem PackT1_PackT0_frame (p buf : list Z) :
  length p = N ->
  ((PolyT1Size <= length buf)%nat ->
   exists b, PackT1 p buf = Ok b /\ length b = length buf /\
             drop PolyT1Size b = drop PolyT1Size buf /\
             is_bytes (take PolyT1Size b) = true) /\
  ((PolyT0Size <= length buf)%nat ->
   exists b, PackT0 p buf = Ok b /\ length b = length buf /\
             drop PolyT0Size b = drop PolyT0Size buf /\
             is_bytes (take PolyT0Size b) = true).
Proof.
  intros Hp. split; intros Hb.
  - eexists. split; [apply PackT1_blocks; assumption|].
    apply (frame_of_blocks (bytesT1 p) 9 32 buf); [reflexivity | exact Hb|].
    block_bytes.
  - eexists. split; [apply PackT0_blocks; assumption|].
    apply (frame_of_blocks (bytesT0 p) 7 64 buf); [reflexivity | exact Hb|].
    block_bytes.
Qed.

Lemma PackT1_PackT0_frame_witness :
  ((PolyT1Size <= length (repeat 7 500))%nat ->
   exists b, PackT1 (repeat 1000 256) (repeat 7 500) = Ok b /\
             length b = length (repeat 7 500) /\
             drop PolyT1Size b = drop PolyT1Size (repeat 7 500) /\
             is_bytes (take PolyT1Size b) = true) /\
  ((PolyT0Size <= length (repeat 7 500))%nat ->
   exists b, PackT0 (repeat 1000 256) (repeat 7 500) = Ok b /\
             length b = length (repeat 7 500) /\
             drop PolyT0Size b = drop PolyT0Size (repeat 7 500) /\
             is_bytes (take PolyT0Size b) = true).
Proof.
  apply (PackT1_PackT0_frame (repeat 1000 256) (repeat 7 500)). reflexivity.
Defined.

(** The same for the packers of the mode, [PolyPackLeqEta] with a supported
    width and [PolyPackLeGamma1]. *)
Theorem PolyPack_frame (Eta DoubleEtaBits Gamma1 : Z) (p buf : list Z) :
  length p = N ->
  (DoubleEtaBits = 3 \/ DoubleEtaBits = 4 ->
   (PolyLeqEtaSize DoubleEtaBits <= length buf)%nat ->
   exists b, PolyPackLeqEta Eta DoubleEtaBits p buf = Ok b /\
             length b = length buf /\
             drop (PolyLeqEtaSize DoubleEtaBits) b =
             drop (PolyLeqEtaSize DoubleEtaBits) buf /\
             is_bytes (take (PolyLeqEtaSize DoubleEtaBits) b) = true) /\
  ((PolyLeGamma1Size <= length buf)%nat ->
   exists b, PolyPackLeGamma1 Gamma1 p buf = Ok b /\
             length b = length buf /\
             drop PolyLeGamma1Size b = drop PolyLeGamma1Size buf /\
             is_bytes (take PolyLeGamma1Size b) = true).
Proof.
  intros Hp. split.
  - intros [-> | ->] Hb.
    + change (PolyLeqEtaSize 3) with 96%nat in *.
      eexists. split; [apply PackEta3_blocks; assumption|].
      apply (frame_of_blocks (bytesEta3 Eta p) 3 32 buf); [reflexivity | exact Hb|].
      block_bytes.
    + change (PolyLeqEtaSize 4) with 128%nat in *.
      eexists. split; [apply PackEta4_blocks; assumption|].
      apply (frame_of_blocks (bytesEta4 Eta p) 1 128 buf); [reflexivity | exact Hb|].
      block_bytes.
  - intros Hb. eexists. split; [apply PackG_blocks; assumption|].
    apply (frame_of_blocks (bytesG Gamma1 p) 5 128 buf); [reflexivity | exact Hb|].
    block_bytes.
Qed.

Lemma PolyPack_frame_witness :
  (3 = 3 \/ 3 = 4 ->
   (PolyLeqEtaSize 3 <= length (repeat 7 700))%nat ->
   exists b, PolyPackLeqEta 3 3 (repeat 1000 256) (repeat 7 700) = Ok b /\
             length b = length (repeat 7 700) /\
             drop (PolyLeqEtaSize 3) b = drop (PolyLeqEtaSize 3) (repeat 7 700) /\
             is_bytes (take (PolyLeqEtaSize 3) b) = true) /\
  ((PolyLeGamma1Size <= length (repeat 7 700))%nat ->
   exists b, PolyPackLeGamma1 523776 (repeat 1000 256) (repeat 7 700) = Ok b /\
             length b = length (repeat 7 700) /\
             drop PolyLeGamma1Size b = drop PolyLeGamma1Size (repeat 7 700) /\
             is_bytes (take PolyLeGamma1Size b) = true).
Proof.
  apply (PolyPack_frame 3 3 523776 (repeat 1000 256) (repeat 7 700)). reflexivity.
Defined.

(** *** packLe16Generic *)

Lemma packLe16_blocks (p buf : list Z) :
  length p = N -> (PolyLe16Size <= length buf)%nat ->
  packLe16Generic p buf =
  Ok (flat_map (bytesLe16 p) (seq 0 128) ++ drop PolyLe16Size buf).
Proof.
  intros Hp Hbuf. unfold packLe16Generic.
  change (iterations PolyLe16Size 1) with 128%nat.
  rewrite (for_range_blocks 1 2 1 (bytesLe16 p)); [reflexivity | reflexivity | | exact Hbuf].
  intros k pre old post Hk Hpre Hold.
  do 2 (destruct old as [|? old]; try discriminate Hold).
  unfold N in Hp. run_body Hpre.
  unfold bytesLe16. rewrite !Nat.add_0_r.
  replace (2 * (k + 1))%nat with (2 * k + 2)%nat by lia. reflexivity.
Qed.

Lemma nibbles (x y : Z) :
  0 <= x < 2 ^ 4 -> 0 <= y < 2 ^ 4 ->
  let b := Z.lor (byte x) (byte (shl32 y 4)) in
  b = x + 16 * y /\ Z.land b 15 = x /\ shr b 4 = y.
Proof.
  intros Hx Hy. cbv zeta.
  assert (Ex : byte x = x)
    by (unfold byte, u8; apply Z.mod_small; change (2 ^ 4) with 16 in Hx;
        change (2 ^ 8) with 256; lia).
  assert (Ey : byte (shl32 y 4) = 16 * y).
  { unfold byte, u8, shl32, u32. rewrite Z.shiftl_mul_pow2 by lia.
    change (2 ^ 4) with 16 in *. change (2 ^ 8) with 256.
    change (2 ^ 32) with 4294967296.
    rewrite (Z.mod_small (y * 16)) by lia. rewrite Z.mod_small by lia. lia. }
  rewrite Ex, Ey.
  assert (E : Z.lor x (16 * y) = x + 16 * y).
  { apply Z.or_to_plus. change (2 ^ 4) with 16 in *.
    replace (16 * y) with (Z.shiftl y 4) by (rewrite Z.shiftl_mul_pow2 by lia; lia).
    apply Z.bits_inj'. intros n Hn. rewrite Z.land_spec, Z.bits_0.
    destruct (Z.ltb_spec n 4).
    - rewrite Z.shiftl_spec_low by lia. apply andb_false_r.
    - rewrite <- (Z.mod_small x (2 ^ 4)) by (change (2 ^ 4) with 16; lia).
      rewrite Z.mod_pow2_bits_high by lia. reflexivity. }
  rewrite E. change (2 ^ 4) with 16 in *. split; [reflexivity|]. split.
  - change 15 with (Z.ones 4). rewrite Z.land_ones by lia.
    change (2 ^ 4) with 16. Z.div_mod_to_equations. lia.
  - unfold shr. rewrite Z.shiftr_div_pow2 by lia. change (2 ^ 4) with 16.
    Z.div_mod_to_equations. lia.
Qed.

(** [packLe16Generic] on a polynomial with coefficients in [0, 16): byte i
    of the result holds coefficient 2 i in its low four bits and coefficient
    2 i + 1 in its high four bits, and the entries after the first
    PolyLe16Size are left as they were. *)
Theorem packLe16Generic_nibbles (p buf : list Z) :
  length p = N -> (PolyLe16Size <= length buf)%nat -> coeffs_in 0 16 p = true ->
  exists b,
    packLe16Generic p buf = Ok b /\ length b = length buf /\
    drop PolyLe16Size b = drop PolyLe16Size buf /\
    forall i, (i < PolyLe16Size)%nat ->
      nth i b 0 = nth (2 * i) p 0 + 16 * nth (2 * i + 1) p 0 /\
      Z.land (nth i b 0) 15 = nth (2 * i) p 0 /\
      shr (nth i b 0) 4 = nth (2 * i + 1) p 0.
Proof.
  intros Hp Hbuf Hr. eexists. split; [apply packLe16_blocks; assumption|].
  assert (Hl : length (flat_map (bytesLe16 p) (seq 0 128)) = 128%nat)
    by (rewrite (length_flat_map_blocks _ 1) by reflexivity; reflexivity).
  unfold PolyLe16Size in *.
  split; [rewrite length_app, length_drop, Hl; lia|].
  split; [rewrite drop_app_length'; [reflexivity | symmetry; exact Hl]|].
  intros i Hi.
  assert (E : nth i (flat_map (bytesLe16 p) (seq 0 128) ++ drop 128 buf) 0 =
              Z.lor (byte (nth (2 * i) p 0)) (byte (shl32 (nth (2 * i + 1) p 0) 4))).
  { replace i with (1 * i + 0)%nat at 1 by lia.
    rewrite (nth_flat_map_blocks (bytesLe16 p) 1 0 128 i 0) by (reflexivity || lia).
    cbn [Nat.add bytesLe16 nth]. rewrite Nat.add_0_r. reflexivity. }
  rewrite E. unfold N in Hp.
  apply nibbles.
  - apply (coeffs_in_nth 0 16 p (2 * i) Hr). lia.
  - apply (coeffs_in_nth 0 16 p (2 * i + 1) Hr). lia.
Qed.

Lemma packLe16Generic_nibbles_witness :
  exists b,
    packLe16Generic (repeat 9 256) (repeat 0 130) = Ok b /\
    length b = length (repeat 0 130) /\
    drop PolyLe16Size b = drop PolyLe16Size (repeat 0 130) /\
    forall i, (i < PolyLe16Size)%nat ->
      nth i b 0 = nth (2 * i) (repeat 9 256) 0 + 16 * nth (2 * i + 1) (repeat 9 256) 0 /\
      Z.land (nth i b 0) 15 = nth (2 * i) (repeat 9 256) 0 /\
      shr (nth i b 0) 4 = nth (2 * i + 1) (repeat 9 256) 0.
Proof.
  apply (packLe16Generic_nibbles (repeat 9 256) (repeat 0 130)).
  - reflexivity.
  - vm_compute. lia.
  - vm_compute. reflexivity.
Defined.

End PackFacts.

(** ** The properties of the codecs and of the samplers *)

Module Claims.
Import Common Mode3 HintSpec B60Spec.
Import SliceFacts CommonFacts Mode3Facts LoopFacts HintFacts PackHintFacts.
Import B60Facts PackB60Facts.

(** *** Round trips *)

(** C2. For each codec, unpacking the buffer produced by packing a value of
    the codec's input range gives the value back: T1 (coefficients below
    512), T0 (the window (Q - 2^(D-1), Q + 2^(D-1)]), Eta (3 or 4 bits,
    coefficients in [Q - Eta, Q + Eta]), Gamma1 (20 bits, normalized
    coefficients of norm below Gamma1), and the two sparse codecs, hint
    vectors of at most Omega bits and challenges with 60 coefficients +-1,
    whose unpacking also reports success. *)
Theorem codec_roundtrip
    (Eta DoubleEtaBits Gamma1 : Z) (Omega K : nat)
    (pT1 pT0 pEta pG pc p0 : list Z) (v v0 : list (list Z))
    (bT1 bT0 bEta bG bH bC : list Z) :
  (DoubleEtaBits = 3 \/ DoubleEtaBits = 4) ->
  0 <= Eta -> 2 * Eta < 2 ^ DoubleEtaBits ->
  0 < Gamma1 -> 2 * (Gamma1 - 1) < 2 ^ 20 ->
  (Omega <= 255)%nat ->
  length p0 = N ->
  length pT1 = N -> coeffs_in 0 512 pT1 = true ->
  length pT0 = N -> in_T0_window pT0 = true ->
  length pEta = N -> coeffs_in (Q - Eta) (Q + Eta + 1) pEta = true ->
  length pG = N -> forallb (normG Gamma1) pG = true ->
  is_hint K v = true -> (weight v <= Omega)%nat ->
  is_challenge pc = true ->
  (PolyT1Size <= length bT1)%nat ->
  (PolyT0Size <= length bT0)%nat ->
  (PolyLeqEtaSize DoubleEtaBits <= length bEta)%nat ->
  (PolyLeGamma1Size <= length bG)%nat ->
  (Omega + K <= length bH)%nat -> is_bytes bH = true ->
  (40 <= length bC)%nat ->
  (exists b, PackT1 pT1 bT1 = Ok b /\ UnpackT1 p0 b = Ok pT1) /\
  (exists b, PackT0 pT0 bT0 = Ok b /\ UnpackT0 p0 b = Ok pT0) /\
  (exists b, PolyPackLeqEta Eta DoubleEtaBits pEta bEta = Ok b /\
             PolyUnpackLeqEta Eta DoubleEtaBits p0 b = Ok pEta) /\
  (exists b, PolyPackLeGamma1 Gamma1 pG bG = Ok b /\
             PolyUnpackLeGamma1 Gamma1 p0 b = Ok pG) /\
  (exists b, PackHint Omega K v bH = Ok b /\
             UnpackHint Omega K v0 b = Ok (v, true)) /\
  (exists b, PackB60 pc bC = Ok b /\ UnpackB60 p0 b = Ok (pc, true)).
Proof.
  intros Hd He Hw Hg Hg20 HO Hp0 H1 R1 H0 R0 HE RE HG RG Hh Hwt Hc
         B1 B0 BE BG BH BHb BC.
  repeat split.
  - destruct (T1_roundtrip pT1 p0 bT1 H1 Hp0 B1 R1) as (b & E & _ & U). eauto.
  - destruct (T0_roundtrip pT0 p0 bT0 H0 Hp0 B0 R0) as (b & E & _ & U). eauto.
  - destruct (Eta_roundtrip Eta DoubleEtaBits pEta p0 bEta Hd He Hw HE Hp0 BE RE)
      as (b & E & _ & U). eauto.
  - destruct (G_roundtrip Gamma1 pG p0 bG Hg Hg20 HG Hp0 BG RG) as (b & E & _ & U).
    eauto.
  - destruct (Hint_roundtrip Omega K v v0 bH HO Hh Hwt BH BHb) as (b & E & _ & U).
    eauto.
  - destruct (B60_roundtrip pc p0 bC Hc BC) as (b & E & _ & U). eauto.
Qed.

Lemma codec_roundtrip_witness :
  (exists b, PackT1 Examples.pT1 (repeat 0 288) = Ok b /\
             UnpackT1 zeroPoly b = Ok Examples.pT1) /\
  (exists b, PackT0 Examples.pT0 (repeat 0 448) = Ok b /\
             UnpackT0 zeroPoly b = Ok Examples.pT0) /\
  (exists b, PolyPackLeqEta 5 4 Examples.pEta (repeat 0 128) = Ok b /\
             PolyUnpackLeqEta 5 4 zeroPoly b = Ok Examples.pEta) /\
  (exists b, PolyPackLeGamma1 523776 Examples.pGamma1 (repeat 0 640) = Ok b /\
             PolyUnpackLeGamma1 523776 zeroPoly b = Ok Examples.pGamma1) /\
  (exists b, PackHint 96 5 Examples.hints (repeat 0 101) = Ok b /\
             UnpackHint 96 5 (zeroVecK 5) b = Ok (Examples.hints, true)) /\
  (exists b, PackB60 Examples.challenge (repeat 0 40) = Ok b /\
             UnpackB60 zeroPoly b = Ok (Examples.challenge, true)).
Proof.
  apply (codec_roundtrip 5 4 523776 96 5
           Examples.pT1 Examples.pT0 Examples.pEta Examples.pGamma1
           Examples.challenge zeroPoly Examples.hints (zeroVecK 5)
           (repeat 0 288) (repeat 0 448) (repeat 0 128) (repeat 0 640)
           (repeat 0 101) (repeat 0 40)).
  - right. reflexivity.
  - lia.
  - reflexivity.
  - lia.
  - reflexivity.
  - lia.
  - reflexivity.
  - reflexivity.
  - vm_compute. reflexivity.
  - reflexivity.
  - vm_compute. reflexivity.
  - reflexivity.
  - vm_compute. reflexivity.
  - reflexivity.
  - vm_compute. reflexivity.
  - vm_compute. reflexivity.
  - vm_compute. lia.
  - vm_compute. reflexivity.
  - vm_compute. lia.
  - vm_compute. lia.
  - vm_compute. lia.
  - vm_compute. lia.
  - vm_compute. lia.
  - vm_compute. reflexivity.
  - vm_compute. lia.
Defined.

(** *** Rejection by UnpackHint *)

Lemma sop_ok_false (Omega : nat) (buf : list Z) (k : nat) :
  sop_ok Omega buf k = false <->
  sop Omega buf k < prev_sop Omega buf k \/ Z.of_nat Omega < sop Omega buf k.
Proof.
  unfold sop_ok. rewrite andb_false_iff, !Z.leb_gt. tauto.
Qed.

Lemma incr_ok_false (buf : list Z) (a b : nat) :
  incr_ok buf a b = false <->
  exists j, (a < j < b)%nat /\ nth j buf 0 <= nth (j - 1) buf 0.
Proof.
  unfold incr_ok. rewrite forallb_seq_false_iff. split.
  - intros (j & Hj & Hf). apply Z.ltb_ge in Hf. exists j. split; [lia | exact Hf].
  - intros (j & Hj & Hf). exists j. split; [lia | apply Z.ltb_ge; exact Hf].
Qed.

Lemma pad_ok_false (Omega K : nat) (buf : list Z) :
  pad_ok Omega K buf = false <->
  exists j, (Z.to_nat (prev_sop Omega buf K) <= j < Omega)%nat /\ nth j buf 0 <> 0.
Proof.
  unfold pad_ok. rewrite forallb_seq_false_iff. split.
  - intros (j & Hj & Hf). apply Z.eqb_neq in Hf. exists j. split; [lia | exact Hf].
  - intros (j & Hj & Hf). exists j. split; [lia | apply Z.eqb_neq; exact Hf].
Qed.

Lemma hint_valid_false (Omega K : nat) (buf : list Z) :
  hint_valid Omega K buf = false <->
  (exists k, (k < K)%nat /\ sop Omega buf k < prev_sop Omega buf k) \/
  (exists k, (k < K)%nat /\ Z.of_nat Omega < sop Omega buf k) \/
  (exists k j, (k < K)%nat /\
     (Z.to_nat (prev_sop Omega buf k) < j < Z.to_nat (sop Omega buf k))%nat /\
     nth j buf 0 <= nth (j - 1) buf 0) \/
  (exists j, (Z.to_nat (prev_sop Omega buf K) <= j < Omega)%nat /\ nth j buf 0 <> 0).
Proof.
  unfold hint_valid. rewrite andb_false_iff, forallb_seq_false_iff, pad_ok_false.
  split.
  - intros [(k & Hk & He) | Hp]; [|right; right; right; exact Hp].
    unfold elem_ok in He. apply andb_false_iff in He. destruct He as [He | He].
    + apply sop_ok_false in He. destruct He as [He | He].
      * left. exists k. split; [lia | exact He].
      * right. left. exists k. split; [lia | exact He].
    + apply incr_ok_false in He. destruct He as (j & Hj & Hle).
      right. right. left. exists k, j. split; [lia|]. split; [lia | exact Hle].
  - intros [(k & Hk & He) | [(k & Hk & He) | [(k & j & Hk & Hj & Hle) | Hp]]].
    + left. exists k. split; [lia|]. unfold elem_ok.
      apply andb_false_iff. left. apply sop_ok_false. left. exact He.
    + left. exists k. split; [lia|]. unfold elem_ok.
      apply andb_false_iff. left. apply sop_ok_false. right. exact He.
    + left. exists k. split; [lia|]. unfold elem_ok.
      apply andb_false_iff. right. apply incr_ok_false. exists j. split; assumption.
    + right. exact Hp.
Qed.

(** C3. On a buffer of Omega + K bytes, [UnpackHint] returns false exactly
    when a switch-over point is below the previous one, or above Omega, or
    within one element's range an index byte is not above its predecessor,
    or an index byte from the last switch-over point on is nonzero; on all
    other buffers it returns true. *)
Theorem UnpackHint_rejects (Omega K : nat) (buf : list Z) (v0 : list (list Z)) :
  (Omega <= 255)%nat -> length buf = (Omega + K)%nat -> is_bytes buf = true ->
  exists v ok,
    UnpackHint Omega K v0 buf = Ok (v, ok) /\
    (ok = false <->
     (exists k, (k < K)%nat /\ sop Omega buf k < prev_sop Omega buf k) \/
     (exists k, (k < K)%nat /\ Z.of_nat Omega < sop Omega buf k) \/
     (exists k j, (k < K)%nat /\
        (Z.to_nat (prev_sop Omega buf k) < j < Z.to_nat (sop Omega buf k))%nat /\
        nth j buf 0 <= nth (j - 1) buf 0) \/
     (exists j, (Z.to_nat (prev_sop Omega buf K) <= j < Omega)%nat /\
                nth j buf 0 <> 0)).
Proof.
  intros HO Hl Hb.
  destruct (UnpackHint_char Omega K buf HO ltac:(lia) Hb v0) as (v & E & _ & _).
  exists v, (hint_valid Omega K buf). split; [exact E|]. apply hint_valid_false.
Qed.

Lemma UnpackHint_rejects_witness :
  exists v ok,
    UnpackHint 96 5 (zeroVecK 5) Examples.bad_hint_buf = Ok (v, ok) /\
    (ok = false <->
     (exists k, (k < 5)%nat /\
        sop 96 Examples.bad_hint_buf k < prev_sop 96 Examples.bad_hint_buf k) \/
     (exists k, (k < 5)%nat /\ Z.of_nat 96 < sop 96 Examples.bad_hint_buf k) \/
     (exists k j, (k < 5)%nat /\
        (Z.to_nat (prev_sop 96 Examples.bad_hint_buf k) < j <
         Z.to_nat (sop 96 Examples.bad_hint_buf k))%nat /\
        nth j Examples.bad_hint_buf 0 <= nth (j - 1) Examples.bad_hint_buf 0) \/
     (exists j, (Z.to_nat (prev_sop 96 Examples.bad_hint_buf 5) <= j < 96)%nat /\
                nth j Examples.bad_hint_buf 0 <> 0)).
Proof.
  apply (UnpackHint_rejects 96 5 Examples.bad_hint_buf (zeroVecK 5)).
  - lia.
  - reflexivity.
  - vm_compute. reflexivity.
Defined.

(** *** Rejection by UnpackB60 *)

Lemma lor_u64 (a b : Z) :
  u64 a = a -> u64 b = b -> u64 (Z.lor a b) = Z.lor a b.
Proof.
  unfold u64. rewrite <- !Z.land_ones by lia. intros Ha Hb.
  rewrite Z.land_lor_distr_l, Ha, Hb. reflexivity.
Qed.

Lemma shl64_u64 (x k : Z) : u64 (shl64 x k) = shl64 x k.
Proof.
  unfold shl64, u64. apply Z.mod_mod. discriminate.
Qed.

Lemma sign_field_range (buf : list Z) :
  (40 <= length buf)%nat -> is_bytes buf = true ->
  0 <= sign_field buf < 2 ^ 64.
Proof.
  intros Hl Hb.
  assert (E : u64 (sign_field buf) = sign_field buf).
  { unfold sign_field, word.
    repeat (apply lor_u64; [|apply shl64_u64]).
    pose proof (coeffs_in_nth 0 256 buf 32 Hb ltac:(lia)) as R.
    unfold u64. apply Z.mod_small. lia. }
  rewrite <- E. unfold u64. apply Z.mod_pos_bound. reflexivity.
Qed.

Lemma shr60_zero (s : Z) :
  0 <= s < 2 ^ 64 ->
  (shr s 60 =? 0) = true <-> (forall b, 60 <= b < 64 -> Z.testbit s b = false).
Proof.
  intros Hs. rewrite Z.eqb_eq. unfold shr. split.
  - intros H0 b Hb.
    replace b with (b - 60 + 60) by lia.
    rewrite <- Z.shiftr_spec by lia. rewrite H0. apply Z.bits_0.
  - intros Hb. apply Z.bits_inj'. intros n Hn.
    rewrite Z.shiftr_spec, Z.bits_0 by exact Hn.
    destruct (Z.ltb_spec (n + 60) 64).
    + apply Hb. lia.
    + rewrite <- (Z.mod_small s (2 ^ 64)) by exact Hs.
      apply Z.mod_pow2_bits_high. lia.
Qed.

(** C4. On a 40-byte buffer, [UnpackB60] returns false when one of the top
    four bits of the sign field is set, and true when the mask has exactly
    60 bits set and those four bits are zero (indeed whenever they are
    zero). *)
Theorem UnpackB60_unused_bits (buf p0 : list Z) :
  length buf = 40%nat -> is_bytes buf = true ->
  exists p ok,
    UnpackB60 p0 buf = Ok (p, ok) /\
    ((exists b, 60 <= b < 64 /\ Z.testbit (sign_field buf) b = true) -> ok = false) /\
    (mask_bits buf = 60%nat ->
     (forall b, 60 <= b < 64 -> Z.testbit (sign_field buf) b = false) -> ok = true) /\
    ((forall b, 60 <= b < 64 -> Z.testbit (sign_field buf) b = false) -> ok = true).
Proof.
  intros Hl Hb.
  destruct (UnpackB60_flag buf p0 ltac:(lia)) as (p & E & _ & _).
  pose proof (sign_field_range buf ltac:(lia) Hb) as Hr.
  pose proof (shr60_zero (sign_field buf) Hr) as Hz.
  exists p, (shr (sign_field buf) 60 =? 0). split; [exact E|].
  split; [|split].
  - intros (b & Hb60 & Ht).
    destruct (shr (sign_field buf) 60 =? 0); [|reflexivity].
    rewrite (proj1 Hz eq_refl b Hb60) in Ht. discriminate.
  - intros _ Hall. apply Hz. exact Hall.
  - intros Hall. apply Hz. exact Hall.
Qed.

Lemma UnpackB60_unused_bits_witness :
  exists p ok,
    UnpackB60 zeroPoly Examples.bad_challenge_buf = Ok (p, ok) /\
    ((exists b, 60 <= b < 64 /\
        Z.testbit (sign_field Examples.bad_challenge_buf) b = true) -> ok = false) /\
    (mask_bits Examples.bad_challenge_buf = 60%nat ->
     (forall b, 60 <= b < 64 ->
        Z.testbit (sign_field Examples.bad_challenge_buf) b = false) -> ok = true) /\
    ((forall b, 60 <= b < 64 ->
        Z.testbit (sign_field Examples.bad_challenge_buf) b = false) -> ok = true).
Proof.
  apply (UnpackB60_unused_bits Examples.bad_challenge_buf zeroPoly).
  - reflexivity.
  - vm_compute. reflexivity.
Defined.

(** *** The output of a failed unpacking *)

(** C5, as stated, fails for [UnpackHint]: on this buffer the first
    element's index byte is decoded before the decreasing switch-over point
    is met, and the call returns false with coefficient 5 of element 0
    set. *)
Lemma UnpackHint_failure_not_zeroed :
  exists v,
    UnpackHint 96 5 (zeroVecK 5) Examples.bad_hint_buf = Ok (v, false) /\
    nth 5 (nth 0 v []) 0 = 1 /\ v <> zeroVecK 5.
Proof.
  eexists. split; [vm_compute; reflexivity|]. split; [reflexivity|].
  intros H. apply (f_equal (fun v => nth 5 (nth 0 v []) 0)) in H.
  vm_compute in H. discriminate.
Qed.

Lemma decoded_prefix_bits (Omega K : nat) (buf : list Z) (v : list (list Z)) :
  decoded_prefix Omega K buf v ->
  length v = K /\
  forall k c,
    (nth c (nth k v []) 0 = 0 \/ nth c (nth k v []) 0 = 1) /\
    (nth c (nth k v []) 0 = 1 ->
     exists j, (j < Omega)%nat /\ Z.to_nat (nth j buf 0) = c).
Proof.
  intros [Hl Hf]. split; [exact Hl|]. intros k c.
  destruct (Nat.lt_ge_cases k (length v)) as [Hk | Hk].
  - rewrite List.Forall_forall in Hf.
    destruct (Hf (nth k v []) (nth_In v [] Hk)) as (a & b & Hb & ->).
    destruct (elem_upto_bits buf a b c) as [H01 H1]. split; [exact H01|].
    intros E. destruct (H1 E) as (j & Hj & Ej). exists j. split; [lia | exact Ej].
  - rewrite (nth_overflow v) by exact Hk. destruct c; cbn; split; auto; discriminate.
Qed.

Lemma find_seq_before (f : nat -> bool) (s n k : nat) :
  find f (seq s n) = Some k ->
  (s <= k < s + n)%nat /\ f k = true /\ forall j, (s <= j < k)%nat -> f j = false.
Proof.
  revert s. induction n as [|n IH]; intros s; [discriminate|].
  cbn [seq find]. destruct (f s) eqn:Es.
  - intros [= <-]. split; [lia|]. split; [exact Es|]. intros j Hj. lia.
  - intros H. destruct (IH (S s) H) as (Hk & Hf & Hb).
    split; [lia|]. split; [exact Hf|]. intros j Hj.
    destruct (Nat.eq_dec j s) as [-> | Hne]; [exact Es | apply Hb; lia].
Qed.

(** The coefficients of the element decoded from the index bytes a, ...,
    b - 1: coefficient c is 1 when one of these bytes is c, and 0 if not. *)
Lemma elem_upto_coeff (buf : list Z) (a b c : nat) :
  (c < N)%nat ->
  (nth c (elem_upto buf a b) 0 = 0 \/ nth c (elem_upto buf a b) 0 = 1) /\
  (nth c (elem_upto buf a b) 0 = 1 <->
   exists j, (a <= j < b)%nat /\ Z.to_nat (nth j buf 0) = c).
Proof.
  intros Hc. destruct (elem_upto_bits buf a b c) as [H01 H1].
  split; [exact H01|]. split; [exact H1|].
  intros (j & Hj & Ej). unfold elem_upto.
  rewrite nth_ones_at by (unfold zeroPoly; rewrite repeat_length; exact Hc).
  assert (E : existsb (Nat.eqb c)
                (map (fun j => Z.to_nat (nth j buf 0)) (seq a (b - a))) = true).
  { apply existsb_exists. exists c. split; [|apply Nat.eqb_refl].
    apply in_map_iff. exists j. split; [exact Ej | apply in_seq; lia]. }
  rewrite E. reflexivity.
Qed.

Lemma nth_stopped_at (Omega K : nat) (buf : list Z) (k m : nat) :
  (k < K)%nat -> (m < K)%nat ->
  nth m (stopped_at Omega K buf k) [] =
  if (m <? k)%nat
  then elem_upto buf (Z.to_nat (prev_sop Omega buf m)) (Z.to_nat (sop Omega buf m))
  else if (m =? k)%nat
  then if sop_ok Omega buf k
       then elem_upto buf (Z.to_nat (prev_sop Omega buf k))
              (first_unordered buf (Z.to_nat (prev_sop Omega buf k))
                                   (Z.to_nat (sop Omega buf k)))
       else zeroPoly
  else zeroPoly.
Proof.
  intros Hk Hm. unfold stopped_at.
  assert (Hv : nth m (vstate Omega K buf k) [] =
               if (m <? k)%nat
               then elem_upto buf (Z.to_nat (prev_sop Omega buf m))
                                  (Z.to_nat (sop Omega buf m))
               else zeroPoly).
  { rewrite (nth_indep _ [] zeroPoly) by (rewrite length_vstate; exact Hm).
    apply nth_vstate. exact Hm. }
  destruct (sop_ok Omega buf k).
  - destruct (Nat.eq_dec k m) as [<- | Hne].
    + rewrite nth_insert_eq by (rewrite length_vstate; exact Hk).
      destruct (Nat.ltb_spec k k); [lia|]. rewrite Nat.eqb_refl. reflexivity.
    + rewrite nth_insert_ne by exact Hne. rewrite Hv.
      destruct (Nat.ltb_spec m k); [reflexivity|].
      destruct (Nat.eqb_spec m k); [lia | reflexivity].
  - rewrite Hv. destruct (Nat.ltb_spec m k); [reflexivity|].
    destruct (Nat.eqb_spec m k); reflexivity.
Qed.

(** C5, amended. When [UnpackB60] returns false the polynomial is all zero.
    When [UnpackHint] returns false the vector is the decoding up to the
    violation, [unpacked]: it has K elements; if every element is well
    formed (only the padding is nonzero) it is the full decoding; otherwise,
    with k the first element that breaks the rules, the elements before k
    are decoded in full from their index bytes, the elements after k are
    zero, and element k is zero when its switch-over point is out of order
    or above Omega, and else holds the bits named by its index bytes from
    its start up to the first one that is not above its predecessor. A
    decoded element has a 1 exactly at the positions its index bytes
    name. *)
Theorem failed_unpack_output (Omega K : nat) (bufH bufC : list Z)
    (v0 v : list (list Z)) (p0 p : list Z) :
  (Omega <= 255)%nat -> (Omega + K <= length bufH)%nat -> is_bytes bufH = true ->
  (40 <= length bufC)%nat ->
  UnpackHint Omega K v0 bufH = Ok (v, false) ->
  UnpackB60 p0 bufC = Ok (p, false) ->
  p = zeroPoly /\
  v = unpacked Omega K bufH /\
  length v = K /\
  (first_bad Omega K bufH = None ->
   v = decode_hint Omega K bufH /\ pad_ok Omega K bufH = false) /\
  (forall k, first_bad Omega K bufH = Some k ->
     (k < K)%nat /\ elem_ok Omega bufH k = false /\
     (forall m, (m < k)%nat -> elem_ok Omega bufH m = true) /\
     (forall m, (m < k)%nat ->
        nth m v [] = elem_upto bufH (Z.to_nat (prev_sop Omega bufH m))
                                    (Z.to_nat (sop Omega bufH m))) /\
     (forall m, (k < m < K)%nat -> nth m v [] = zeroPoly) /\
     nth k v [] =
       if sop_ok Omega bufH k
       then elem_upto bufH (Z.to_nat (prev_sop Omega bufH k))
              (first_unordered bufH (Z.to_nat (prev_sop Omega bufH k))
                                    (Z.to_nat (sop Omega bufH k)))
       else zeroPoly) /\
  (forall a b c, (c < N)%nat ->
     (nth c (elem_upto bufH a b) 0 = 0 \/ nth c (elem_upto bufH a b) 0 = 1) /\
     (nth c (elem_upto bufH a b) 0 = 1 <->
      exists j, (a <= j < b)%nat /\ Z.to_nat (nth j bufH 0) = c)) /\
  (forall k c,
     (nth c (nth k v []) 0 = 0 \/ nth c (nth k v []) 0 = 1) /\
     (nth c (nth k v []) 0 = 1 ->
      exists j, (j < Omega)%nat /\ Z.to_nat (nth j bufH 0) = c)).
Proof.
  intros HO Hl Hb Hc EH EC.
  pose proof (UnpackHint_exact Omega K bufH HO Hl Hb v0) as Ex.
  assert (Hv : v = unpacked Omega K bufH /\ hint_valid Omega K bufH = false).
  { revert Ex. generalize (hint_valid Omega K bufH) (unpacked Omega K bufH).
    intros fl u Ex. rewrite EH in Ex. injection Ex as -> <-. split; reflexivity. }
  destruct Hv as [Hv Hinv].
  split; [|split; [exact Hv|split; [|split; [|split; [|split]]]]].
  - destruct (UnpackB60_flag bufC p0 Hc) as (p' & E & _ & Hz).
    revert E Hz. generalize (shr (sign_field bufC) 60 =? 0). intros b E Hz.
    rewrite EC in E. injection E as Hp Hf. subst p' b. apply Hz. reflexivity.
  - destruct (UnpackHint_char Omega K bufH HO Hl Hb v0) as (v' & E & [Hd _] & _).
    revert E. generalize (hint_valid Omega K bufH). intros b E.
    rewrite EH in E. injection E as Hv' Hf. subst v'. exact Hd.
  - intros Hn. split; [rewrite Hv; unfold unpacked; rewrite Hn; reflexivity|].
    unfold first_bad in Hn.
    assert (Hall : forallb (elem_ok Omega bufH) (seq 0 K) = true).
    { apply forallb_forall. intros j Hj.
      pose proof (find_none _ _ Hn j Hj) as H. apply negb_false_iff in H. exact H. }
    unfold hint_valid in Hinv. rewrite Hall in Hinv. exact Hinv.
  - intros k Hk. unfold first_bad in Hk.
    destruct (find_seq_before _ _ _ _ Hk) as (HkK & Hbad & Hbefore).
    apply negb_true_iff in Hbad.
    assert (Hu : unpacked Omega K bufH = stopped_at Omega K bufH k)
      by (unfold unpacked, first_bad; rewrite Hk; reflexivity).
    split; [lia|]. split; [exact Hbad|]. split; [|split; [|split]].
    + intros m Hm. apply negb_false_iff. apply Hbefore. lia.
    + intros m Hm. rewrite Hv, Hu, nth_stopped_at by lia.
      destruct (Nat.ltb_spec m k); [reflexivity | lia].
    + intros m Hm. rewrite Hv, Hu, nth_stopped_at by lia.
      destruct (Nat.ltb_spec m k); [lia|].
      destruct (Nat.eqb_spec m k); [lia | reflexivity].
    + rewrite Hv, Hu, nth_stopped_at by lia.
      destruct (Nat.ltb_spec k k); [lia|]. rewrite Nat.eqb_refl. reflexivity.
  - intros a b c Hcn. apply elem_upto_coeff. exact Hcn.
  - destruct (UnpackHint_char Omega K bufH HO Hl Hb v0) as (v' & E & Hd & _).
    revert E. generalize (hint_valid Omega K bufH). intros b E.
    rewrite EH in E. injection E as Hv' Hf. subst v'.
    apply (decoded_prefix_bits Omega K bufH v Hd).
Qed.

Lemma failed_unpack_output_witness :
  exists v p,
    UnpackHint 96 5 (zeroVecK 5) Examples.bad_hint_buf = Ok (v, false) /\
    UnpackB60 zeroPoly Examples.bad_challenge_buf = Ok (p, false) /\
    p = zeroPoly /\
    v = unpacked 96 5 Examples.bad_hint_buf /\
    length v = 5%nat /\
    (first_bad 96 5 Examples.bad_hint_buf = None ->
     v = decode_hint 96 5 Examples.bad_hint_buf /\
     pad_ok 96 5 Examples.bad_hint_buf = false) /\
    (forall k, first_bad 96 5 Examples.bad_hint_buf = Some k ->
       (k < 5)%nat /\ elem_ok 96 Examples.bad_hint_buf k = false /\
       (forall m, (m < k)%nat -> elem_ok 96 Examples.bad_hint_buf m = true) /\
       (forall m, (m < k)%nat ->
          nth m v [] =
          elem_upto Examples.bad_hint_buf
            (Z.to_nat (prev_sop 96 Examples.bad_hint_buf m))
            (Z.to_nat (sop 96 Examples.bad_hint_buf m))) /\
       (forall m, (k < m < 5)%nat -> nth m v [] = zeroPoly) /\
       nth k v [] =
         if sop_ok 96 Examples.bad_hint_buf k
         then elem_upto Examples.bad_hint_buf
                (Z.to_nat (prev_sop 96 Examples.bad_hint_buf k))
                (first_unordered Examples.bad_hint_buf
                   (Z.to_nat (prev_sop 96 Examples.bad_hint_buf k))
                   (Z.to_nat (sop 96 Examples.bad_hint_buf k)))
         else zeroPoly) /\
    (forall a b c, (c < N)%nat ->
       (nth c (elem_upto Examples.bad_hint_buf a b) 0 = 0 \/
        nth c (elem_upto Examples.bad_hint_buf a b) 0 = 1) /\
       (nth c (elem_upto Examples.bad_hint_buf a b) 0 = 1 <->
        exists j, (a <= j < b)%nat /\
                  Z.to_nat (nth j Examples.bad_hint_buf 0) = c)) /\
    (forall k c,
       (nth c (nth k v []) 0 = 0 \/ nth c (nth k v []) 0 = 1) /\
       (nth c (nth k v []) 0 = 1 ->
        exists j, (j < 96)%nat /\ Z.to_nat (nth j Examples.bad_hint_buf 0) = c)).
Proof.
  assert (EH : UnpackHint 96 5 (zeroVecK 5) Examples.bad_hint_buf =
               Ok (<[0%nat := <[5%nat := 1]> zeroPoly]> (zeroVecK 5), false))
    by (vm_compute; reflexivity).
  assert (EC : UnpackB60 zeroPoly Examples.bad_challenge_buf = Ok (zeroPoly, false))
    by (vm_compute; reflexivity).
  eexists _, _. split; [exact EH|]. split; [exact EC|].
  apply (failed_unpack_output 96 5 Examples.bad_hint_buf Examples.bad_challenge_buf
           (zeroVecK 5) _ zeroPoly _).
  - lia.
  - vm_compute. lia.
  - vm_compute. reflexivity.
  - vm_compute. lia.
  - exact EH.
  - exact EC.
Defined.

(** *** The samplers *)

Lemma block_cands_range (buf : list Z) (k : nat) (x : Z) :
  In x (Sample.block_cands buf k) -> 0 <= x < 4096.
Proof.
  unfold Sample.block_cands. rewrite in_flat_map. intros (m & _ & Hx).
  destruct Hx as [<- | [<- | []]].
  - apply SampleFacts.cand1_range.
  - apply SampleFacts.cand2_range.
Qed.

Lemma stream_cands_range (h : nat -> Z) (blk n : nat) (x : Z) :
  In x (Sample.stream_cands h blk n) -> 0 <= x < 4096.
Proof.
  unfold Sample.stream_cands. rewrite in_flat_map. intros (b & _ & Hx).
  apply (block_cands_range _ _ _ Hx).
Qed.

(** C9. Whenever the first n blocks of the SHAKE-128 stream of the seed and
    the two context bytes hold N candidates below Q, [DeriveUniform] returns
    after at most n blocks with all N coefficients set, each of them in
    [0, Q): they are the first N accepted candidates, reordered by Tangle
    (a permutation). *)
Theorem DeriveUniform_bound
    (Q : Z) (shake128 : list Z -> nat -> Z) (Tangle : list Z -> list Z)
    (p0 seed : list Z) (x y : Z) (n fuel : nat) :
  (forall p, Permutation (Tangle p) p) ->
  length p0 = Sample.N ->
  (Sample.N <=
   length (Sample.accepted Q (Sample.stream_cands (shake128 (seed ++ [x; y])) 0 n)))%nat ->
  (n <= fuel)%nat ->
  exists p,
    Sample.DeriveUniform Q shake128 Tangle fuel p0 seed x y = Some (Ok p) /\
    length p = Sample.N /\
    List.Forall (fun c => 0 <= c < Q) p /\
    Permutation p
      (take Sample.N
         (Sample.accepted Q (Sample.stream_cands (shake128 (seed ++ [x; y])) 0 n))).
Proof.
  intros HT Hp0 Hn Hf.
  set (h := shake128 (seed ++ [x; y])) in *.
  set (A := Sample.accepted Q (Sample.stream_cands h 0 n)) in *.
  pose proof (SampleFacts.uniform_loop_spec Q h p0 n Hp0 0%nat [] fuel) as E.
  cbn [length app] in E. rewrite drop_0 in E.
  specialize (E ltac:(unfold Sample.N; lia) Hn Hf). fold A in E.
  exists (Tangle (take Sample.N A)).
  split; [|split; [|split]].
  - unfold Sample.DeriveUniform. cbv zeta. fold h. rewrite E. reflexivity.
  - rewrite (Permutation_length (HT _)), length_take. lia.
  - apply (Permutation_Forall (Permutation_sym (HT _))).
    apply List.Forall_forall. intros c Hc.
    apply (SampleFacts.accepted_range Q (Sample.stream_cands h 0 n)).
    + intros z Hz. apply (stream_cands_range _ _ _ _ Hz).
    + fold A. rewrite <- (take_drop Sample.N A). apply in_or_app. left. exact Hc.
  - apply HT.
Qed.

Lemma DeriveUniform_bound_witness :
  exists p,
    Sample.DeriveUniform 3329 Examples.zero_stream (fun p => p) 3
      (repeat 0 256) [1; 2; 3] 4 5 = Some (Ok p) /\
    length p = Sample.N /\
    List.Forall (fun c => 0 <= c < 3329) p /\
    Permutation p
      (take Sample.N
         (Sample.accepted 3329
            (Sample.stream_cands (Examples.zero_stream ([1; 2; 3] ++ [4; 5])) 0 3))).
Proof.
  apply (DeriveUniform_bound 3329 Examples.zero_stream (fun p => p)
           (repeat 0 256) [1; 2; 3] 4 5 3 3).
  - intros p. apply Permutation_refl.
  - reflexivity.
  - vm_compute. lia.
  - lia.
Defined.

(** C10. [DeriveNoise] panics exactly when eta is neither 2 nor 3; for eta 2
    it is [DeriveNoise2] and for eta 3 it is [DeriveNoise3], and both run to
    the end on every seed and nonce. *)
Theorem DeriveNoise_panics_iff
    (shake256 : list Z -> nat -> Z) (p seed : list Z) (nonce eta : Z) :
  length p = Sample.N ->
  ((exists msg, Sample.DeriveNoise shake256 p seed nonce eta = Panic msg) <->
   (eta <> 2 /\ eta <> 3)) /\
  (eta = 2 ->
   Sample.DeriveNoise shake256 p seed nonce eta =
   Sample.DeriveNoise2 shake256 p seed nonce /\
   exists p', Sample.DeriveNoise2 shake256 p seed nonce = Ok p') /\
  (eta = 3 ->
   Sample.DeriveNoise shake256 p seed nonce eta =
   Sample.DeriveNoise3 shake256 p seed nonce /\
   exists p', Sample.DeriveNoise3 shake256 p seed nonce = Ok p') /\
  (eta <> 2 /\ eta <> 3 ->
   Sample.DeriveNoise shake256 p seed nonce eta = Panic "unsupported eta").
Proof.
  intros Hp.
  destruct (SampleFacts.DeriveNoise2_ok shake256 p seed nonce Hp) as (p2 & E2 & _).
  destruct (SampleFacts.DeriveNoise3_ok shake256 p seed nonce Hp) as (p3 & E3 & _).
  unfold Sample.DeriveNoise.
  split; [|split; [|split]].
  - destruct (Z.eqb_spec eta 2) as [-> | H2].
    + rewrite E2. split; [intros (m & Hm); discriminate | intros [H _]; lia].
    + destruct (Z.eqb_spec eta 3) as [-> | H3].
      * rewrite E3. split; [intros (m & Hm); discriminate | intros [_ H]; lia].
      * split; [intros _; split; assumption | intros _; eexists; reflexivity].
  - intros ->. cbn [Z.eqb Pos.eqb]. split; [reflexivity | exists p2; exact E2].
  - intros ->. cbn [Z.eqb Pos.eqb]. split; [reflexivity | exists p3; exact E3].
  - intros [H2 H3].
    destruct (Z.eqb_spec eta 2) as [-> | _]; [lia|].
    destruct (Z.eqb_spec eta 3) as [-> | _]; [lia|]. reflexivity.
Qed.

Lemma DeriveNoise_panics_iff_witness :
  ((exists msg,
      Sample.DeriveNoise Examples.ones_stream (repeat 0 256) [1; 2; 3] 7 4 = Panic msg) <->
   (4 <> 2 /\ 4 <> 3)) /\
  (4 = 2 ->
   Sample.DeriveNoise Examples.ones_stream (repeat 0 256) [1; 2; 3] 7 4 =
   Sample.DeriveNoise2 Examples.ones_stream (repeat 0 256) [1; 2; 3] 7 /\
   exists p', Sample.DeriveNoise2 Examples.ones_stream (repeat 0 256) [1; 2; 3] 7 = Ok p') /\
  (4 = 3 ->
   Sample.DeriveNoise Examples.ones_stream (repeat 0 256) [1; 2; 3] 7 4 =
   Sample.DeriveNoise3 Examples.ones_stream (repeat 0 256) [1; 2; 3] 7 /\
   exists p', Sample.DeriveNoise3 Examples.ones_stream (repeat 0 256) [1; 2; 3] 7 = Ok p') /\
  (4 <> 2 /\ 4 <> 3 ->
   Sample.DeriveNoise Examples.ones_stream (repeat 0 256) [1; 2; 3] 7 4 =
   Panic "unsupported eta").
Proof.
  apply (DeriveNoise_panics_iff Examples.ones_stream (repeat 0 256) [1; 2; 3] 7 4).
  reflexivity.
Defined.

End Claims.
